(** * CrazyAra search worker: engine/src/searchthread.cpp

    A shallow embedding of the per-worker MCTS loop (selection, leaf
    expansion, mini-batch staging, network dispatch and backup) together
    with the properties of it that the design document relies on.

    Conventions of the embedding.
    - Pointers to [Node] are indices into an arena ([Tree]); [nullptr] is
      [None].  Dereferencing a dangling index, writing past the capacity of
      a [FixedVector], and converting a double that is not finite or not
      below [2^64] to [size_t] have no defined result in C++; the embedding
      returns [None] there.
    - A [double] is IEEE 754 binary64: every operation is the exact result
      rounded to 53 significant bits, ties to even ([Double]).
    - Container sizes are [nat]; machine integers whose arithmetic can wrap
      are [Z] with the wrap-around written out.
    - Mutexes are not modelled: one worker runs at a time, so [lock] and
      [unlock] are no-ops.
    - The build modelled is the default one (no SEARCH_UCT, no
      MCTS_STORE_STATES). *)

From Stdlib Require Import ZArith QArith Qround Qpower Lia Lqa List Bool Reals Lra.
From stdpp Require Import base option list.

Local Open Scope Z_scope.

(** ** Machine integers *)

Module Word.

(** [size_t] on the 64-bit targets the engine is built for. *)
Definition size_bits : Z := 64.
Definition size_modulus : Z := 2 ^ size_bits.
Definition wrap_size (z : Z) : Z := z mod size_modulus.

(** [ChildIdx] is [uint16_t]; [uint16_t(-1)] is the "no child chosen"
    sentinel used all over the selector. *)
Definition idx_modulus : Z := 2 ^ 16.
Definition wrap_idx (z : Z) : Z := z mod idx_modulus.

End Word.

Definition ChildIdx := Z.
Definition NO_CHILD : ChildIdx := Word.wrap_idx (-1).

(** ** get_random_depth (searchthread.cpp:497-501)

    [randInt / 100.0] is one of 0.01 .. 1.00, so [1 - randInt / 100.0] is
    the rational [(100 - randInt) / 100].  For a positive rational
    [num / den] the value [ceil(-log2(num/den) - 1)] is the least integer
    [d] with [den <= 2^(d+1) * num]; on the values that occur here it is
    never negative, so the search starts at 0.  The only buckets where the
    logarithm is an integer are 0.50 and 0.25, which binary64 holds exactly,
    so the rounding of the doubles does not move any ceiling.
    [std::log2(0)] is minus infinity, which makes the argument of the
    conversion to [size_t] plus infinity: that conversion has no defined
    result. *)

Fixpoint least_shift (fuel : nat) (d num den : Z) : option Z :=
  match fuel with
  | O => None
  | S fuel' =>
      if den <=? 2 ^ (d + 1) * num then Some d
      else least_shift fuel' (d + 1) num den
  end.

Definition ceil_neg_log2_minus_1 (num den : Z) : option Z :=
  if num <=? 0 then None
  else least_shift (S (Z.to_nat (Z.log2_up den))) 0 num den.

(** [r] is the value returned by [rand()]. *)
Definition get_random_depth (r : Z) : option Z :=
  let randInt := r mod 100 + 1 in
  ceil_neg_log2_minus_1 (100 - randInt) 100.

(** What the result for bucket [k = rand() % 100] has to satisfy: it is
    missing exactly for the last bucket, and otherwise it is the [d] in 0..6
    with [2^d * num < 100 <= 2^(d+1) * num] for [num = 99 - k]. *)
Definition bucket_ok (k : Z) : bool :=
  match get_random_depth k with
  | Some d =>
      (0 <=? d) && (d <=? 6) && (k <? 99)
      && (2 ^ d * (99 - k) <? 100) && (100 <=? 2 ^ (d + 1) * (99 - k))
  | None => k =? 99
  end.

(** The base-2 logarithm of the reals, to state what [get_random_depth]
    computes. *)
Definition log2R (x : R) : R := (ln x / ln 2)%R.

(** ** binary64

    [double] on the engine's targets is IEEE 754 binary64: 53 significant
    bits, and every operation returns the exact result rounded to the
    nearest double, ties to the even significand.  A finite double is kept
    as the rational number it stands for.  The doubles of [get_avg_depth]
    come from two [size_t] values, their quotient and that quotient plus
    0.5: they are zero or lie between [2^-64] and [2^65], so the limits of
    the exponent (subnormals, overflow to infinity) are never met and are
    left out. *)

Module Double.

(** The [e] with [2^e <= x < 2^(e+1)], for a positive [x]. *)
Definition binade (x : Q) : Z :=
  let e := Z.log2 (Qnum x) - Z.log2 (Zpos (Qden x)) in
  if Qle_bool (2 ^ e) x then e else e - 1.

(** The nearest integer, ties to the even one. *)
Definition round_even (y : Q) : Z :=
  let m := Qfloor y in
  match (y - inject_Z m ?= 1 # 2)%Q with
  | Lt => m
  | Eq => if Z.even m then m else m + 1
  | Gt => m + 1
  end.

(** The distance between the doubles of the binade of [x]. *)
Definition ulp (x : Q) : Q := (2 ^ (binade x - 52))%Q.

Definition round_pos (x : Q) : Q := (inject_Z (round_even (x / ulp x)) * ulp x)%Q.

(** The double nearest to [x]. *)
Definition round (x : Q) : Q :=
  match (x ?= 0)%Q with
  | Eq => 0%Q
  | Gt => round_pos x
  | Lt => (- round_pos (- x))%Q
  end.

(** [double(z)] for an unsigned integer [z]. *)
Definition of_size_t (z : Z) : Q := round (inject_Z z).

Definition add (x y : Q) : Q := round (x + y).

(** [x / y]; with [y] zero the result is an infinity or a NaN, which is not
    held: its only use here is the conversion to [size_t], which has no
    defined result for either. *)
Definition div (x y : Q) : option Q :=
  if Qeq_bool y 0 then None else Some (round (x / y)).

(** [size_t(x)]: truncation towards zero, defined when the truncated value
    is a [size_t]. *)
Definition to_size_t (x : Q) : option Z :=
  if Qle_bool (inject_Z Word.size_modulus) x then None
  else if Qle_bool x (-1) then None
  else Some (Z.max 0 (Qfloor x)).

End Double.

(** ** Configuration and plain data *)

Inductive SearchPlayerMode := MODE_SINGLE_PLAYER | MODE_TWO_PLAYER.

Inductive NodeType :=
  UNSOLVED | SOLVED_WIN | SOLVED_LOSS | SOLVED_DRAW | TABLEBASE.

Definition NodeType_eqb (a b : NodeType) : bool :=
  match a, b with
  | UNSOLVED, UNSOLVED | SOLVED_WIN, SOLVED_WIN | SOLVED_LOSS, SOLVED_LOSS
  | SOLVED_DRAW, SOLVED_DRAW | TABLEBASE, TABLEBASE => true
  | _, _ => false
  end.

Inductive NodeBackup :=
  NODE_COLLISION | NODE_TERMINAL | NODE_TRANSPOSITION | NODE_NEW_NODE.

Record NodeDescription := { depth : nat; type : NodeBackup }.

Definition NodeId := nat.
Definition GamePhase := Z.

(** A trajectory is the vector of [NodeAndIdx] pairs pushed by the selector. *)
Definition Trajectory := list (NodeId * ChildIdx).

Record SearchLimits := { nodes : Z; simulations : Z; nodesLimit : Z }.

(** ** FixedVector

    Modelled from the spec: the class template lives in util/ and is not part
    of this translation unit.  It is a buffer of fixed capacity with a fill
    index: [add_element] stores at the index and advances it, [is_full]
    compares the index with the capacity, [reset_idx] rewinds to 0.  Storing
    into a full vector writes past the buffer. *)

Module FixedVector.
Section Def.
Context {A : Type}.

Record t := make { capacity : nat; elems : list A }.

Definition create (cap : nat) : t := make cap [].
Definition size (v : t) : nat := length (elems v).
Definition is_full (v : t) : bool := Nat.eqb (size v) (capacity v).
Definition add_element (x : A) (v : t) : option t :=
  if Nat.ltb (size v) (capacity v)
  then Some (make (capacity v) (elems v ++ [x]))
  else None.
Definition get_element (i : nat) (v : t) : option A := elems v !! i.
Definition reset_idx (v : t) : t := make (capacity v) [].
End Def.
Arguments t : clear implicits.
End FixedVector.

(** ** External collaborators

    Game state, node statistics, the UCB formulas, the attach primitive of
    [Node], the backup routines and the C library's [rand] are declared in
    other translation units.  They are taken as parameters; nothing is
    assumed about them. *)

Class Collaborators := {
  Action : Type;
  StateObj : Type;
  SideToMove : Type;
  (** [float] and [double] values that this file only moves around. *)
  Float : Type;
  (** Per-node statistics (priors, Q-values, child visits, virtual loss). *)
  NodeStats : Type;
  MapWithMutex : Type;
  GamePhaseDefinition : Type;

  (** Whether the build defines MCTS_TB_SUPPORT. *)
  MCTS_TB_SUPPORT : bool;

  (** The successive results of [rand()]. *)
  rand_stream : nat -> Z;

  (** StateObj *)
  do_action : StateObj -> Action -> StateObj;
  gives_check : StateObj -> Action -> bool;
  side_to_move : StateObj -> SideToMove;
  mirror_policy : StateObj -> SideToMove -> bool;
  get_state_planes : bool -> StateObj -> Z -> list Float;
  get_phase : StateObj -> nat -> GamePhaseDefinition -> GamePhase;

  (** Where the histogram of game phases enters a key it does not hold,
      as a position in its iteration order (by key for a [std::map], at the
      end for a container that iterates in order of insertion); the entries
      are given in iteration order. *)
  phase_slot : GamePhase -> list (GamePhase * Z) -> nat;
}.

(** ** phaseCountMap

    The histogram of game phases.  The declaration of the container is not
    part of this translation unit; the code uses its [operator[]], its
    [clear], its iterators and its [value_type] of key and count.  It is kept
    as the list of its entries in iteration order.  [incr] is
    [phaseCountMap[p]++]: the count of a key that is present goes up in
    place, a missing key is entered with the count 1 (created at 0, then
    incremented) at the position [phase_slot] gives it. *)

Module PhaseCount.
Definition t := list (GamePhase * Z).

(** [m[p]++] for a key that is present. *)
Fixpoint bump (p : GamePhase) (m : t) : option t :=
  match m with
  | [] => None
  | (k, c) :: m' =>
      if p =? k then Some ((k, c + 1) :: m')
      else cons (k, c) <$> bump p m'
  end.

Definition incr `{Collaborators} (p : GamePhase) (m : t) : t :=
  match bump p m with
  | Some m' => m'
  | None =>
      let i := phase_slot p m in
      take i m ++ (p, 1) :: drop i m
  end.

(** [std::max_element] with the "smaller count" comparison: the first
    entry, in iteration order, that no later entry beats strictly.
    On an empty map it returns [end()], which the caller dereferences. *)
Fixpoint max_element (m : t) : option (GamePhase * Z) :=
  match m with
  | [] => None
  | (k, c) :: m' =>
      match max_element m' with
      | Some (k', c') => if c <? c' then Some (k', c') else Some (k, c)
      | None => Some (k, c)
      end
  end.

Definition clear (_ : t) : t := [].
(** The number of leaves counted in the histogram. *)
Definition total (m : t) : Z := fold_right (fun e acc => snd e + acc) 0 m.

End PhaseCount.

Section Model.
Context `{C : Collaborators}.

Record SearchSettings := {
  batchSize : nat;
  searchPlayerMode : SearchPlayerMode;
  epsilonGreedyCounter : Z;
  epsilonChecksCounter : Z;
  mctsSolver : bool;
  nodePolicyTemperature : Float;
  gamePhaseDefinition : GamePhaseDefinition;
}.

(** *** Node

    Modelled from the spec: class [Node] is declared in node.h, which is
    not part of this translation unit.  The fields are the attributes of
    the data model; the children are the ordered (action, child link)
    pairs. *)
Record Node := {
  visits : Z;
  value : Float;
  children : list (Action * option NodeId);
  no_visit_idx : nat;
  node_type : NodeType;
  has_nn_results : bool;
  is_terminal : bool;
  is_transposition : bool;
  was_inspected : bool;
  node_stats : NodeStats;
}.

Definition Tree := list Node.

Definition get_number_child_nodes (n : Node) : nat := length (children n).
Definition get_child_link (n : Node) (i : ChildIdx) : option (option NodeId) :=
  snd <$> children n !! Z.to_nat i.
Definition get_action (n : Node) (i : ChildIdx) : option Action :=
  fst <$> children n !! Z.to_nat i.
(** Modelled from the spec: a node is a playout node iff [has_nn_results]. *)
Definition is_playout_node (n : Node) : bool := has_nn_results n.
Definition is_tablebase (n : Node) : bool := NodeType_eqb (node_type n) TABLEBASE.

Definition with_no_visit_idx (k : nat) (n : Node) : Node :=
  {| visits := visits n; value := value n; children := children n;
     no_visit_idx := k; node_type := node_type n;
     has_nn_results := has_nn_results n; is_terminal := is_terminal n;
     is_transposition := is_transposition n;
     was_inspected := was_inspected n; node_stats := node_stats n |}.

(** Modelled from the spec: [no_visit_idx] only grows and never exceeds the
    number of children. *)
Definition increment_no_visit_idx (n : Node) : Node :=
  if Nat.ltb (no_visit_idx n) (get_number_child_nodes n)
  then with_no_visit_idx (S (no_visit_idx n)) n
  else n.

Definition set_as_inspected (n : Node) : Node :=
  {| visits := visits n; value := value n; children := children n;
     no_visit_idx := no_visit_idx n; node_type := node_type n;
     has_nn_results := has_nn_results n; is_terminal := is_terminal n;
     is_transposition := is_transposition n;
     was_inspected := true; node_stats := node_stats n |}.

Definition set_value (v : Float) (n : Node) : Node :=
  {| visits := visits n; value := v; children := children n;
     no_visit_idx := no_visit_idx n; node_type := node_type n;
     has_nn_results := has_nn_results n; is_terminal := is_terminal n;
     is_transposition := is_transposition n;
     was_inspected := was_inspected n; node_stats := node_stats n |}.

Definition enable_has_nn_results (n : Node) : Node :=
  {| visits := visits n; value := value n; children := children n;
     no_visit_idx := no_visit_idx n; node_type := node_type n;
     has_nn_results := true; is_terminal := is_terminal n;
     is_transposition := is_transposition n;
     was_inspected := was_inspected n; node_stats := node_stats n |}.

(** *** Operations of [Node] and of the backup module that stay abstract *)
Class NodeOps := {
  is_fully_expanded : Node -> bool;
  select_child_node : Node -> SearchSettings -> ChildIdx;
  get_best_action_index : Node -> bool -> SearchSettings -> ChildIdx;
  apply_virtual_loss_to_child : Node -> ChildIdx -> SearchSettings -> Node;
  get_real_visits : Node -> ChildIdx -> Z;
  get_transposition_q_value : Node -> SearchSettings -> ChildIdx -> Z -> Float;
  is_transposition_return : Node -> Float -> bool;
  get_transposition_backup_value : Z -> Float -> Float -> Float;
  get_node_count : Tree -> NodeId -> Z;
  set_probabilities_for_moves : Node -> list Float -> bool -> Node;
  enhance_moves : Node -> SearchSettings -> Node;
  apply_temperature_to_prior_policy : Node -> Float -> Node;
  get_policy_data_batch : nat -> list Float -> bool -> list Float;
  (** [v != 0] and [(nn + v) * 0.5f] of [node_assign_value] *)
  float_nonzero : Float -> bool;
  tb_average : Float -> Float -> Float;
  (** [Node::add_new_node_to_tree]: attaches a child for the given state at
      the given slot of the parent; yields the new table and tree, the
      attached (or canonical) node and the transposition flag. *)
  node_add_new_node_to_tree :
    MapWithMutex -> Tree -> NodeId -> StateObj -> ChildIdx -> SearchSettings ->
    MapWithMutex * Tree * NodeId * bool;
  (** [backup_value<freeBackup>(value, settings, trajectory, solveForTerminal)] *)
  backup_value : bool -> Float -> SearchSettings -> Trajectory -> bool -> Tree -> Tree;
  backup_collision : SearchSettings -> Trajectory -> Tree -> Tree;
}.

Context `{NO : NodeOps}.

(** *** The worker *)

Record NeuralNetAPI := {
  nb_input_values_total : nat;
  version : Z;
  is_policy_map : bool;
  (** value, policy and auxiliary outputs for a buffer of input planes *)
  predict : list Float -> list Float * list Float * list Float;
}.

(** The members of [SearchThread] are grouped the way the design document
    groups them; the member names are those of the class. *)
Record BatchStaging := {
  newNodes : FixedVector.t NodeId;
  newNodeSideToMove : FixedVector.t SideToMove;
  transpositionValues : FixedVector.t Float;
  newTrajectories : list Trajectory;
  transpositionTrajectories : list Trajectory;
  collisionTrajectories : list Trajectory;
  phaseCountMap : PhaseCount.t;
}.

Record Scratch := {
  trajectoryBuffer : Trajectory;
  actionsBuffer : list Action;
  newState : option StateObj;
}.

Record Stats := { tbHits : Z; depthSum : Z; depthMax : Z; visitsPreSearch : Z }.

Record NetBuffers := {
  inputPlanes : list Float;
  valueOutputs : list Float;
  probOutputs : list Float;
  auxiliaryOutputs : list Float;
}.

Record SearchThread := {
  rootNode : option NodeId;
  rootState : option StateObj;
  staging : BatchStaging;
  scratch : Scratch;
  stats : Stats;
  buffers : NetBuffers;
  isRunning : bool;
  searchSettings : SearchSettings;
  searchLimits : option SearchLimits;
  terminalNodeCache : nat;
  reachedTablebases : bool;
  nets : list NeuralNetAPI;
  numPhases : nat;
  phaseToNetsIndex : list (GamePhase * nat);
}.

Definition with_staging (f : BatchStaging -> BatchStaging) (w : SearchThread) :=
  {| rootNode := rootNode w; rootState := rootState w;
     staging := f (staging w); scratch := scratch w; stats := stats w;
     buffers := buffers w; isRunning := isRunning w;
     searchSettings := searchSettings w; searchLimits := searchLimits w;
     terminalNodeCache := terminalNodeCache w;
     reachedTablebases := reachedTablebases w; nets := nets w;
     numPhases := numPhases w; phaseToNetsIndex := phaseToNetsIndex w |}.

Definition with_scratch (f : Scratch -> Scratch) (w : SearchThread) :=
  {| rootNode := rootNode w; rootState := rootState w;
     staging := staging w; scratch := f (scratch w); stats := stats w;
     buffers := buffers w; isRunning := isRunning w;
     searchSettings := searchSettings w; searchLimits := searchLimits w;
     terminalNodeCache := terminalNodeCache w;
     reachedTablebases := reachedTablebases w; nets := nets w;
     numPhases := numPhases w; phaseToNetsIndex := phaseToNetsIndex w |}.

Definition with_stats (f : Stats -> Stats) (w : SearchThread) :=
  {| rootNode := rootNode w; rootState := rootState w;
     staging := staging w; scratch := scratch w; stats := f (stats w);
     buffers := buffers w; isRunning := isRunning w;
     searchSettings := searchSettings w; searchLimits := searchLimits w;
     terminalNodeCache := terminalNodeCache w;
     reachedTablebases := reachedTablebases w; nets := nets w;
     numPhases := numPhases w; phaseToNetsIndex := phaseToNetsIndex w |}.

Definition with_buffers (f : NetBuffers -> NetBuffers) (w : SearchThread) :=
  {| rootNode := rootNode w; rootState := rootState w;
     staging := staging w; scratch := scratch w; stats := stats w;
     buffers := f (buffers w); isRunning := isRunning w;
     searchSettings := searchSettings w; searchLimits := searchLimits w;
     terminalNodeCache := terminalNodeCache w;
     reachedTablebases := reachedTablebases w; nets := nets w;
     numPhases := numPhases w; phaseToNetsIndex := phaseToNetsIndex w |}.

Definition with_isRunning (b : bool) (w : SearchThread) :=
  {| rootNode := rootNode w; rootState := rootState w;
     staging := staging w; scratch := scratch w; stats := stats w;
     buffers := buffers w; isRunning := b;
     searchSettings := searchSettings w; searchLimits := searchLimits w;
     terminalNodeCache := terminalNodeCache w;
     reachedTablebases := reachedTablebases w; nets := nets w;
     numPhases := numPhases w; phaseToNetsIndex := phaseToNetsIndex w |}.

Definition with_rootNode (r : option NodeId) (w : SearchThread) :=
  {| rootNode := r; rootState := rootState w;
     staging := staging w; scratch := scratch w; stats := stats w;
     buffers := buffers w; isRunning := isRunning w;
     searchSettings := searchSettings w; searchLimits := searchLimits w;
     terminalNodeCache := terminalNodeCache w;
     reachedTablebases := reachedTablebases w; nets := nets w;
     numPhases := numPhases w; phaseToNetsIndex := phaseToNetsIndex w |}.

Definition with_newNodes f (b : BatchStaging) :=
  {| newNodes := f (newNodes b); newNodeSideToMove := newNodeSideToMove b;
     transpositionValues := transpositionValues b;
     newTrajectories := newTrajectories b;
     transpositionTrajectories := transpositionTrajectories b;
     collisionTrajectories := collisionTrajectories b;
     phaseCountMap := phaseCountMap b |}.

Definition with_newNodeSideToMove f (b : BatchStaging) :=
  {| newNodes := newNodes b; newNodeSideToMove := f (newNodeSideToMove b);
     transpositionValues := transpositionValues b;
     newTrajectories := newTrajectories b;
     transpositionTrajectories := transpositionTrajectories b;
     collisionTrajectories := collisionTrajectories b;
     phaseCountMap := phaseCountMap b |}.

Definition with_transpositionValues f (b : BatchStaging) :=
  {| newNodes := newNodes b; newNodeSideToMove := newNodeSideToMove b;
     transpositionValues := f (transpositionValues b);
     newTrajectories := newTrajectories b;
     transpositionTrajectories := transpositionTrajectories b;
     collisionTrajectories := collisionTrajectories b;
     phaseCountMap := phaseCountMap b |}.

Definition with_newTrajectories f (b : BatchStaging) :=
  {| newNodes := newNodes b; newNodeSideToMove := newNodeSideToMove b;
     transpositionValues := transpositionValues b;
     newTrajectories := f (newTrajectories b);
     transpositionTrajectories := transpositionTrajectories b;
     collisionTrajectories := collisionTrajectories b;
     phaseCountMap := phaseCountMap b |}.

Definition with_transpositionTrajectories f (b : BatchStaging) :=
  {| newNodes := newNodes b; newNodeSideToMove := newNodeSideToMove b;
     transpositionValues := transpositionValues b;
     newTrajectories := newTrajectories b;
     transpositionTrajectories := f (transpositionTrajectories b);
     collisionTrajectories := collisionTrajectories b;
     phaseCountMap := phaseCountMap b |}.

Definition with_collisionTrajectories f (b : BatchStaging) :=
  {| newNodes := newNodes b; newNodeSideToMove := newNodeSideToMove b;
     transpositionValues := transpositionValues b;
     newTrajectories := newTrajectories b;
     transpositionTrajectories := transpositionTrajectories b;
     collisionTrajectories := f (collisionTrajectories b);
     phaseCountMap := phaseCountMap b |}.

Definition with_phaseCountMap f (b : BatchStaging) :=
  {| newNodes := newNodes b; newNodeSideToMove := newNodeSideToMove b;
     transpositionValues := transpositionValues b;
     newTrajectories := newTrajectories b;
     transpositionTrajectories := transpositionTrajectories b;
     collisionTrajectories := collisionTrajectories b;
     phaseCountMap := f (phaseCountMap b) |}.

Definition with_trajectoryBuffer f (s : Scratch) :=
  {| trajectoryBuffer := f (trajectoryBuffer s);
     actionsBuffer := actionsBuffer s; newState := newState s |}.

Definition with_actionsBuffer f (s : Scratch) :=
  {| trajectoryBuffer := trajectoryBuffer s;
     actionsBuffer := f (actionsBuffer s); newState := newState s |}.

Definition with_newState (st : option StateObj) (s : Scratch) :=
  {| trajectoryBuffer := trajectoryBuffer s;
     actionsBuffer := actionsBuffer s; newState := st |}.

Definition with_inputPlanes f (b : NetBuffers) :=
  {| inputPlanes := f (inputPlanes b); valueOutputs := valueOutputs b;
     probOutputs := probOutputs b; auxiliaryOutputs := auxiliaryOutputs b |}.

(** *** The machine: one worker, the shared tree and table, and [rand]

    Code of the worker runs in a state-and-failure monad over it. *)

Record Machine := {
  thread : SearchThread;
  tree : Tree;
  table : MapWithMutex;
  rand_calls : nat;
}.

Definition M (A : Type) : Type := Machine -> option (A * Machine).

#[global] Instance M_ret : MRet M := fun A a s => Some (a, s).
#[global] Instance M_bind : MBind M := fun A B f m s =>
  match m s with
  | Some (a, s') => f a s'
  | None => None
  end.

Definition undefined {A} : M A := fun _ => None.
Definition lift {A} (o : option A) : M A := fun s => (fun a => (a, s)) <$> o.

Definition get_thread : M SearchThread := fun s => Some (thread s, s).
Definition modify_thread (f : SearchThread -> SearchThread) : M unit := fun s =>
  Some (tt, {| thread := f (thread s); tree := tree s; table := table s;
               rand_calls := rand_calls s |}).
Definition get_tree : M Tree := fun s => Some (tree s, s).
Definition modify_tree (f : Tree -> Tree) : M unit := fun s =>
  Some (tt, {| thread := thread s; tree := f (tree s); table := table s;
               rand_calls := rand_calls s |}).
Definition get_table : M MapWithMutex := fun s => Some (table s, s).
Definition put_table (m : MapWithMutex) : M unit := fun s =>
  Some (tt, {| thread := thread s; tree := tree s; table := m;
               rand_calls := rand_calls s |}).

(** [*p] and [*p = n] for a node pointer [p]. *)
Definition deref (p : NodeId) : M Node := fun s => (fun n => (n, s)) <$> tree s !! p.
Definition store (p : NodeId) (n : Node) : M unit :=
  modify_tree (fun t => <[p := n]> t).

Definition rand : M Z := fun s =>
  Some (rand_stream (rand_calls s),
        {| thread := thread s; tree := tree s; table := table s;
           rand_calls := S (rand_calls s) |}).

Definition modify_staging f : M unit := modify_thread (with_staging f).
Definition modify_scratch f : M unit := modify_thread (with_scratch f).

(** *** Construction and root (searchthread.cpp:44-69)

    [base] carries the members set up by the [NeuralNetAPIUser] base class
    and the members the constructor leaves for later setters.  The [switch]
    has no [break]: the single-player case assigns and then runs into the
    two-player case, whose body is the empty statement.  [batchSize * 2]
    is taken without wrap-around: a batch size is also the number of
    elements of three vectors allocated right here. *)

Definition new_SearchThread (base : SearchThread) (settings : SearchSettings)
  : SearchThread :=
  let cache := (batchSize settings * 2)%nat in
  let cache :=
    match searchPlayerMode settings with
    | MODE_SINGLE_PLAYER => let cache := 1%nat in (* case MODE_TWO_PLAYER: *) cache
    | MODE_TWO_PLAYER => cache
    end in
  {| rootNode := None; rootState := None;
     staging :=
       {| newNodes := FixedVector.create (batchSize settings);
          newNodeSideToMove := FixedVector.create (batchSize settings);
          transpositionValues := FixedVector.create (batchSize settings * 2);
          newTrajectories := []; transpositionTrajectories := [];
          collisionTrajectories := []; phaseCountMap := phaseCountMap (staging base) |};
     scratch := {| trajectoryBuffer := []; actionsBuffer := []; newState := None |};
     stats := {| tbHits := 0; depthSum := 0; depthMax := 0; visitsPreSearch := 0 |};
     buffers := buffers base; isRunning := true;
     searchSettings := settings; searchLimits := None;
     terminalNodeCache := cache; reachedTablebases := false;
     nets := nets base; numPhases := numPhases base;
     phaseToNetsIndex := phaseToNetsIndex base |}.

Definition set_root_node (p : NodeId) : M unit :=
  root ← deref p;
  modify_thread (fun w =>
    with_stats (fun st => {| tbHits := tbHits st; depthSum := depthSum st;
                             depthMax := depthMax st; visitsPreSearch := visits root |})
               (with_rootNode (Some p) w)).

Definition reset_stats : M unit :=
  modify_thread (with_stats (fun st =>
    {| tbHits := 0; depthSum := 0; depthMax := 0;
       visitsPreSearch := visitsPreSearch st |})).

(** *** get_avg_depth (searchthread.cpp:342-345)

    The subtraction is unsigned.  [double(depthSum)], the conversion of the
    divisor, the quotient and the addition of 0.5 are binary64 operations,
    each rounded; [size_t(x)] truncates.  With a zero divisor the double is
    infinite or NaN, and a double of [2^64] or more does not fit: the
    conversion to [size_t] has no defined result in either case. *)
Definition get_avg_depth : M Z :=
  w ← get_thread;
  p ← lift (rootNode w);
  root ← deref p;
  let d := Word.wrap_size (visits root - visitsPreSearch (stats w)) in
  q ← lift (Double.div (Double.of_size_t (depthSum (stats w))) (Double.of_size_t d));
  lift (Double.to_size_t (Double.add q (1 # 2))).

(** *** add_new_node_to_tree (searchthread.cpp:91-107) *)
Definition stage_transposition_value (v : Float) : M unit :=
  w ← get_thread;
  tv ← lift (FixedVector.add_element v (transpositionValues (staging w)));
  modify_staging (with_transpositionValues (fun _ => tv)).

Definition add_new_node_to_tree (st : StateObj) (parentNode : NodeId)
    (childIdx : ChildIdx) : M (NodeId * NodeBackup) :=
  w ← get_thread;
  m ← get_table;
  t ← get_tree;
  let '(m', t', newNode, transposition) :=
    node_add_new_node_to_tree m t parentNode st childIdx (searchSettings w) in
  put_table m';;
  modify_tree (fun _ => t');;
  n ← deref newNode;
  if is_terminal n then mret (newNode, NODE_TERMINAL)
  else if transposition then
    parent ← deref parentNode;
    link ← lift (get_child_link parent childIdx);
    child ← lift link;
    c ← deref child;
    stage_transposition_value (value c);;
    mret (newNode, NODE_TRANSPOSITION)
  else mret (newNode, NODE_NEW_NODE).

(** *** random_playout (searchthread.cpp:124-143)

    The reference parameter [childIdx] is assigned on every path, so the
    new index is the result. *)
Definition random_playout (currentNode : NodeId) : M ChildIdx :=
  cur ← deref currentNode;
  if is_fully_expanded cur then
    r ← rand;
    let n := Z.of_nat (get_number_child_nodes cur) in
    if n =? 0 then undefined
    else
      let idx := r mod n in
      link ← lift (get_child_link cur idx);
      match link with
      | None => mret (Word.wrap_idx idx)
      | Some child =>
          c ← deref child;
          if negb (is_playout_node c) then mret (Word.wrap_idx idx)
          else if NodeType_eqb (node_type c) UNSOLVED then mret (Word.wrap_idx idx)
          else mret NO_CHILD
      end
  else
    let idx := Z.min (Z.of_nat (no_visit_idx cur))
                     (Word.wrap_size (Z.of_nat (get_number_child_nodes cur) - 1)) in
    store currentNode (increment_no_visit_idx cur);;
    mret (Word.wrap_idx idx).

(** *** get_starting_node (searchthread.cpp:145-162)

    Returns the node reached, the updated [description.depth] and the last
    value assigned to [childIdx]. *)
Fixpoint get_starting_node_loop (steps : nat) (currentNode : NodeId)
    (depth : nat) (childIdx : ChildIdx) : M (NodeId * nat * ChildIdx) :=
  match steps with
  | O => mret (currentNode, depth, childIdx)
  | S steps' =>
      w ← get_thread;
      cur ← deref currentNode;
      let childIdx := get_best_action_index cur true (searchSettings w) in
      link ← lift (get_child_link cur childIdx);
      match link with
      | None => mret (currentNode, depth, childIdx)
      | Some nextNode =>
          nx ← deref nextNode;
          if negb (is_playout_node nx)
             || (visits nx <? epsilonGreedyCounter (searchSettings w))
             || negb (NodeType_eqb (node_type nx) UNSOLVED)
          then mret (currentNode, depth, childIdx)
          else
            a ← lift (get_action cur childIdx);
            modify_scratch (with_actionsBuffer (fun b => b ++ [a]));;
            get_starting_node_loop steps' nextNode (S depth) childIdx
      end
  end.

Definition get_starting_node (currentNode : NodeId) (depth : nat)
    (childIdx : ChildIdx) : M (NodeId * nat * ChildIdx) :=
  r ← rand;
  d ← lift (get_random_depth r);
  get_starting_node_loop (Z.to_nat d) currentNode depth childIdx.

(** *** select_enhanced_move (searchthread.cpp:451-473) *)

(** The position of the current node: the root state with the recorded
    actions replayed. *)
Definition replay (root : StateObj) (actions : list Action) : StateObj :=
  fold_left do_action actions root.

(** The scan [for (childIdx = from; childIdx < n; ++childIdx)] over the
    actions of the children from [from] on. *)
Fixpoint first_check (pos : StateObj) (actions : list Action) (childIdx : nat)
  : option nat :=
  match actions with
  | [] => None
  | a :: rest =>
      if gives_check pos a then Some childIdx
      else first_check pos rest (S childIdx)
  end.

Definition select_enhanced_move (currentNode : NodeId) : M ChildIdx :=
  cur ← deref currentNode;
  if is_playout_node cur && negb (was_inspected cur) && negb (is_terminal cur) then
    w ← get_thread;
    root ← lift (rootState w);
    let pos := replay root (actionsBuffer (scratch w)) in
    let from := no_visit_idx cur in
    match first_check pos (fst <$> drop from (children cur)) from with
    | Some childIdx =>
        (* for (idx = from; idx < childIdx+1; ++idx) increment_no_visit_idx() *)
        store currentNode (Nat.iter (childIdx + 1 - from) increment_no_visit_idx cur);;
        mret (Word.wrap_idx (Z.of_nat childIdx))
    | None =>
        store currentNode (set_as_inspected cur);;
        mret NO_CHILD
    end
  else mret NO_CHILD.

(** *** get_new_child_to_evaluate (searchthread.cpp:164-271) *)

(** [float*] buffer write of [vals] at [buf + off]. *)
Definition write_planes (off : nat) (vals buf : list Float) : option (list Float) :=
  if Nat.leb (off + length vals) (length buf)
  then Some (list_inserts off vals buf)
  else None.

Inductive PassResult :=
| Leaf (node : NodeId) (ty : NodeBackup)   (* [return nextNode] *)
| Descend (node : NodeId).                 (* next turn of [while (true)] *)

(** The branch [nextNode == nullptr] (lines 197-238). *)
Definition expand_child (currentNode : NodeId) (cur : Node) (childIdx : ChildIdx)
  : M PassResult :=
  w ← get_thread;
  root ← lift (rootState w);
  a ← lift (get_action cur childIdx);
  let st := do_action (replay root (actionsBuffer (scratch w))) a in
  modify_scratch (with_newState (Some st));;
  store currentNode (increment_no_visit_idx cur);;
  '(nextNode, ty) ← add_new_node_to_tree st currentNode childIdx;
  match ty with
  | NODE_NEW_NODE =>
      w ← get_thread;
      net ← lift (head (nets w));
      let off := (FixedVector.size (newNodes (staging w)) * nb_input_values_total net)%nat in
      planes ← lift (write_planes off (get_state_planes true st (version net))
                                  (inputPlanes (buffers w)));
      modify_thread (with_buffers (with_inputPlanes (fun _ => planes)));;
      let currPhase := get_phase st (numPhases w) (gamePhaseDefinition (searchSettings w)) in
      modify_staging (with_phaseCountMap (PhaseCount.incr currPhase));;
      stm ← lift (FixedVector.add_element (side_to_move st) (newNodeSideToMove (staging w)));
      modify_staging (with_newNodeSideToMove (fun _ => stm));;
      mret (Leaf nextNode ty)
  | _ => mret (Leaf nextNode ty)
  end.

(** The branches for a child that exists (lines 239-269). *)
Definition visit_child (cur : Node) (childIdx : ChildIdx) (nextNode : NodeId)
  : M PassResult :=
  w ← get_thread;
  nx ← deref nextNode;
  let descend : M PassResult :=
    a ← lift (get_action cur childIdx);
    modify_scratch (with_actionsBuffer (fun b => b ++ [a]));;
    mret (Descend nextNode) in
  if is_terminal nx then mret (Leaf nextNode NODE_TERMINAL)
  else if negb (has_nn_results nx) then mret (Leaf nextNode NODE_COLLISION)
  else if is_transposition nx then
    let transposVisits := get_real_visits cur childIdx in
    let transposQValue :=
      get_transposition_q_value cur (searchSettings w) childIdx transposVisits in
    if is_transposition_return nx transposQValue then
      let backupValue :=
        get_transposition_backup_value transposVisits transposQValue (value nx) in
      stage_transposition_value backupValue;;
      mret (Leaf nextNode NODE_TRANSPOSITION)
    else descend
  else descend.

(** The machine once the selector has applied the virtual loss to the edge
    [(currentNode, childIdx)] and recorded it in the trajectory. *)
Definition after_edge (s : Machine) (currentNode : NodeId) (cur : Node)
    (childIdx : ChildIdx) : Machine :=
  {| thread :=
       with_scratch (with_trajectoryBuffer (fun t => t ++ [(currentNode, childIdx)]))
                    (thread s);
     tree := <[currentNode := cur]> (tree s);
     table := table s; rand_calls := rand_calls s |}.

(** The index the pass works with: a fresh UCB choice when none was given. *)
Definition chosen_idx (s : Machine) (cur0 : Node) (childIdx : ChildIdx) : ChildIdx :=
  if childIdx =? NO_CHILD then select_child_node cur0 (searchSettings (thread s))
  else childIdx.

Definition edge_node (s : Machine) (cur0 : Node) (childIdx : ChildIdx) : Node :=
  apply_virtual_loss_to_child cur0 (chosen_idx s cur0 childIdx)
                              (searchSettings (thread s)).

Definition on_thread (f : SearchThread -> SearchThread) (s : Machine) : Machine :=
  {| thread := f (thread s); tree := tree s; table := table s;
     rand_calls := rand_calls s |}.

(** The machine with one more value staged in [transpositionValues], and
    with one more action recorded in [actionsBuffer]. *)
Definition stage_value (v : Float) : Machine -> Machine :=
  on_thread (with_staging (with_transpositionValues (fun tv =>
    FixedVector.make (FixedVector.capacity tv) (FixedVector.elems tv ++ [v])))).

Definition push_action (a : Action) : Machine -> Machine :=
  on_thread (with_scratch (with_actionsBuffer (fun b => b ++ [a]))).

(** The machine of [expand_child] once the child state has been built and
    [no_visit_idx] advanced, and once the attach primitive has run. *)
Definition before_attach (s : Machine) (currentNode : NodeId) (cur : Node)
    (st : StateObj) : Machine :=
  {| thread := with_scratch (with_newState (Some st)) (thread s);
     tree := <[currentNode := increment_no_visit_idx cur]> (tree s);
     table := table s; rand_calls := rand_calls s |}.

Definition attached (m : MapWithMutex) (t : Tree) (s : Machine) : Machine :=
  {| thread := thread s; tree := t; table := m; rand_calls := rand_calls s |}.

(** The machine after one call of [rand()], and after [*p = n]. *)
Definition after_rand (s : Machine) : Machine :=
  {| thread := thread s; tree := tree s; table := table s;
     rand_calls := S (rand_calls s) |}.

Definition poke (p : NodeId) (n : Node) (s : Machine) : Machine :=
  {| thread := thread s; tree := <[p := n]> (tree s); table := table s;
     rand_calls := rand_calls s |}.

(** The members that decide when the assembly loop stops and where a leaf
    is filed. *)
Definition core (s : Machine) :=
  let w := thread s in
  (newNodes (staging w), newTrajectories (staging w),
   transpositionTrajectories (staging w), collisionTrajectories (staging w),
   transpositionValues (staging w), searchSettings w, terminalNodeCache w,
   nets w).

(** Code that leaves those members alone. *)
Definition quiet {A} (m : M A) : Prop :=
  forall s a s', m s = Some (a, s') -> core s' = core s.

(** What one selection may do to those members, by the type of the leaf it
    returns: a transposition leaf comes with one value staged (into a vector
    that had room), any other leaf with nothing. *)
Definition selected (ty : NodeBackup) (s s' : Machine) : Prop :=
  match ty with
  | NODE_TRANSPOSITION =>
      exists v, core s' = core (stage_value v s)
                /\ (FixedVector.size (transpositionValues (staging (thread s)))
                    < FixedVector.capacity (transpositionValues (staging (thread s))))%nat
  | _ => core s' = core s
  end.

(** One turn of the [while (true)] loop. *)
Definition select_pass (currentNode : NodeId) (childIdx : ChildIdx) : M PassResult :=
  w ← get_thread;
  cur ← deref currentNode;
  let childIdx :=
    if childIdx =? NO_CHILD then select_child_node cur (searchSettings w)
    else childIdx in
  let cur := apply_virtual_loss_to_child cur childIdx (searchSettings w) in
  store currentNode cur;;
  modify_scratch (with_trajectoryBuffer (fun t => t ++ [(currentNode, childIdx)]));;
  link ← lift (get_child_link cur childIdx);
  match link with
  | None => expand_child currentNode cur childIdx
  | Some nextNode => visit_child cur childIdx nextNode
  end.

(** [fuel] bounds the turns of [while (true)]; the loop itself has no
    bound.  [depth] is [description.depth], incremented once per turn. *)
Fixpoint selection_loop (fuel : nat) (currentNode : NodeId) (childIdx : ChildIdx)
    (depth : nat) : M (NodeId * NodeDescription) :=
  match fuel with
  | O => undefined
  | S fuel' =>
      r ← select_pass currentNode childIdx;
      match r with
      | Leaf nextNode ty => mret (nextNode, {| depth := S depth; type := ty |})
      | Descend nextNode => selection_loop fuel' nextNode NO_CHILD (S depth)
      end
  end.

(** [counter && rootNode->is_playout_node() && rand() % counter == 0],
    with the short-circuit evaluation of [&&]. *)
Definition epsilon_hit (counter : Z) (root : Node) : M bool :=
  if counter =? 0 then mret false
  else if negb (is_playout_node root) then mret false
  else r ← rand; mret (r mod counter =? 0).

(** Lines 170-185: where the walk starts and with which [childIdx]. *)
Definition select_start (rootId : NodeId) (root : Node) (settings : SearchSettings)
  : M (NodeId * nat * ChildIdx) :=
  greedy ← epsilon_hit (epsilonGreedyCounter settings) root;
  if (greedy : bool) then
    '(currentNode, d, _) ← get_starting_node rootId 0 NO_CHILD;
    childIdx ← random_playout currentNode;
    mret (currentNode, d, childIdx)
  else
    checks ← epsilon_hit (epsilonChecksCounter settings) root;
    if (checks : bool) then
      '(currentNode, d, _) ← get_starting_node rootId 0 NO_CHILD;
      childIdx ← select_enhanced_move currentNode;
      childIdx ← (if childIdx =? NO_CHILD then random_playout currentNode
                   else mret childIdx);
      mret (currentNode, d, childIdx)
    else mret (rootId, 0%nat, NO_CHILD).

Definition get_new_child_to_evaluate (fuel : nat) : M (NodeId * NodeDescription) :=
  w ← get_thread;
  rootId ← lift (rootNode w);
  root ← deref rootId;
  '(currentNode, d, childIdx) ← select_start rootId root (searchSettings w);
  selection_loop fuel currentNode childIdx d.

(** *** create_mini_batch (searchthread.cpp:347-380) *)

(** The condition of the [while]. *)
Definition batch_open (numTerminalNodes : nat) (w : SearchThread) : bool :=
  negb (FixedVector.is_full (newNodes (staging w)))
  && negb (Nat.eqb (length (collisionTrajectories (staging w)))
                   (batchSize (searchSettings w)))
  && negb (FixedVector.is_full (transpositionValues (staging w)))
  && Nat.ltb numTerminalNodes (terminalNodeCache w).

Definition add_depth (d : nat) (st : Stats) : Stats :=
  {| tbHits := tbHits st;
     depthSum := Word.wrap_size (depthSum st + Z.of_nat d);
     depthMax := Z.max (depthMax st) (Z.of_nat d);
     visitsPreSearch := visitsPreSearch st |}.

(** The body of the [while]; the result is the new [numTerminalNodes]. *)
Definition mini_batch_step (sel_fuel : nat) (numTerminalNodes : nat) : M nat :=
  modify_scratch (fun s => with_actionsBuffer (fun _ => [])
                             (with_trajectoryBuffer (fun _ => []) s));;
  '(newNode, description) ← get_new_child_to_evaluate sel_fuel;
  modify_thread (with_stats (add_depth (depth description)));;
  w ← get_thread;
  let trajectory := trajectoryBuffer (scratch w) in
  match type description with
  | NODE_TERMINAL =>
      n ← deref newNode;
      modify_tree (backup_value true (value n) (searchSettings w) trajectory
                                (mctsSolver (searchSettings w)));;
      mret (S numTerminalNodes)
  | NODE_COLLISION =>
      modify_staging (with_collisionTrajectories (fun l => l ++ [trajectory]));;
      mret numTerminalNodes
  | NODE_TRANSPOSITION =>
      modify_staging (with_transpositionTrajectories (fun l => l ++ [trajectory]));;
      mret numTerminalNodes
  | NODE_NEW_NODE =>
      nn ← lift (FixedVector.add_element newNode (newNodes (staging w)));
      modify_staging (with_newNodes (fun _ => nn));;
      modify_staging (with_newTrajectories (fun l => l ++ [trajectory]));;
      mret numTerminalNodes
  end.

(** [fuel] bounds the turns of the [while]; the result is the final
    [numTerminalNodes]. *)
Fixpoint create_mini_batch_loop (fuel sel_fuel numTerminalNodes : nat) : M nat :=
  w ← get_thread;
  if batch_open numTerminalNodes w then
    match fuel with
    | O => undefined
    | S fuel' =>
        n ← mini_batch_step sel_fuel numTerminalNodes;
        create_mini_batch_loop fuel' sel_fuel n
    end
  else mret numTerminalNodes.

Definition create_mini_batch (fuel sel_fuel : nat) : M nat :=
  create_mini_batch_loop fuel sel_fuel 0.

(** The machine at the top of a turn of the assembly loop, once the scratch
    buffers are cleared. *)
Definition cleared (s : Machine) : Machine :=
  on_thread (with_scratch (fun sc => with_actionsBuffer (fun _ => [])
                                       (with_trajectoryBuffer (fun _ => []) sc))) s.

(** [k] turns of the assembly loop, not looking at its condition. *)
Fixpoint run_steps (k sel_fuel numTerminalNodes : nat) : M nat :=
  match k with
  | O => mret numTerminalNodes
  | S k' =>
      n ← mini_batch_step sel_fuel numTerminalNodes;
      run_steps k' sel_fuel n
  end.

(** The staging vectors are within their capacities. *)
Definition fits (s : Machine) : Prop :=
  let b := staging (thread s) in
  (FixedVector.size (newNodes b) <= FixedVector.capacity (newNodes b))%nat
  /\ (length (collisionTrajectories b) <= batchSize (searchSettings (thread s)))%nat
  /\ (FixedVector.size (transpositionValues b)
      <= FixedVector.capacity (transpositionValues b))%nat.

(** How many more leaves the four limits leave room for. *)
Definition remaining (numTerminalNodes : nat) (s : Machine) : nat :=
  let b := staging (thread s) in
  ((FixedVector.capacity (newNodes b) - FixedVector.size (newNodes b))
   + (batchSize (searchSettings (thread s)) - length (collisionTrajectories b))
   + (FixedVector.capacity (transpositionValues b)
      - FixedVector.size (transpositionValues b))
   + (terminalNodeCache (thread s) - numTerminalNodes))%nat.

(** Where the assembly loop files a selected leaf. *)
Definition dispatched (leaf : NodeId) (ty : NodeBackup) (n n1 : nat)
    (s s_sel s1 : Machine) : Prop :=
  let b := staging (thread s) in
  let b1 := staging (thread s1) in
  let trajectory := trajectoryBuffer (scratch (thread s_sel)) in
  match ty with
  | NODE_TERMINAL =>
      n1 = S n
      /\ (exists node, tree s_sel !! leaf = Some node
            /\ tree s1 = backup_value true (value node) (searchSettings (thread s))
                                      trajectory (mctsSolver (searchSettings (thread s)))
                                      (tree s_sel))
      /\ newNodes b1 = newNodes b /\ newTrajectories b1 = newTrajectories b
      /\ collisionTrajectories b1 = collisionTrajectories b
      /\ transpositionTrajectories b1 = transpositionTrajectories b
  | NODE_COLLISION =>
      n1 = n /\ tree s1 = tree s_sel
      /\ collisionTrajectories b1 = collisionTrajectories b ++ [trajectory]
      /\ newNodes b1 = newNodes b /\ newTrajectories b1 = newTrajectories b
      /\ transpositionTrajectories b1 = transpositionTrajectories b
  | NODE_TRANSPOSITION =>
      n1 = n /\ tree s1 = tree s_sel
      /\ transpositionTrajectories b1 = transpositionTrajectories b ++ [trajectory]
      /\ newNodes b1 = newNodes b /\ newTrajectories b1 = newTrajectories b
      /\ collisionTrajectories b1 = collisionTrajectories b
  | NODE_NEW_NODE =>
      n1 = n /\ tree s1 = tree s_sel
      /\ FixedVector.elems (newNodes b1) = FixedVector.elems (newNodes b) ++ [leaf]
      /\ FixedVector.capacity (newNodes b1) = FixedVector.capacity (newNodes b)
      /\ newTrajectories b1 = newTrajectories b ++ [trajectory]
      /\ collisionTrajectories b1 = collisionTrajectories b
      /\ transpositionTrajectories b1 = transpositionTrajectories b
  end.

(** The staging vectors have the capacities the constructor gave them. *)
Definition sized (s : Machine) : Prop :=
  let b := staging (thread s) in
  FixedVector.capacity (newNodes b) = batchSize (searchSettings (thread s))
  /\ FixedVector.capacity (transpositionValues b)
     = (2 * batchSize (searchSettings (thread s)))%nat.

(** One of the four limits of the assembly loop is reached. *)
Definition batch_limit_reached (numTerminalNodes : nat) (s : Machine) : Prop :=
  let b := staging (thread s) in
  let batch := batchSize (searchSettings (thread s)) in
  FixedVector.size (newNodes b) = batch
  \/ length (collisionTrajectories b) = batch
  \/ FixedVector.size (transpositionValues b) = (2 * batch)%nat
  \/ (terminalNodeCache (thread s) <= numTerminalNodes)%nat.

(** *** Network dispatch (searchthread.cpp:290-310, 382-401, 475-495) *)

Definition node_post_process_policy (n : Node) (temperature : Float)
    (settings : SearchSettings) : Node :=
  apply_temperature_to_prior_policy (enhance_moves n settings) temperature.

(** The result is the node and the new [tbHits]. *)
Definition node_assign_value (n : Node) (valueOutputs : list Float) (tbHits : Z)
    (batchIdx : nat) (isRootNodeTB : bool) : option (Node * Z) :=
  if MCTS_TB_SUPPORT && is_tablebase n then
    let tbHits := Word.wrap_size (tbHits + 1) in
    if float_nonzero (value n) && isRootNodeTB then
      v ← valueOutputs !! batchIdx;
      Some (set_value (tb_average v (value n)) n, tbHits)
    else Some (n, tbHits)
  else
    v ← valueOutputs !! batchIdx;
    Some (set_value v n, tbHits).

Definition fill_nn_results (batchIdx : nat) (isPolicyMap : bool)
    (valueOutputs probOutputs : list Float) (n : Node) (tbHits : Z)
    (mirrorPolicy : bool) (settings : SearchSettings) (isRootNodeTB : bool)
  : option (Node * Z) :=
  let n := set_probabilities_for_moves n
             (get_policy_data_batch batchIdx probOutputs isPolicyMap) mirrorPolicy in
  let n := node_post_process_policy n (nodePolicyTemperature settings) settings in
  '(n, tbHits) ← node_assign_value n valueOutputs tbHits batchIdx isRootNodeTB;
  Some (enable_has_nn_results n, tbHits).

Definition with_tbHits (h : Z) (st : Stats) : Stats :=
  {| tbHits := h; depthSum := depthSum st; depthMax := depthMax st;
     visitsPreSearch := visitsPreSearch st |}.

(** The range-for over [*newNodes], from [batchIdx] on. *)
Fixpoint set_nn_results_from (batchIdx : nat) (todo : list NodeId) : M unit :=
  match todo with
  | [] => mret tt
  | p :: rest =>
      w ← get_thread;
      net ← lift (head (nets w));
      rootSt ← lift (rootState w);
      rootId ← lift (rootNode w);
      root ← deref rootId;
      side ← lift (FixedVector.get_element batchIdx (newNodeSideToMove (staging w)));
      n ← deref p;
      '(n', hits) ← lift (fill_nn_results batchIdx (is_policy_map net)
                            (valueOutputs (buffers w)) (probOutputs (buffers w))
                            n (tbHits (stats w)) (mirror_policy rootSt side)
                            (searchSettings w) (is_tablebase root));
      store p n';;
      modify_thread (with_stats (with_tbHits hits));;
      set_nn_results_from (S batchIdx) rest
  end.

Definition set_nn_results_to_child_nodes : M unit :=
  w ← get_thread;
  set_nn_results_from 0 (FixedVector.elems (newNodes (staging w))).

(** [phaseToNetsIndex.at(phase)]; a missing key throws. *)
Fixpoint phase_net_at (phase : GamePhase) (m : list (GamePhase * nat)) : option nat :=
  match m with
  | [] => None
  | (k, i) :: m' => if phase =? k then Some i else phase_net_at phase m'
  end.

Definition select_nn_index : M nat :=
  w ← get_thread;
  if Nat.eqb (length (nets w)) 1 then mret 0%nat
  else
    pr ← lift (PhaseCount.max_element (phaseCountMap (staging w)));
    let majorityPhase := fst pr in
    modify_staging (with_phaseCountMap PhaseCount.clear);;
    lift (phase_net_at majorityPhase (phaseToNetsIndex w)).

(** *** Backup (searchthread.cpp:312-324, 428-449) *)

Fixpoint backup_node_values (idx : nat) (todo : list NodeId)
    (trajectories : list Trajectory) : M unit :=
  match todo with
  | [] => mret tt
  | p :: rest =>
      w ← get_thread;
      n ← deref p;
      tr ← lift (trajectories !! idx);
      let solveForTerminal :=
        MCTS_TB_SUPPORT && (mctsSolver (searchSettings w) && is_tablebase n) in
      modify_tree (backup_value false (value n) (searchSettings w) tr solveForTerminal);;
      backup_node_values (S idx) rest trajectories
  end.

Fixpoint backup_float_values (idx : nat) (todo : list Float)
    (trajectories : list Trajectory) : M unit :=
  match todo with
  | [] => mret tt
  | v :: rest =>
      w ← get_thread;
      tr ← lift (trajectories !! idx);
      modify_tree (backup_value true v (searchSettings w) tr false);;
      backup_float_values (S idx) rest trajectories
  end.

Definition backup_value_outputs : M unit :=
  w ← get_thread;
  backup_node_values 0 (FixedVector.elems (newNodes (staging w)))
                     (newTrajectories (staging w));;
  modify_staging (with_newNodes FixedVector.reset_idx);;
  modify_staging (with_newTrajectories (fun _ => []));;
  modify_staging (with_newNodeSideToMove FixedVector.reset_idx);;
  backup_float_values 0 (FixedVector.elems (transpositionValues (staging w)))
                      (transpositionTrajectories (staging w));;
  modify_staging (with_transpositionValues FixedVector.reset_idx);;
  modify_staging (with_transpositionTrajectories (fun _ => [])).

Definition backup_collisions : M unit :=
  w ← get_thread;
  modify_tree (fun t => fold_left (fun t tr => backup_collision (searchSettings w) tr t)
                                  (collisionTrajectories (staging w)) t);;
  modify_staging (with_collisionTrajectories (fun _ => [])).

(** *** thread_iteration (searchthread.cpp:403-416) *)

Definition with_outputs (o : list Float * list Float * list Float) (b : NetBuffers) :=
  {| inputPlanes := inputPlanes b; valueOutputs := o.1.1;
     probOutputs := o.1.2; auxiliaryOutputs := o.2 |}.

Definition thread_iteration (fuel sel_fuel : nat) : M unit :=
  create_mini_batch fuel sel_fuel;;
  w ← get_thread;
  (if negb (Nat.eqb (FixedVector.size (newNodes (staging w))) 0) then
     i ← select_nn_index;
     net ← lift (nets w !! i);
     modify_thread (with_buffers (with_outputs (predict net (inputPlanes (buffers w)))));;
     set_nn_results_to_child_nodes
   else mret tt);;
  backup_value_outputs;;
  backup_collisions.
(** *** The driver (searchthread.cpp:326-340, 418-426) *)

Definition root_node_count : M Z :=
  w ← get_thread;
  rootId ← lift (rootNode w);
  _ ← deref rootId;
  t ← get_tree;
  mret (get_node_count t rootId).

Definition root_visits : M Z :=
  w ← get_thread;
  rootId ← lift (rootNode w);
  root ← deref rootId;
  mret (visits root).

(** [limit == 0 || counter < limit]: the counter is read only for a limit
    that is set. *)
Definition limit_ok (limit : Z) (counter : M Z) : M bool :=
  if limit =? 0 then mret true
  else c ← counter; mret (c <? limit).

Definition nodes_limits_ok : M bool :=
  w ← get_thread;
  limits ← lift (searchLimits w);
  ok ← limit_ok (nodes limits) root_node_count;
  if (ok : bool) then
    ok ← limit_ok (simulations limits) root_visits;
    if (ok : bool) then limit_ok (nodesLimit limits) root_node_count
    else mret false
  else mret false.

(** Modelled from the spec: [is_unsolved_or_tablebase] accepts UNSOLVED and
    TABLEBASE. *)
Definition is_unsolved_or_tablebase (ty : NodeType) : bool :=
  NodeType_eqb ty UNSOLVED || NodeType_eqb ty TABLEBASE.

Definition is_root_node_unsolved : M bool :=
  w ← get_thread;
  rootId ← lift (rootNode w);
  root ← deref rootId;
  mret (if MCTS_TB_SUPPORT then is_unsolved_or_tablebase (node_type root)
        else NodeType_eqb (node_type root) UNSOLVED).

(** The condition of the driver's [while], with the short-circuit of [&&]. *)
Definition keep_running : M bool :=
  w ← get_thread;
  if isRunning w then
    ok ← nodes_limits_ok;
    if (ok : bool) then is_root_node_unsolved else mret false
  else mret false.

Fixpoint run_iterations (fuel batch_fuel sel_fuel : nat) : M unit :=
  go ← keep_running;
  if (go : bool) then
    match fuel with
    | O => undefined
    | S fuel' =>
        thread_iteration batch_fuel sel_fuel;;
        run_iterations fuel' batch_fuel sel_fuel
    end
  else mret tt.

Definition run_search_thread (fuel batch_fuel sel_fuel : nat) : M unit :=
  modify_thread (with_isRunning true);;
  reset_stats;;
  run_iterations fuel batch_fuel sel_fuel;;
  modify_thread (with_isRunning false).

(** *** Views used to state what the code keeps *)

(** The machine with the histogram cleared. *)
Definition clear_histogram : Machine -> Machine :=
  on_thread (with_staging (with_phaseCountMap PhaseCount.clear)).

(** What [limit == 0 || counter < limit] evaluates to. *)
Definition below_limit (limit counter : Z) : bool :=
  (limit =? 0) || (counter <? limit).

(** Code that leaves a view of the machine alone. *)
Definition preserves {X A} (view : Machine -> X) (m : M A) : Prop :=
  forall s a s', m s = Some (a, s') -> view s' = view s.

(** The machine with another tree, and with another table. *)
Definition set_tree (t : Tree) (s : Machine) : Machine :=
  {| thread := thread s; tree := t; table := table s; rand_calls := rand_calls s |}.

Definition set_table (m : MapWithMutex) (s : Machine) : Machine :=
  {| thread := thread s; tree := tree s; table := m; rand_calls := rand_calls s |}.

(** The side-to-move vector and the histogram, which grow together. *)
Definition side_view (s : Machine) :=
  (newNodeSideToMove (staging (thread s)), phaseCountMap (staging (thread s))).

(** What one selection does to them, by the type of the leaf: a new leaf
    comes with its side to move appended (to a vector with room) and its
    phase counted, any other leaf with neither. *)
Definition counted (ty : NodeBackup) (s s' : Machine) : Prop :=
  match ty with
  | NODE_NEW_NODE =>
      let v := newNodeSideToMove (staging (thread s)) in
      exists side phase,
        newNodeSideToMove (staging (thread s'))
        = FixedVector.make (FixedVector.capacity v) (FixedVector.elems v ++ [side])
        /\ (FixedVector.size v < FixedVector.capacity v)%nat
        /\ phaseCountMap (staging (thread s'))
           = PhaseCount.incr phase (phaseCountMap (staging (thread s)))
  | _ => side_view s' = side_view s
  end.

(** The parallel containers of the staging area have matching lengths. *)
Definition aligned (s : Machine) : Prop :=
  let b := staging (thread s) in
  FixedVector.size (newNodeSideToMove b) = FixedVector.size (newNodes b)
  /\ length (newTrajectories b) = FixedVector.size (newNodes b)
  /\ length (transpositionTrajectories b) = FixedVector.size (transpositionValues b).

(** The histogram has counted at least the leaves that are staged. *)
Definition covered (s : Machine) : Prop :=
  Z.of_nat (FixedVector.size (newNodes (staging (thread s))))
  <= PhaseCount.total (phaseCountMap (staging (thread s))).

(** The recorded path: trajectory and actions. *)
Definition path_view (s : Machine) :=
  (trajectoryBuffer (scratch (thread s)), actionsBuffer (scratch (thread s))).

(** The statistics after a list of selections of the given depths. *)
Definition add_depths (depths : list nat) (st : Stats) : Stats :=
  fold_left (fun st d => add_depth d st) depths st.

(** The part of a turn of the assembly loop that follows the selection
    (lines 361-378): statistics and filing of the leaf. *)
Definition file_leaf (newNode : NodeId) (description : NodeDescription)
    (numTerminalNodes : nat) : M nat :=
  modify_thread (with_stats (add_depth (depth description)));;
  w ← get_thread;
  let trajectory := trajectoryBuffer (scratch w) in
  match type description with
  | NODE_TERMINAL =>
      n ← deref newNode;
      modify_tree (backup_value true (value n) (searchSettings w) trajectory
                                (mctsSolver (searchSettings w)));;
      mret (S numTerminalNodes)
  | NODE_COLLISION =>
      modify_staging (with_collisionTrajectories (fun l => l ++ [trajectory]));;
      mret numTerminalNodes
  | NODE_TRANSPOSITION =>
      modify_staging (with_transpositionTrajectories (fun l => l ++ [trajectory]));;
      mret numTerminalNodes
  | NODE_NEW_NODE =>
      nn ← lift (FixedVector.add_element newNode (newNodes (staging w)));
      modify_staging (with_newNodes (fun _ => nn));;
      modify_staging (with_newTrajectories (fun l => l ++ [trajectory]));;
      mret numTerminalNodes
  end.

(** *** set_search_limits, stop (searchthread.cpp:71-74, 109-112) *)
Definition with_searchLimits (l : option SearchLimits) (w : SearchThread) :=
  {| rootNode := rootNode w; rootState := rootState w;
     staging := staging w; scratch := scratch w; stats := stats w;
     buffers := buffers w; isRunning := isRunning w;
     searchSettings := searchSettings w; searchLimits := l;
     terminalNodeCache := terminalNodeCache w;
     reachedTablebases := reachedTablebases w; nets := nets w;
     numPhases := numPhases w; phaseToNetsIndex := phaseToNetsIndex w |}.

Definition set_search_limits (l : SearchLimits) : M unit :=
  modify_thread (with_searchLimits (Some l)).

Definition stop : M unit := modify_thread (with_isRunning false).

(** The members of the worker that are set up from outside: the root, the
    configuration, the networks and the visit count taken by
    [set_root_node]. *)
Definition setup (s : Machine) :=
  let w := thread s in
  (rootNode w, rootState w, isRunning w, searchSettings w, searchLimits w,
   terminalNodeCache w, reachedTablebases w, nets w, numPhases w,
   phaseToNetsIndex w, visitsPreSearch (stats w)).

(** The machine when the driver's loop is left: statistics as the
    iterations left them, [isRunning] cleared. *)
Definition halted (s : Machine) : Machine := on_thread (with_isRunning false) s.

(** The machine when the driver's loop is entered. *)
Definition started (s : Machine) : Machine :=
  on_thread (fun w => with_stats (fun st =>
    {| tbHits := 0; depthSum := 0; depthMax := 0;
       visitsPreSearch := visitsPreSearch st |}) (with_isRunning true w)) s.

(** The machine with [acts] appended to the recorded actions. *)
Definition push_actions (acts : list Action) : Machine -> Machine :=
  on_thread (with_scratch (with_actionsBuffer (fun b => b ++ acts))).

(** A node that [get_starting_node] descends into (line 151, negated). *)
Definition descendable (settings : SearchSettings) (n : Node) : Prop :=
  is_playout_node n = true
  /\ epsilonGreedyCounter settings <= visits n
  /\ node_type n = UNSOLVED.

(** The number of trajectories filed for the backup. *)
Definition filed (s : Machine) : nat :=
  let b := staging (thread s) in
  (length (newTrajectories b) + length (transpositionTrajectories b)
   + length (collisionTrajectories b))%nat.

(** The statistics and the three lists of filed trajectories. *)
Definition ledger (s : Machine) :=
  let b := staging (thread s) in
  (stats (thread s), newTrajectories b, transpositionTrajectories b,
   collisionTrajectories b).

(** Nothing is staged for the network or the backup. *)
Definition drained (s : Machine) : Prop :=
  let b := staging (thread s) in
  FixedVector.size (newNodes b) = 0%nat
  /\ FixedVector.size (newNodeSideToMove b) = 0%nat
  /\ newTrajectories b = []
  /\ FixedVector.size (transpositionValues b) = 0%nat
  /\ transpositionTrajectories b = []
  /\ collisionTrajectories b = [].

(** The values of [description.depth] that [get_new_child_to_evaluate]
    returns in [k] turns of the assembly loop, in order. *)
Fixpoint batch_depths (k sel_fuel numTerminalNodes : nat) (s : Machine)
  : option (list nat) :=
  match k with
  | O => Some []
  | S k' =>
      '(_, description, _) ← get_new_child_to_evaluate sel_fuel (cleared s);
      '(n, s') ← mini_batch_step sel_fuel numTerminalNodes s;
      ds ← batch_depths k' sel_fuel n s';
      Some (depth description :: ds)
  end.

End Model.

(** * A small instance

    A toy game used to run the model on concrete trees: actions are numbers,
    a state is the list of actions played, action 7 gives check, playing 9
    ends the game and playing 8 transposes into node 1. *)

Module Demo.

#[export] Instance collab : Collaborators := {|
  Action := nat;
  StateObj := list nat;
  SideToMove := bool;
  Float := Z;
  NodeStats := unit;
  MapWithMutex := unit;
  GamePhaseDefinition := unit;
  MCTS_TB_SUPPORT := false;
  rand_stream := fun k => Z.of_nat k;
  do_action := fun st a => st ++ [a];
  gives_check := fun _ a => Nat.eqb a 7;
  side_to_move := fun st => Nat.even (length st);
  mirror_policy := fun _ side => side;
  get_state_planes := fun _ st _ => [Z.of_nat (length st); 1];
  get_phase := fun st _ _ => Z.of_nat (length st);
  phase_slot := fun _ m => length m;
|}.

Definition leaf (v : Z) (terminal nn : bool) : Node :=
  {| visits := 0; value := v; children := []; no_visit_idx := 0;
     node_type := UNSOLVED; has_nn_results := nn; is_terminal := terminal;
     is_transposition := false; was_inspected := false; node_stats := tt |}.

Definition inner (vis : Z) (ch : list (nat * option NodeId)) (nv : nat) : Node :=
  {| visits := vis; value := 0; children := ch; no_visit_idx := nv;
     node_type := UNSOLVED; has_nn_results := true; is_terminal := false;
     is_transposition := false; was_inspected := false; node_stats := tt |}.

Definition with_children (ch : list (nat * option NodeId)) (n : Node) : Node :=
  {| visits := visits n; value := value n; children := ch;
     no_visit_idx := no_visit_idx n; node_type := node_type n;
     has_nn_results := has_nn_results n; is_terminal := is_terminal n;
     is_transposition := is_transposition n;
     was_inspected := was_inspected n; node_stats := node_stats n |}.

Definition add_visit (n : Node) : Node :=
  {| visits := visits n + 1; value := value n; children := children n;
     no_visit_idx := no_visit_idx n; node_type := node_type n;
     has_nn_results := has_nn_results n; is_terminal := is_terminal n;
     is_transposition := is_transposition n;
     was_inspected := was_inspected n; node_stats := node_stats n |}.

Definition link_child (t : Tree) (parent : NodeId) (idx : ChildIdx) (child : NodeId)
  : Tree :=
  match t !! parent with
  | Some p =>
      <[parent := with_children
                    (alter (fun e => (e.1, Some child)) (Z.to_nat idx) (children p)) p]> t
  | None => t
  end.

Definition attach (m : unit) (t : Tree) (parent : NodeId) (st : list nat)
    (idx : ChildIdx) (_ : SearchSettings) : unit * Tree * NodeId * bool :=
  let played := List.last st 0%nat in
  if Nat.eqb played 8 then (m, link_child t parent idx 1%nat, 1%nat, true)
  else (m, link_child (t ++ [leaf 0 (Nat.eqb played 9) (Nat.eqb played 9)])
                      parent idx (length t),
        length t, false).

#[export] Instance ops : NodeOps := {|
  is_fully_expanded := fun n => Nat.eqb (no_visit_idx n) (length (children n));
  select_child_node := fun n _ =>
    if Nat.ltb (no_visit_idx n) (length (children n))
    then Z.of_nat (no_visit_idx n) else 0;
  get_best_action_index := fun _ _ _ => 0;
  apply_virtual_loss_to_child := fun n _ _ => n;
  get_real_visits := fun _ _ => 1;
  get_transposition_q_value := fun _ _ _ _ => 0;
  is_transposition_return := fun _ q => q =? 0;
  get_transposition_backup_value := fun _ _ v => v;
  get_node_count := fun t _ => Z.of_nat (length t);
  set_probabilities_for_moves := fun n _ _ => n;
  enhance_moves := fun n _ => n;
  apply_temperature_to_prior_policy := fun n _ => n;
  get_policy_data_batch := fun _ l _ => l;
  float_nonzero := fun v => negb (v =? 0);
  tb_average := fun a b => (a + b) / 2;
  node_add_new_node_to_tree := attach;
  backup_value := fun _ _ _ tr _ t =>
    fold_left (fun t e => alter add_visit (fst e) t) tr t;
  backup_collision := fun _ _ t => t;
|}.

Definition net : NeuralNetAPI :=
  {| nb_input_values_total := 2; version := 1; is_policy_map := false;
     predict := fun planes => (planes, [], []) |}.

Definition settings (batch : nat) : SearchSettings :=
  {| batchSize := batch; searchPlayerMode := MODE_TWO_PLAYER;
     epsilonGreedyCounter := 0; epsilonChecksCounter := 0;
     mctsSolver := false; nodePolicyTemperature := 1;
     gamePhaseDefinition := tt |}.

Definition base (batch : nat) : SearchThread :=
  {| rootNode := None; rootState := None;
     staging := {| newNodes := FixedVector.create 0;
                   newNodeSideToMove := FixedVector.create 0;
                   transpositionValues := FixedVector.create 0;
                   newTrajectories := []; transpositionTrajectories := [];
                   collisionTrajectories := []; phaseCountMap := [] |};
     scratch := {| trajectoryBuffer := []; actionsBuffer := []; newState := None |};
     stats := {| tbHits := 0; depthSum := 0; depthMax := 0; visitsPreSearch := 0 |};
     buffers := {| inputPlanes := repeat 0 (2 * batch); valueOutputs := [];
                   probOutputs := []; auxiliaryOutputs := [] |};
     isRunning := false; searchSettings := settings batch; searchLimits := None;
     terminalNodeCache := 0; reachedTablebases := false;
     nets := [net]; numPhases := 1; phaseToNetsIndex := [(0, 0%nat)] |}.

(** A worker as constructed, with the root node and root state set. *)
Definition worker (batch : nat) : SearchThread :=
  {| rootNode := Some 0%nat; rootState := Some [];
     staging := staging (new_SearchThread (base batch) (settings batch));
     scratch := scratch (new_SearchThread (base batch) (settings batch));
     stats := stats (new_SearchThread (base batch) (settings batch));
     buffers := buffers (new_SearchThread (base batch) (settings batch));
     isRunning := true; searchSettings := settings batch; searchLimits := None;
     terminalNodeCache := terminalNodeCache (new_SearchThread (base batch) (settings batch));
     reachedTablebases := false;
     nets := [net]; numPhases := 1; phaseToNetsIndex := [(0, 0%nat)] |}.

Definition machine (batch : nat) (t : Tree) (calls : nat) : Machine :=
  {| thread := worker batch; tree := t; table := tt; rand_calls := calls |}.

Definition transposed (v : Z) : Node :=
  {| visits := 0; value := v; children := []; no_visit_idx := 0;
     node_type := UNSOLVED; has_nn_results := true; is_terminal := false;
     is_transposition := true; was_inspected := false; node_stats := tt |}.

Definition solved (v : Z) : Node :=
  {| visits := 0; value := v; children := []; no_visit_idx := 0;
     node_type := SOLVED_WIN; has_nn_results := true; is_terminal := false;
     is_transposition := false; was_inspected := false; node_stats := tt |}.

(** A fully expanded root over a terminal child, a child still waiting for
    the network, a transposition and an ordinary inner node. *)
Definition grown_root : Node :=
  inner 0 [(1%nat, Some 1%nat); (2%nat, Some 2%nat); (3%nat, Some 3%nat);
           (4%nat, Some 4%nat)] 4.

Definition grown_tree : Tree :=
  [grown_root; leaf 5 true true; leaf 0 false false; transposed 7;
   inner 0 [(1%nat, None)] 0].

(** A fully expanded root whose only child is solved, and one whose only
    child is still waiting for the network. *)
Definition solved_child_tree : Tree := [inner 0 [(1%nat, Some 1%nat)] 1; solved 1].
Definition pending_child_tree : Tree := [inner 0 [(1%nat, Some 1%nat)] 1; leaf 0 false false].

(** A root without a checking move. *)
Definition quiet_root : Node := inner 0 [(1%nat, None); (2%nat, None)] 0.

(** A worker whose root was set at 3 visits and has 7 now, with a depth sum
    of 10. *)
Definition measured : Machine :=
  {| thread := with_stats (fun _ => {| tbHits := 0; depthSum := 10; depthMax := 4;
                                       visitsPreSearch := 3 |}) (worker 2);
     tree := [inner 7 [(1%nat, None)] 0]; table := tt; rand_calls := 0 |}.

(** A root with four unexpanded moves (1, the checking 7, the game-ending 9
    and the transposing 8) and an evaluated node 1. *)
Definition fresh_tree : Tree :=
  [inner 0 [(1%nat, None); (7%nat, None); (9%nat, None); (8%nat, None)] 0;
   leaf 3 false true].

Definition fresh_root : Node :=
  inner 0 [(1%nat, None); (7%nat, None); (9%nat, None); (8%nat, None)] 0.

(** Limits of a search: [sims] simulations, no limit on the nodes. *)
Definition limits (sims : Z) : SearchLimits :=
  {| nodes := 0; simulations := sims; nodesLimit := 0 |}.

Definition limited (sims : Z) (s : Machine) : Machine :=
  on_thread (with_searchLimits (Some (limits sims))) s.

(** A worker with one network for phase 1 and one for phase 2. *)
Definition two_networks (w : SearchThread) : SearchThread :=
  {| rootNode := rootNode w; rootState := rootState w;
     staging := staging w; scratch := scratch w; stats := stats w;
     buffers := buffers w; isRunning := isRunning w;
     searchSettings := searchSettings w; searchLimits := searchLimits w;
     terminalNodeCache := terminalNodeCache w;
     reachedTablebases := reachedTablebases w; nets := [net; net];
     numPhases := 2; phaseToNetsIndex := [(1, 0%nat); (2, 1%nat)] |}.

(** Its histogram after two leaves of phase 1, three of phase 2 and three
    of phase 3. *)
Definition polled : Machine :=
  on_thread (fun w => with_staging (with_phaseCountMap (fun _ => [(1, 2); (2, 3); (3, 3)]))
                                   (two_networks w))
            (machine 2 fresh_tree 0).

(** The machine after a batch of two leaves on [fresh_tree], with the
    values 4 and 6 delivered by the network. *)
Definition batched : Machine :=
  match create_mini_batch 10 10 (machine 2 fresh_tree 0) with
  | Some (_, s) => on_thread (with_buffers (with_outputs ([4; 6], [], []))) s
  | None => machine 2 fresh_tree 0
  end.

(** A worker whose root was set at 6 visits and has 7 now, with a depth sum
    one above [2^53]. *)
Definition huge : Machine :=
  {| thread := with_stats (fun _ => {| tbHits := 0; depthSum := 2 ^ 53 + 1; depthMax := 4;
                                       visitsPreSearch := 6 |}) (worker 2);
     tree := [inner 7 [(1%nat, None)] 0]; table := tt; rand_calls := 0 |}.

(** A fully expanded root over an evaluated inner node with one unexpanded
    move: every selection goes two plies deep. *)
Definition deep_tree : Tree :=
  [inner 0 [(1%nat, Some 1%nat)] 1; inner 0 [(5%nat, None)] 0].

End Demo.

(** * Properties *)

Lemma wrap_size_small z : 0 <= z < Word.size_modulus -> Word.wrap_size z = z.
Proof. intros H. unfold Word.wrap_size. now apply Z.mod_small. Qed.

Lemma wrap_idx_small z : 0 <= z < Word.idx_modulus -> Word.wrap_idx z = z.
Proof. intros H. unfold Word.wrap_idx. now apply Z.mod_small. Qed.

(** ** binary64: rounding is monotone and keeps the doubles *)

Lemma pow2_pos e : (0 < 2 ^ e)%Q. Proof. apply Qpower_0_lt. reflexivity. Qed.
Lemma pow2_succ e : (2 ^ (e + 1) == 2 * 2 ^ e)%Q.
Proof. rewrite Qpower_plus by discriminate. rewrite Qpower_1_r. apply Qmult_comm. Qed.
Lemma pow2_Z e : 0 <= e -> (inject_Z (2 ^ e) == 2 ^ e)%Q.
Proof. intros H. now rewrite Zpower_Qpower. Qed.

Lemma binade_spec x : (0 < x)%Q ->
  (2 ^ Double.binade x <= x)%Q /\ (x < 2 ^ (Double.binade x + 1))%Q.
Proof.
  intros Hx. unfold Double.binade.
  destruct x as [n d]. cbn [Qnum Qden].
  assert (Hn : 0 < n) by (unfold Qlt in Hx; cbn in Hx; lia).
  set (a := Z.log2 n). set (b := Z.log2 (Z.pos d)).
  destruct (Z.log2_spec n Hn) as [Ha1 Ha2]. fold a in Ha1, Ha2.
  destruct (Z.log2_spec (Z.pos d) ltac:(lia)) as [Hb1 Hb2]. fold b in Hb1, Hb2.
  assert (Ha0 : 0 <= a) by apply Z.log2_nonneg.
  assert (Hb0 : 0 <= b) by apply Z.log2_nonneg.
  set (A := (2 ^ a)%Q). set (B := (2 ^ b)%Q).
  assert (HA : (0 < A)%Q) by apply pow2_pos.
  assert (HB : (0 < B)%Q) by apply pow2_pos.
  assert (HnA : (A <= inject_Z n)%Q).
  { unfold A. rewrite <- pow2_Z by lia. now rewrite <- Zle_Qle. }
  assert (HnA2 : (inject_Z n < 2 * A)%Q).
  { unfold A. rewrite <- pow2_succ, <- pow2_Z by lia. rewrite <- Zlt_Qlt.
    now rewrite Z.add_1_r. }
  assert (HdB : (B <= inject_Z (Z.pos d))%Q).
  { unfold B. rewrite <- pow2_Z by lia. now rewrite <- Zle_Qle. }
  assert (HdB2 : (inject_Z (Z.pos d) < 2 * B)%Q).
  { unfold B. rewrite <- pow2_succ, <- pow2_Z by lia. rewrite <- Zlt_Qlt.
    now rewrite Z.add_1_r. }
  assert (Hx' : (n # d == inject_Z n / inject_Z (Z.pos d))%Q) by apply Qmake_Qdiv.
  assert (Hd : (0 < inject_Z (Z.pos d))%Q) by Lqa.lra.
  assert (E0 : (2 ^ (a - b) == A / B)%Q) by (apply Qpower_minus; discriminate).
  assert (E1 : (2 ^ (a - b + 1) == 2 * (A / B))%Q) by (rewrite pow2_succ, E0; reflexivity).
  assert (E2 : (2 * 2 ^ (a - b - 1) == A / B)%Q).
  { rewrite <- E0. rewrite <- pow2_succ. now replace (a - b - 1 + 1) with (a - b) by lia. }
  set (X := (inject_Z n / inject_Z (Z.pos d))%Q) in *.
  assert (Hlo : (A / B < 2 * X)%Q).
  { unfold X. apply Qlt_shift_div_r; [exact HB|].
    assert (H : (inject_Z n / inject_Z (Z.pos d) * inject_Z (Z.pos d) == inject_Z n)%Q)
      by (field; Lqa.lra).
    assert (H1 : (inject_Z n / inject_Z (Z.pos d) * inject_Z (Z.pos d)
                  < inject_Z n / inject_Z (Z.pos d) * (2 * B))%Q).
    { apply Qmult_lt_l; [|exact HdB2]. apply Qlt_shift_div_l; Lqa.lra. }
    Lqa.lra. }
  assert (Hhi : (X < 2 * (A / B))%Q).
  { unfold X. apply Qlt_shift_div_r; [exact Hd|].
    assert (H : (A / B * B == A)%Q) by (field; Lqa.lra).
    assert (H1 : (A / B * B <= A / B * inject_Z (Z.pos d))%Q).
    { apply Qmult_le_l; [|exact HdB]. apply Qlt_shift_div_l; Lqa.lra. }
    Lqa.lra. }
  destruct (Qle_bool (2 ^ (a - b)) (n # d)) eqn:T.
  - apply Qle_bool_iff in T. split; [exact T|]. rewrite E1, Hx'. exact Hhi.
  - assert (T' : ~ (2 ^ (a - b) <= n # d)%Q).
    { intros H. apply Qle_bool_iff in H. congruence. }
    apply Qnot_le_lt in T'. split.
    + rewrite Hx'. Lqa.lra.
    + now replace (a - b - 1 + 1) with (a - b) by lia.
Qed.

Lemma binade_unique x e : (0 < x)%Q -> (2 ^ e <= x)%Q -> (x < 2 ^ (e + 1))%Q ->
  Double.binade x = e.
Proof.
  intros Hx Hlo Hhi. destruct (binade_spec x Hx) as [Blo Bhi].
  assert (H1 : e < Double.binade x + 1).
  { apply (Qpower_lt_compat_l_inv 2); [|reflexivity]. Lqa.lra. }
  assert (H2 : Double.binade x < e + 1).
  { apply (Qpower_lt_compat_l_inv 2); [|reflexivity]. Lqa.lra. }
  lia.
Qed.

Lemma binade_comp x y : (x == y)%Q -> (0 < x)%Q -> Double.binade x = Double.binade y.
Proof.
  intros E Hx. apply binade_unique; [exact Hx| |];
    destruct (binade_spec y ltac:(Lqa.lra)); Lqa.lra.
Qed.

Lemma round_even_comp x y : (x == y)%Q -> Double.round_even x = Double.round_even y.
Proof.
  intros E. unfold Double.round_even. rewrite (Qfloor_comp _ _ E).
  assert (C : ((x - inject_Z (Qfloor y) ?= 1 # 2) = (y - inject_Z (Qfloor y) ?= 1 # 2))%Q)
    by (now rewrite E).
  now rewrite C.
Qed.

Lemma round_even_Z m : Double.round_even (inject_Z m) = m.
Proof.
  unfold Double.round_even. rewrite Qfloor_Z.
  assert (C : ((inject_Z m - inject_Z m ?= 1 # 2) = Lt)%Q).
  { apply -> Qlt_alt. Lqa.lra. }
  now rewrite C.
Qed.

Lemma round_even_floor y :
  Qfloor y <= Double.round_even y <= Qfloor y + 1.
Proof.
  unfold Double.round_even. destruct (_ ?= _)%Q; [destruct (Z.even _)| |]; lia.
Qed.

Lemma round_even_mono x y : (x <= y)%Q -> Double.round_even x <= Double.round_even y.
Proof.
  intros H. pose proof (Qfloor_resp_le _ _ H) as Hf.
  destruct (Z.eq_dec (Qfloor x) (Qfloor y)) as [E|E].
  - unfold Double.round_even. rewrite E.
    destruct (x - inject_Z (Qfloor y) ?= 1 # 2)%Q eqn:Cx;
      destruct (y - inject_Z (Qfloor y) ?= 1 # 2)%Q eqn:Cy;
      try (destruct (Z.even (Qfloor y))); try lia; exfalso;
      first [apply <- Qeq_alt in Cx | apply <- Qlt_alt in Cx | apply <- Qgt_alt in Cx];
      first [apply <- Qeq_alt in Cy | apply <- Qlt_alt in Cy | apply <- Qgt_alt in Cy];
      Lqa.lra.
  - pose proof (round_even_floor x). pose proof (round_even_floor y). lia.
Qed.

Lemma ulp_pos x : (0 < Double.ulp x)%Q.
Proof. apply pow2_pos. Qed.

Lemma scaled_range x : (0 < x)%Q ->
  (inject_Z (2 ^ 52) <= x / Double.ulp x)%Q /\ (x / Double.ulp x <= inject_Z (2 ^ 53))%Q.
Proof.
  intros Hx. destruct (binade_spec x Hx) as [Blo Bhi].
  pose proof (ulp_pos x) as Hu.
  assert (E1 : (2 ^ Double.binade x == inject_Z (2 ^ 52) * Double.ulp x)%Q).
  { unfold Double.ulp. rewrite pow2_Z by lia. rewrite <- Qpower_plus by discriminate.
    now replace (52 + (Double.binade x - 52)) with (Double.binade x) by lia. }
  assert (E2 : (2 ^ (Double.binade x + 1) == inject_Z (2 ^ 53) * Double.ulp x)%Q).
  { unfold Double.ulp. rewrite pow2_Z by lia. rewrite <- Qpower_plus by discriminate.
    now replace (53 + (Double.binade x - 52)) with (Double.binade x + 1) by lia. }
  split.
  - apply Qle_shift_div_l; [exact Hu|]. Lqa.lra.
  - apply Qle_shift_div_r; [exact Hu|]. Lqa.lra.
Qed.

Lemma round_pos_range x : (0 < x)%Q ->
  (2 ^ Double.binade x <= Double.round_pos x)%Q
  /\ (Double.round_pos x <= 2 ^ (Double.binade x + 1))%Q.
Proof.
  intros Hx. destruct (scaled_range x Hx) as [Slo Shi].
  pose proof (ulp_pos x) as Hu.
  assert (E1 : (2 ^ Double.binade x == inject_Z (2 ^ 52) * Double.ulp x)%Q).
  { unfold Double.ulp. rewrite pow2_Z by lia. rewrite <- Qpower_plus by discriminate.
    now replace (52 + (Double.binade x - 52)) with (Double.binade x) by lia. }
  assert (E2 : (2 ^ (Double.binade x + 1) == inject_Z (2 ^ 53) * Double.ulp x)%Q).
  { unfold Double.ulp. rewrite pow2_Z by lia. rewrite <- Qpower_plus by discriminate.
    now replace (53 + (Double.binade x - 52)) with (Double.binade x + 1) by lia. }
  apply round_even_mono in Slo, Shi. rewrite round_even_Z in Slo, Shi.
  unfold Double.round_pos. rewrite E1, E2. split.
  - apply Qmult_le_compat_r; [|Lqa.lra]. now rewrite <- Zle_Qle.
  - apply Qmult_le_compat_r; [|Lqa.lra]. now rewrite <- Zle_Qle.
Qed.

Lemma round_pos_mono x y : (0 < x)%Q -> (x <= y)%Q ->
  (Double.round_pos x <= Double.round_pos y)%Q.
Proof.
  intros Hx Hxy. assert (Hy : (0 < y)%Q) by Lqa.lra.
  destruct (binade_spec x Hx) as [Xlo Xhi]. destruct (binade_spec y Hy) as [Ylo Yhi].
  assert (He : Double.binade x < Double.binade y + 1).
  { apply (Qpower_lt_compat_l_inv 2); [|reflexivity]. Lqa.lra. }
  destruct (Z.eq_dec (Double.binade x) (Double.binade y)) as [E|E].
  - unfold Double.round_pos, Double.ulp. rewrite E.
    apply Qmult_le_compat_r; [|apply Qlt_le_weak, pow2_pos].
    rewrite <- Zle_Qle. apply round_even_mono.
    apply Qmult_le_compat_r; [exact Hxy|].
    apply Qlt_le_weak, Qinv_lt_0_compat, pow2_pos.
  - destruct (round_pos_range x Hx) as [_ Rx]. destruct (round_pos_range y Hy) as [Ry _].
    assert (Hp : (2 ^ (Double.binade x + 1) <= 2 ^ Double.binade y)%Q).
    { apply Qpower_le_compat_l; [lia|]. discriminate. }
    Lqa.lra.
Qed.

Lemma round_pos_comp x y : (x == y)%Q -> (0 < x)%Q ->
  (Double.round_pos x == Double.round_pos y)%Q.
Proof.
  intros E Hx. unfold Double.round_pos, Double.ulp.
  rewrite <- (binade_comp x y E Hx).
  assert (E' : (x / 2 ^ (Double.binade x - 52) == y / 2 ^ (Double.binade x - 52))%Q)
    by (apply Qdiv_comp; [exact E|reflexivity]).
  now rewrite (round_even_comp _ _ E').
Qed.

Lemma round_of_pos x : (0 < x)%Q -> Double.round x = Double.round_pos x.
Proof.
  intros Hx. unfold Double.round.
  assert (C : ((x ?= 0) = Gt)%Q) by (now apply -> Qgt_alt).
  now rewrite C.
Qed.

Lemma round_of_zero x : (x == 0)%Q -> Double.round x = 0%Q.
Proof.
  intros Hx. unfold Double.round.
  assert (C : ((x ?= 0) = Eq)%Q) by (now apply -> Qeq_alt).
  now rewrite C.
Qed.

Lemma round_nonneg x : (0 <= x)%Q -> (0 <= Double.round x)%Q.
Proof.
  intros Hx. destruct (Qlt_le_dec 0 x) as [H|H].
  - rewrite round_of_pos by exact H. destruct (round_pos_range x H) as [R _].
    pose proof (pow2_pos (Double.binade x)). Lqa.lra.
  - rewrite round_of_zero by Lqa.lra. Lqa.lra.
Qed.

Lemma round_mono x y : (0 <= x)%Q -> (x <= y)%Q -> (Double.round x <= Double.round y)%Q.
Proof.
  intros Hx Hxy. destruct (Qlt_le_dec 0 x) as [H|H].
  - rewrite (round_of_pos x H), (round_of_pos y) by Lqa.lra. now apply round_pos_mono.
  - rewrite (round_of_zero x) by Lqa.lra. apply round_nonneg. Lqa.lra.
Qed.

Lemma round_comp x y : (0 <= x)%Q -> (x == y)%Q -> (Double.round x == Double.round y)%Q.
Proof.
  intros Hx E. destruct (Qlt_le_dec 0 x) as [H|H].
  - rewrite (round_of_pos x H), (round_of_pos y) by Lqa.lra. now apply round_pos_comp.
  - rewrite (round_of_zero x), (round_of_zero y) by Lqa.lra. reflexivity.
Qed.

(** The doubles: an integer below [2^53] scaled by a power of two. *)
Lemma round_repr m j : 0 <= m < 2 ^ 53 ->
  (Double.round (inject_Z m * 2 ^ j) == inject_Z m * 2 ^ j)%Q.
Proof.
  intros Hm. destruct (Z.eq_dec m 0) as [->|Hm0].
  - rewrite round_of_zero; change (inject_Z 0) with 0%Q; ring.
  - pose proof (pow2_pos j) as Hj.
    assert (HmQ : (1 <= inject_Z m)%Q) by (change 1%Q with (inject_Z 1); rewrite <- Zle_Qle; lia).
    assert (HmQ2 : (inject_Z m < 2 ^ 53)%Q).
    { rewrite <- pow2_Z by lia. rewrite <- Zlt_Qlt. lia. }
    set (x := (inject_Z m * 2 ^ j)%Q).
    assert (Hx : (0 < x)%Q).
    { unfold x. apply Qmult_lt_0_compat; Lqa.lra. }
    rewrite round_of_pos by exact Hx.
    destruct (binade_spec x Hx) as [Blo Bhi]. set (e := Double.binade x) in *.
    assert (He : e < 53 + j).
    { apply (Qpower_lt_compat_l_inv 2); [|reflexivity].
      rewrite Qpower_plus by discriminate.
      assert (x < 2 ^ 53 * 2 ^ j)%Q; [|Lqa.lra].
      unfold x. apply Qmult_lt_compat_r; assumption. }
    unfold Double.round_pos, Double.ulp. fold e.
    pose proof (pow2_pos (e - 52)) as HU.
    assert (Ep : (inject_Z (2 ^ (j - e + 52)) == 2 ^ j / 2 ^ (e - 52))%Q).
    { rewrite pow2_Z by lia. replace (j - e + 52) with (j - (e - 52)) by lia.
      apply Qpower_minus. discriminate. }
    assert (Es : (x / 2 ^ (e - 52) == inject_Z (m * 2 ^ (j - e + 52)))%Q).
    { rewrite inject_Z_mult, Ep. unfold x.
      set (U := (2 ^ (e - 52))%Q) in *. set (P := (2 ^ j)%Q) in *.
      clearbody U P. field. Lqa.lra. }
    rewrite (round_even_comp _ _ Es), round_even_Z.
    rewrite inject_Z_mult, Ep. unfold x.
    set (U := (2 ^ (e - 52))%Q) in *. set (P := (2 ^ j)%Q) in *.
    clearbody U P. field. Lqa.lra.
Qed.

Lemma round_Z a : 0 <= a < 2 ^ 53 -> (Double.round (inject_Z a) == inject_Z a)%Q.
Proof.
  intros Ha.
  assert (E : (inject_Z a == inject_Z a * 2 ^ 0)%Q) by (rewrite Qpower_0_r; ring).
  assert (H0 : (0 <= inject_Z a)%Q) by (change 0%Q with (inject_Z 0); rewrite <- Zle_Qle; lia).
  rewrite (round_comp _ _ H0 E), round_repr by exact Ha. now rewrite <- E.
Qed.

(** [m / 2^k] for an integer [m] below [2^53]. *)
Lemma round_dyadic m k : 0 <= m < 2 ^ 53 -> 0 <= k ->
  (Double.round (inject_Z m / inject_Z (2 ^ k)) == inject_Z m / inject_Z (2 ^ k))%Q.
Proof.
  intros Hm Hk.
  assert (E : (inject_Z m / inject_Z (2 ^ k) == inject_Z m * 2 ^ (- k))%Q).
  { rewrite Qpower_opp, pow2_Z by lia. reflexivity. }
  assert (H0 : (0 <= inject_Z m / inject_Z (2 ^ k))%Q).
  { apply Qle_shift_div_l.
    - rewrite pow2_Z by lia. apply pow2_pos.
    - rewrite Qmult_0_l. change 0%Q with (inject_Z 0). rewrite <- Zle_Qle. lia. }
  rewrite (round_comp _ _ H0 E), round_repr by exact Hm. now rewrite <- E.
Qed.

Lemma Z_Q_le a b : a <= b -> (inject_Z a <= inject_Z b)%Q.
Proof. now rewrite <- Zle_Qle. Qed.
Lemma Z_Q_lt a b : a < b -> (inject_Z a < inject_Z b)%Q.
Proof. now rewrite <- Zlt_Qlt. Qed.

(** The quotient of two integers, as far as its half-up rounding goes. *)
Lemma half_up_bounds a d N : 0 < d ->
  N = Qfloor (inject_Z a / inject_Z d + (1 # 2)) ->
  (2 * N - 1) * d <= 2 * a < (2 * N + 1) * d.
Proof.
  intros Hd HN.
  set (x := (inject_Z a / inject_Z d)%Q) in *.
  pose proof (Qfloor_le (x + (1 # 2))%Q) as Hlo.
  pose proof (Qlt_floor (x + (1 # 2))%Q) as Hhi.
  rewrite <- HN in Hlo, Hhi. clear HN.
  rewrite inject_Z_plus in Hhi. change (inject_Z 1) with 1%Q in Hhi.
  assert (HdQ : (0 < inject_Z d)%Q) by (change 0%Q with (inject_Z 0); now rewrite <- Zlt_Qlt).
  assert (Hx : (x * inject_Z d == inject_Z a)%Q) by (subst x; field; Lqa.lra).
  split.
  - assert (H : ((inject_Z N - (1 # 2)) * inject_Z d <= x * inject_Z d)%Q)
      by (apply Qmult_le_compat_r; Lqa.lra).
    rewrite Hx in H.
    assert (H2 : (inject_Z ((2 * N - 1) * d) <= inject_Z (2 * a))%Q).
    { unfold Z.sub. rewrite !inject_Z_mult, inject_Z_plus, inject_Z_mult, inject_Z_opp.
      change (inject_Z 2) with 2%Q. change (inject_Z 1) with 1%Q. Lqa.lra. }
    now rewrite <- Zle_Qle in H2.
  - assert (H : (x * inject_Z d < (inject_Z N + (1 # 2)) * inject_Z d)%Q)
      by (apply Qmult_lt_compat_r; Lqa.lra).
    rewrite Hx in H.
    assert (H2 : (inject_Z (2 * a) < inject_Z ((2 * N + 1) * d))%Q).
    { rewrite !inject_Z_mult, inject_Z_plus, inject_Z_mult.
      change (inject_Z 2) with 2%Q. change (inject_Z 1) with 1%Q. Lqa.lra. }
    now rewrite <- Zlt_Qlt in H2.
Qed.

Lemma Qdiv_le_cross a b c d : 0 < b -> 0 < d -> a * d <= c * b ->
  (inject_Z a / inject_Z b <= inject_Z c / inject_Z d)%Q.
Proof.
  intros Hb Hd H.
  assert (HbQ : (0 < inject_Z b)%Q) by (now apply (Z_Q_lt 0)).
  assert (HdQ : (0 < inject_Z d)%Q) by (now apply (Z_Q_lt 0)).
  apply Z_Q_le in H. rewrite !inject_Z_mult in H.
  apply Qle_shift_div_l; [exact HdQ|].
  setoid_replace (inject_Z a / inject_Z b * inject_Z d)%Q
    with (inject_Z a * inject_Z d / inject_Z b)%Q using relation Qeq by (field; Lqa.lra).
  apply Qle_shift_div_r; [exact HbQ|exact H].
Qed.

Lemma Qdiv_lt_Z a b n : 0 < b -> a < n * b -> (inject_Z a / inject_Z b < inject_Z n)%Q.
Proof.
  intros Hb H.
  assert (HbQ : (0 < inject_Z b)%Q) by (now apply (Z_Q_lt 0)).
  apply Z_Q_lt in H. rewrite inject_Z_mult in H.
  apply Qlt_shift_div_r; [exact HbQ|exact H].
Qed.

Lemma Qfloor_between x n : (inject_Z n <= x)%Q -> (x < inject_Z (n + 1))%Q -> Qfloor x = n.
Proof.
  intros Hlo Hhi.
  pose proof (Qfloor_le x) as F1. pose proof (Qlt_floor x) as F2.
  assert (H1 : (inject_Z n < inject_Z (Qfloor x + 1))%Q) by Lqa.lra.
  assert (H2 : (inject_Z (Qfloor x) < inject_Z (n + 1))%Q) by Lqa.lra.
  rewrite <- Zlt_Qlt in H1, H2. lia.
Qed.

(** While [4 a + 6 d] stays within [2^53] the three roundings of
    [double(a) / double(d) + 0.5] do not move its integer part. *)
Lemma avg_exact a d :
  0 <= a -> 0 < d -> 4 * a + 6 * d <= 2 ^ 53 ->
  exists q,
    Double.div (Double.of_size_t a) (Double.of_size_t d) = Some q
    /\ Double.to_size_t (Double.add q (1 # 2))
       = Some (Qfloor (inject_Z a / inject_Z d + (1 # 2))).
Proof.
  intros Ha Hd Hsum.
  change (2 ^ 53) with 9007199254740992 in Hsum.
  assert (HdQ : (0 < inject_Z d)%Q) by (now apply (Z_Q_lt 0)).
  assert (HaQ : (0 <= inject_Z a)%Q) by (now apply (Z_Q_le 0)).
  assert (EA : (Double.of_size_t a == inject_Z a)%Q).
  { apply round_Z. change (2 ^ 53) with 9007199254740992. lia. }
  assert (ED : (Double.of_size_t d == inject_Z d)%Q).
  { apply round_Z. change (2 ^ 53) with 9007199254740992. lia. }
  set (A := Double.of_size_t a) in *. set (D := Double.of_size_t d) in *.
  unfold Double.div. destruct (Qeq_bool D 0) eqn:T.
  { apply Qeq_bool_iff in T. Lqa.lra. }
  eexists. split; [reflexivity|]. clear T.
  set (x := (inject_Z a / inject_Z d)%Q).
  assert (Hx0 : (0 <= x)%Q).
  { unfold x. apply Qle_shift_div_l; [exact HdQ|]. Lqa.lra. }
  assert (Ex : (A / D == x)%Q) by (unfold x; apply Qdiv_comp; assumption).
  assert (Ez : (Double.round (A / D) == Double.round x)%Q).
  { apply round_comp; [rewrite Ex; exact Hx0|exact Ex]. }
  set (N := Qfloor (x + (1 # 2))).
  destruct (half_up_bounds a d N Hd eq_refl) as [B1 B2].
  assert (HN : 0 <= N) by nia.
  destruct (Z.log2_up_spec (2 * d) ltac:(lia)) as [K1lo K1hi].
  set (k := Z.log2_up (2 * d)) in *.
  assert (Hk : 1 <= k).
  { destruct (Z.le_gt_cases 1 k) as [H|H]; [exact H|exfalso].
    assert (2 ^ k <= 2 ^ 0) by (apply Z.pow_le_mono_r; lia).
    change (2 ^ 0) with 1 in *. lia. }
  assert (E2k : 2 ^ k = 2 * 2 ^ (k - 1)).
  { replace k with (Z.succ (k - 1)) at 1 by lia. apply Z.pow_succ_r. lia. }
  replace (Z.pred k) with (k - 1) in K1lo by lia.
  set (K1 := 2 ^ (k - 1)) in *.
  assert (HK1 : d <= K1 < 2 * d) by lia.
  assert (HNd : 2 * N * d <= 2 * a + d) by lia.
  (* the double just below the next half *)
  set (M := (2 * N + 1) * K1 - 1).
  assert (HM : 0 <= M < 2 ^ 53).
  { change (2 ^ 53) with 9007199254740992. unfold M. nia. }
  set (y := (inject_Z M / inject_Z (2 ^ k))%Q).
  assert (Ey : (Double.round y == y)%Q) by (apply round_dyadic; [exact HM|lia]).
  assert (Hxy : (x <= y)%Q).
  { unfold x, y. apply Qdiv_le_cross; [exact Hd|lia|]. rewrite E2k. unfold M. nia. }
  assert (Hz_hi : (Double.round x <= y)%Q).
  { rewrite <- Ey. apply round_mono; assumption. }
  assert (Hz_lo : (inject_Z N <= Double.round x + (1 # 2))%Q).
  { destruct (Z.eq_dec N 0) as [E0|E0].
    - rewrite E0. pose proof (round_nonneg x Hx0). change (inject_Z 0) with 0%Q. Lqa.lra.
    - set (L := (inject_Z (2 * N - 1) / inject_Z (2 ^ 1))%Q).
      assert (EL : (Double.round L == L)%Q).
      { apply round_dyadic; [|lia]. change (2 ^ 53) with 9007199254740992. nia. }
      assert (HL0 : (0 <= L)%Q).
      { unfold L. apply Qle_shift_div_l; [reflexivity|]. rewrite Qmult_0_l.
        apply (Z_Q_le 0). lia. }
      assert (HLx : (L <= x)%Q).
      { unfold L, x. apply Qdiv_le_cross; [reflexivity|exact Hd|].
        change (2 ^ 1) with 2. lia. }
      assert (HL : (L == inject_Z N - (1 # 2))%Q).
      { unfold L. change (2 ^ 1) with 2. unfold Z.sub.
        rewrite inject_Z_plus, inject_Z_mult, inject_Z_opp.
        change (inject_Z 2) with 2%Q. change (inject_Z 1) with 1%Q. field. }
      pose proof (round_mono L x HL0 HLx) as Hm. rewrite EL, HL in Hm. Lqa.lra. }
  set (z' := Double.round (A / D)) in *.
  assert (Hz'0 : (0 <= z' + (1 # 2))%Q).
  { rewrite Ez. pose proof (round_nonneg x Hx0). Lqa.lra. }
  assert (Ew : (Double.add z' (1 # 2) == Double.round (Double.round x + (1 # 2)))%Q).
  { unfold Double.add. apply round_comp; [exact Hz'0|]. now rewrite Ez. }
  set (w := Double.add z' (1 # 2)) in *.
  assert (HNQ : (0 <= inject_Z N)%Q) by (now apply (Z_Q_le 0)).
  assert (Hw_lo : (inject_Z N <= w)%Q).
  { rewrite Ew. rewrite <- (round_Z N) at 1.
    - apply round_mono; assumption.
    - change (2 ^ 53) with 9007199254740992. nia. }
  set (M2 := (N + 1) * 2 ^ k - 1).
  assert (HM2 : 0 <= M2 < 2 ^ 53).
  { change (2 ^ 53) with 9007199254740992. unfold M2. rewrite E2k. fold K1. nia. }
  assert (Ey2 : (y + (1 # 2) == inject_Z M2 / inject_Z (2 ^ k))%Q).
  { unfold y, M2, M. rewrite E2k. fold K1.
    assert (HKQ : (0 < inject_Z K1)%Q) by (apply (Z_Q_lt 0); lia).
    unfold Z.sub. rewrite !inject_Z_plus, !inject_Z_mult, !inject_Z_plus, inject_Z_mult, inject_Z_opp.
    change (inject_Z 2) with 2%Q. change (inject_Z 1) with 1%Q.
    field. Lqa.lra. }
  assert (Hw_hi : (w < inject_Z (N + 1))%Q).
  { assert (H1 : (w <= Double.round (y + (1 # 2)))%Q).
    { rewrite Ew. apply round_mono; [|Lqa.lra].
      pose proof (round_nonneg x Hx0). Lqa.lra. }
    assert (H2 : (Double.round (y + (1 # 2)) == inject_Z M2 / inject_Z (2 ^ k))%Q).
    { assert (Hy0 : (0 <= y + (1 # 2))%Q) by Lqa.lra.
      rewrite (round_comp _ _ Hy0 Ey2). apply round_dyadic; [exact HM2|lia]. }
    assert (H3 : (inject_Z M2 / inject_Z (2 ^ k) < inject_Z (N + 1))%Q).
    { apply Qdiv_lt_Z; [lia|]. unfold M2. lia. }
    Lqa.lra. }
  unfold Double.to_size_t.
  destruct (Qle_bool (inject_Z Word.size_modulus) w) eqn:T1.
  { apply Qle_bool_iff in T1.
    assert (inject_Z (N + 1) <= inject_Z Word.size_modulus)%Q; [|Lqa.lra].
    apply Z_Q_le. change Word.size_modulus with 18446744073709551616. nia. }
  destruct (Qle_bool w (-1)) eqn:T2.
  { apply Qle_bool_iff in T2. Lqa.lra. }
  rewrite (Qfloor_between w N Hw_lo Hw_hi). f_equal. lia.
Qed.

(** A sum of at most [2^63] over a divisor that is not zero stays below
    [2^64] through the three roundings. *)
Lemma avg_defined a d :
  0 <= a <= 2 ^ 63 -> 0 < d ->
  exists q r,
    Double.div (Double.of_size_t a) (Double.of_size_t d) = Some q
    /\ Double.to_size_t (Double.add q (1 # 2)) = Some r.
Proof.
  intros Ha Hd.
  assert (HaQ : (0 <= inject_Z a)%Q) by (apply (Z_Q_le 0); lia).
  assert (E63 : (Double.round (inject_Z (2 ^ 63)) == inject_Z (2 ^ 63))%Q).
  { assert (E : (inject_Z (2 ^ 63) == inject_Z 1 * 2 ^ 63)%Q).
    { rewrite pow2_Z by lia. change (inject_Z 1) with 1%Q. ring. }
    assert (H63 : (0 <= inject_Z (2 ^ 63))%Q)
      by (apply (Z_Q_le 0), Z.pow_nonneg; lia).
    rewrite (round_comp _ _ H63 E), round_repr by (split; [lia|reflexivity]).
    now rewrite <- E. }
  assert (HA : (0 <= Double.of_size_t a <= inject_Z (2 ^ 63))%Q).
  { split; [now apply round_nonneg|]. rewrite <- E63.
    apply round_mono; [exact HaQ|]. apply Z_Q_le. lia. }
  assert (HD : (1 <= Double.of_size_t d)%Q).
  { change 1%Q with (inject_Z 1). rewrite <- (round_Z 1) by (split; [lia|reflexivity]).
    apply round_mono; [discriminate|]. apply Z_Q_le. lia. }
  set (A := Double.of_size_t a) in *. set (D := Double.of_size_t d) in *.
  unfold Double.div. destruct (Qeq_bool D 0) eqn:T.
  { apply Qeq_bool_iff in T. Lqa.lra. }
  clear T.
  assert (Hq0 : (0 <= A / D)%Q).
  { apply Qle_shift_div_l; Lqa.lra. }
  assert (Hq1 : (A / D <= inject_Z (2 ^ 63))%Q).
  { apply Qle_shift_div_r; [Lqa.lra|].
    assert (inject_Z (2 ^ 63) * 1 <= inject_Z (2 ^ 63) * D)%Q; [|Lqa.lra].
    apply Qmult_le_l; [reflexivity|exact HD]. }
  set (z := Double.round (A / D)).
  assert (Hz : (0 <= z <= inject_Z (2 ^ 63))%Q).
  { split; [now apply round_nonneg|]. rewrite <- E63. now apply round_mono. }
  set (T := (inject_Z (2 ^ 52 + 1) * 2 ^ 11)%Q).
  assert (ET : (T == inject_Z (2 ^ 63 + 2048))%Q).
  { unfold T. rewrite <- pow2_Z, <- inject_Z_mult by lia. reflexivity. }
  assert (Hw : (0 <= Double.add z (1 # 2) <= T)%Q).
  { assert (RT : (Double.round T == T)%Q)
      by (apply round_repr; split; [discriminate|reflexivity]).
    unfold Double.add. split; [apply round_nonneg; Lqa.lra|].
    rewrite <- RT. apply round_mono; [Lqa.lra|]. rewrite ET, inject_Z_plus.
    change (inject_Z 2048) with 2048%Q. Lqa.lra. }
  exists z. unfold Double.to_size_t.
  destruct (Qle_bool (inject_Z Word.size_modulus) (Double.add z (1 # 2))) eqn:T1.
  { apply Qle_bool_iff in T1. exfalso.
    assert (inject_Z (2 ^ 63 + 2048) < inject_Z Word.size_modulus)%Q
      by (apply Z_Q_lt; reflexivity).
    Lqa.lra. }
  destruct (Qle_bool (Double.add z (1 # 2)) (-1)) eqn:T2.
  { apply Qle_bool_iff in T2. Lqa.lra. }
  eexists. split; reflexivity.
Qed.

(** The model on doubles that are known: 0.1 is [0x3FB999999999999A]; the
    integers above [2^53] go to the even neighbour; and the largest double
    below 0.5 plus 0.5 is 1. *)
Example round_one_tenth :
  Qred (Double.round (1 # 10)) = (3602879701896397 # 36028797018963968)%Q.
Proof. vm_compute. reflexivity. Qed.

Example round_ties_to_even :
  (Double.of_size_t (2 ^ 53 + 1) == inject_Z (2 ^ 53))%Q
  /\ (Double.of_size_t (2 ^ 53 + 3) == inject_Z (2 ^ 53 + 4))%Q.
Proof. split; vm_compute; reflexivity. Qed.

Example add_half_rounds_up :
  (Double.add (9007199254740991 # 18014398509481984) (1 # 2) == 1)%Q.
Proof. vm_compute. reflexivity. Qed.

(** The divisor of a root that has gained a visit is not zero as a double
    either. *)
Lemma div_defined x d : 0 < d -> is_Some (Double.div x (Double.of_size_t d)).
Proof.
  intros Hd.
  assert (HD : (1 <= Double.of_size_t d)%Q).
  { change 1%Q with (inject_Z 1). rewrite <- (round_Z 1) by (split; [lia|reflexivity]).
    apply round_mono; [discriminate|]. apply Z_Q_le. lia. }
  unfold Double.div. destruct (Qeq_bool (Double.of_size_t d) 0) eqn:T.
  - apply Qeq_bool_iff in T. Lqa.lra.
  - eexists. reflexivity.
Qed.

Section Reasoning.
Context `{C : Collaborators} `{NO : !NodeOps}.

(** ** Running monadic code *)

Lemma run_bind {A B} (m : M A) (f : A -> M B) s a s' :
  m s = Some (a, s') -> (m ≫= f) s = f a s'.
Proof. intros H. unfold mbind, M_bind. now rewrite H. Qed.

Lemma run_bind_None {A B} (m : M A) (f : A -> M B) s :
  m s = None -> (m ≫= f) s = None.
Proof. intros H. unfold mbind, M_bind. now rewrite H. Qed.

Lemma inv_bind {A B} (m : M A) (f : A -> M B) s b s2 :
  (m ≫= f) s = Some (b, s2) ->
  exists a s1, m s = Some (a, s1) /\ f a s1 = Some (b, s2).
Proof.
  unfold mbind, M_bind. destruct (m s) as [[a s1]|] eqn:E; [|discriminate].
  intros H. now exists a, s1.
Qed.

Lemma run_lift {A} (o : option A) (a : A) s : o = Some a -> lift o s = Some (a, s).
Proof. intros ->. reflexivity. Qed.

Lemma inv_lift {A} (o : option A) (a : A) s s' :
  lift o s = Some (a, s') -> o = Some a /\ s' = s.
Proof. unfold lift. destruct o; cbn; intros H; inversion H; auto. Qed.

Lemma run_deref p n s : tree s !! p = Some n -> deref p s = Some (n, s).
Proof. intros H. unfold deref. now rewrite H. Qed.

Lemma inv_deref p n s s' :
  deref p s = Some (n, s') -> tree s !! p = Some n /\ s' = s.
Proof. unfold deref. destruct (tree s !! p); cbn; intros H; inversion H; auto. Qed.

Lemma select_pass_unfold s currentNode childIdx cur0 link :
  tree s !! currentNode = Some cur0 ->
  get_child_link (edge_node s cur0 childIdx) (chosen_idx s cur0 childIdx) = Some link ->
  select_pass currentNode childIdx s =
    let idx := chosen_idx s cur0 childIdx in
    let cur := edge_node s cur0 childIdx in
    match link with
    | None => expand_child currentNode cur idx (after_edge s currentNode cur idx)
    | Some nextNode => visit_child cur idx nextNode (after_edge s currentNode cur idx)
    end.
Proof.
  intros Hcur Hlink. unfold select_pass.
  unfold mbind at 1, M_bind at 1. cbn [get_thread].
  rewrite (run_bind _ _ _ _ _ (run_deref _ _ _ Hcur)).
  unfold mbind, M_bind, store, modify_scratch, modify_thread, modify_tree, lift.
  unfold edge_node, chosen_idx in *. cbn. rewrite Hlink. cbn.
  destruct link; reflexivity.
Qed.

Lemma run_stage_transposition_value v s :
  (FixedVector.size (transpositionValues (staging (thread s)))
   < FixedVector.capacity (transpositionValues (staging (thread s))))%nat ->
  stage_transposition_value v s = Some (tt, stage_value v s).
Proof.
  intros Hroom. unfold stage_transposition_value, FixedVector.add_element.
  apply Nat.ltb_lt in Hroom.
  unfold mbind, M_bind, lift, get_thread, modify_staging, modify_thread.
  rewrite Hroom. reflexivity.
Qed.

(** C1: in a turn of the selection loop that fetches a child that exists,
    the outcome is decided in this order.  A terminal child is returned with
    type TERMINAL.  Otherwise a child without network results is returned
    with type COLLISION.  Otherwise, if the child is flagged as a
    transposition and [is_transposition_return] accepts the transposition Q
    value, the backup value is appended to [transpositionValues] (which has
    room) and the child is returned with type TRANSPOSITION.  Otherwise the
    action is recorded and the loop goes on from the child with no index
    chosen. *)
Theorem existing_child_priority (fuel : nat) (s : Machine)
    (currentNode nextNode : NodeId) (childIdx : ChildIdx) (d : nat)
    (cur0 nx : Node) :
  let idx := chosen_idx s cur0 childIdx in
  let cur := edge_node s cur0 childIdx in
  let s1 := after_edge s currentNode cur idx in
  let transposVisits := get_real_visits cur idx in
  let q := get_transposition_q_value cur (searchSettings (thread s)) idx transposVisits in
  let backupValue := get_transposition_backup_value transposVisits q (value nx) in
  tree s !! currentNode = Some cur0 ->
  get_child_link cur idx = Some (Some nextNode) ->
  tree s1 !! nextNode = Some nx ->
  (is_terminal nx = true ->
   selection_loop (S fuel) currentNode childIdx d s
   = Some ((nextNode, {| depth := S d; type := NODE_TERMINAL |}), s1))
  /\ (is_terminal nx = false -> has_nn_results nx = false ->
      selection_loop (S fuel) currentNode childIdx d s
      = Some ((nextNode, {| depth := S d; type := NODE_COLLISION |}), s1))
  /\ (is_terminal nx = false -> has_nn_results nx = true ->
      is_transposition nx = true -> is_transposition_return nx q = true ->
      (FixedVector.size (transpositionValues (staging (thread s)))
       < FixedVector.capacity (transpositionValues (staging (thread s))))%nat ->
      selection_loop (S fuel) currentNode childIdx d s
      = Some ((nextNode, {| depth := S d; type := NODE_TRANSPOSITION |}),
              stage_value backupValue s1))
  /\ (is_terminal nx = false -> has_nn_results nx = true ->
      is_transposition nx && is_transposition_return nx q = false ->
      forall a, get_action cur idx = Some a ->
      selection_loop (S fuel) currentNode childIdx d s
      = selection_loop fuel nextNode NO_CHILD (S d) (push_action a s1)).
Proof.
  intros idx cur s1 vis q backupValue Hcur Hlink Hnx.
  assert (Hpass : select_pass currentNode childIdx s
                  = visit_child cur idx nextNode s1)
    by (now rewrite (select_pass_unfold _ _ _ _ _ Hcur Hlink)).
  assert (Hloop : forall r s',
             visit_child cur idx nextNode s1 = Some (r, s') ->
             selection_loop (S fuel) currentNode childIdx d s
             = match r with
               | Leaf n ty => Some ((n, {| depth := S d; type := ty |}), s')
               | Descend n => selection_loop fuel n NO_CHILD (S d) s'
               end).
  { intros r s' Hr. cbn [selection_loop].
    rewrite (run_bind _ _ _ _ _ (eq_trans Hpass Hr)). now destruct r. }
  assert (Hvisit : visit_child cur idx nextNode s1
    = (if is_terminal nx then mret (Leaf nextNode NODE_TERMINAL)
       else if negb (has_nn_results nx) then mret (Leaf nextNode NODE_COLLISION)
       else if is_transposition nx && is_transposition_return nx q
            then stage_transposition_value backupValue;;
                 mret (Leaf nextNode NODE_TRANSPOSITION)
            else a ← lift (get_action cur idx);
                 modify_scratch (with_actionsBuffer (fun b => b ++ [a]));;
                 mret (Descend nextNode)) s1).
  { unfold visit_child. unfold mbind at 1, M_bind at 1. cbn [get_thread].
    rewrite (run_bind _ _ _ _ _ (run_deref _ _ _ Hnx)).
    destruct (is_terminal nx); [reflexivity|].
    destruct (has_nn_results nx); [|reflexivity]. cbn [negb].
    destruct (is_transposition nx); [|reflexivity]. cbn [andb].
    subst q vis. cbn.
    destruct (is_transposition_return nx _); reflexivity. }
  repeat split.
  - intros Ht. rewrite Ht in Hvisit. now rewrite (Hloop _ _ Hvisit).
  - intros Ht Hnn. rewrite Ht, Hnn in Hvisit. now rewrite (Hloop _ _ Hvisit).
  - intros Ht Hnn Htr Hret Hroom. rewrite Ht, Hnn, Htr, Hret in Hvisit. cbn in Hvisit.
    rewrite (run_bind _ _ _ _ _ (run_stage_transposition_value backupValue s1 Hroom))
      in Hvisit.
    now rewrite (Hloop _ _ Hvisit).
  - intros Ht Hnn Hno a Ha. rewrite Ht, Hnn, Hno in Hvisit. cbn [negb] in Hvisit.
    rewrite (run_bind _ _ _ _ _ (run_lift _ _ s1 Ha)) in Hvisit.
    now rewrite (Hloop _ _ Hvisit).
Qed.

Lemma add_new_node_to_tree_cases s st parentNode childIdx m' t' newNode transposition n :
  node_add_new_node_to_tree (table s) (tree s) parentNode st childIdx
                            (searchSettings (thread s))
  = (m', t', newNode, transposition) ->
  t' !! newNode = Some n ->
  add_new_node_to_tree st parentNode childIdx s =
    (if is_terminal n then mret (newNode, NODE_TERMINAL)
     else if transposition then
       parent ← deref parentNode;
       link ← lift (get_child_link parent childIdx);
       child ← lift link;
       c ← deref child;
       stage_transposition_value (value c);;
       mret (newNode, NODE_TRANSPOSITION)
     else mret (newNode, NODE_NEW_NODE)) (attached m' t' s).
Proof.
  intros Hattach Hn. unfold add_new_node_to_tree.
  unfold mbind at 1 2 3, M_bind at 1 2 3. cbn [get_thread get_table get_tree].
  rewrite Hattach.
  unfold mbind at 1 2, M_bind at 1 2. cbn [put_table modify_tree tree thread table rand_calls].
  change {| thread := thread s; tree := t'; table := m'; rand_calls := rand_calls s |}
    with (attached m' t' s).
  now rewrite (run_bind _ _ _ _ _ (run_deref newNode n (attached m' t' s) Hn)).
Qed.

Lemma expand_child_unfold s currentNode cur childIdx root a :
  rootState (thread s) = Some root ->
  get_action cur childIdx = Some a ->
  let st := do_action (replay root (actionsBuffer (scratch (thread s)))) a in
  expand_child currentNode cur childIdx s =
    ('(nextNode, ty) ← add_new_node_to_tree st currentNode childIdx;
     match ty with
     | NODE_NEW_NODE =>
         w ← get_thread;
         net ← lift (head (nets w));
         let off := (FixedVector.size (newNodes (staging w)) * nb_input_values_total net)%nat in
         planes ← lift (write_planes off (get_state_planes true st (version net))
                                     (inputPlanes (buffers w)));
         modify_thread (with_buffers (with_inputPlanes (fun _ => planes)));;
         let currPhase := get_phase st (numPhases w) (gamePhaseDefinition (searchSettings w)) in
         modify_staging (with_phaseCountMap (PhaseCount.incr currPhase));;
         stm ← lift (FixedVector.add_element (side_to_move st) (newNodeSideToMove (staging w)));
         modify_staging (with_newNodeSideToMove (fun _ => stm));;
         mret (Leaf nextNode ty)
     | _ => mret (Leaf nextNode ty)
     end) (before_attach s currentNode cur st).
Proof.
  intros Hroot Ha st. unfold expand_child.
  unfold mbind at 1, M_bind at 1. cbn [get_thread].
  rewrite (run_bind _ _ _ _ _ (run_lift _ _ s Hroot)).
  rewrite (run_bind _ _ _ _ _ (run_lift _ _ s Ha)).
  reflexivity.
Qed.

(** C3: expanding an empty child slot.  Whatever node the attach primitive
    hands back, a terminal one gives NODE_TERMINAL and stages nothing, also
    when the primitive reported a transposition.  Otherwise a transposition
    appends the value of the node now linked at the parent's slot to
    [transpositionValues] and gives NODE_TRANSPOSITION.  Otherwise the result
    is NODE_NEW_NODE, and the caller writes the state's planes into
    [inputPlanes] at offset [newNodes.size() * nb_input_values_total], counts
    the state's game phase in [phaseCountMap] and appends its side to move to
    [newNodeSideToMove]; [newNodes] and [transpositionValues] stay as they
    were. *)
Theorem expansion_classification (s : Machine) (currentNode : NodeId) (cur : Node)
    (childIdx : ChildIdx) (root : StateObj) (a : Action)
    (m' : MapWithMutex) (t' : Tree) (newNode : NodeId) (transposition : bool)
    (n : Node) :
  let st := do_action (replay root (actionsBuffer (scratch (thread s)))) a in
  let s2 := before_attach s currentNode cur st in
  let w := thread s in
  rootState w = Some root ->
  get_action cur childIdx = Some a ->
  node_add_new_node_to_tree (table s2) (tree s2) currentNode st childIdx
                            (searchSettings w)
  = (m', t', newNode, transposition) ->
  t' !! newNode = Some n ->
  (is_terminal n = true ->
   expand_child currentNode cur childIdx s
   = Some (Leaf newNode NODE_TERMINAL, attached m' t' s2)
   /\ transpositionValues (staging (thread (attached m' t' s2)))
      = transpositionValues (staging w))
  /\ (is_terminal n = false -> transposition = true ->
      forall parent child c,
        t' !! currentNode = Some parent ->
        get_child_link parent childIdx = Some (Some child) ->
        t' !! child = Some c ->
        (FixedVector.size (transpositionValues (staging w))
         < FixedVector.capacity (transpositionValues (staging w)))%nat ->
        expand_child currentNode cur childIdx s
        = Some (Leaf newNode NODE_TRANSPOSITION,
                stage_value (value c) (attached m' t' s2))
        /\ FixedVector.elems
             (transpositionValues
                (staging (thread (stage_value (value c) (attached m' t' s2)))))
           = FixedVector.elems (transpositionValues (staging w)) ++ [value c])
  /\ (is_terminal n = false -> transposition = false ->
      forall net,
        head (nets w) = Some net ->
        let off := (FixedVector.size (newNodes (staging w))
                    * nb_input_values_total net)%nat in
        let planes := get_state_planes true st (version net) in
        (off + length planes <= length (inputPlanes (buffers w)))%nat ->
        (FixedVector.size (newNodeSideToMove (staging w))
         < FixedVector.capacity (newNodeSideToMove (staging w)))%nat ->
        exists s',
          expand_child currentNode cur childIdx s
          = Some (Leaf newNode NODE_NEW_NODE, s')
          /\ inputPlanes (buffers (thread s'))
             = list_inserts off planes (inputPlanes (buffers w))
          /\ phaseCountMap (staging (thread s'))
             = PhaseCount.incr
                 (get_phase st (numPhases w) (gamePhaseDefinition (searchSettings w)))
                 (phaseCountMap (staging w))
          /\ FixedVector.elems (newNodeSideToMove (staging (thread s')))
             = FixedVector.elems (newNodeSideToMove (staging w)) ++ [side_to_move st]
          /\ transpositionValues (staging (thread s'))
             = transpositionValues (staging w)
          /\ newNodes (staging (thread s')) = newNodes (staging w)).
Proof.
  intros st s2 w Hroot Ha Hattach Hn.
  pose proof (expand_child_unfold s currentNode cur childIdx root a Hroot Ha) as Hexp.
  cbv zeta in Hexp. fold st in Hexp. fold s2 in Hexp.
  pose proof (add_new_node_to_tree_cases s2 st currentNode childIdx
                m' t' newNode transposition n Hattach Hn) as Hadd.
  split; [|split].
  - intros Ht. split; [|reflexivity].
    rewrite Hexp. rewrite Ht in Hadd. now rewrite (run_bind _ _ _ _ _ Hadd).
  - intros Ht Htr parent child c Hparent Hlink Hc Hroom. split; [|reflexivity].
    rewrite Hexp. rewrite Ht, Htr in Hadd.
    assert (Hrun : add_new_node_to_tree st currentNode childIdx s2
                   = Some ((newNode, NODE_TRANSPOSITION),
                           stage_value (value c) (attached m' t' s2))).
    { rewrite Hadd.
      rewrite (run_bind _ _ _ _ _ (run_deref currentNode parent (attached m' t' s2) Hparent)).
      rewrite (run_bind _ _ _ _ _ (run_lift _ _ _ Hlink)).
      rewrite (run_bind _ _ _ _ _ (run_lift (Some child) child _ eq_refl)).
      rewrite (run_bind _ _ _ _ _ (run_deref child c (attached m' t' s2) Hc)).
      now rewrite (run_bind _ _ _ _ _
                     (run_stage_transposition_value (value c) (attached m' t' s2) Hroom)). }
    now rewrite (run_bind _ _ _ _ _ Hrun).
  - intros Ht Htr net Hnet off planes Hroom Hside.
    rewrite Hexp. rewrite Ht, Htr in Hadd. rewrite (run_bind _ _ _ _ _ Hadd).
    unfold mbind at 1, M_bind at 1. cbn [get_thread].
    assert (Hnet' : head (nets (thread (attached m' t' s2))) = Some net) by exact Hnet.
    rewrite (run_bind _ _ _ _ _ (run_lift _ _ _ Hnet')).
    assert (Hw : write_planes off planes (inputPlanes (buffers w))
                 = Some (list_inserts off planes (inputPlanes (buffers w)))).
    { unfold write_planes. apply Nat.leb_le in Hroom. now rewrite Hroom. }
    assert (Hs : FixedVector.add_element (side_to_move st) (newNodeSideToMove (staging w))
                 = Some (FixedVector.make (FixedVector.capacity (newNodeSideToMove (staging w)))
                           (FixedVector.elems (newNodeSideToMove (staging w))
                            ++ [side_to_move st]))).
    { unfold FixedVector.add_element. apply Nat.ltb_lt in Hside. now rewrite Hside. }
    unfold mbind, M_bind, lift, modify_staging, modify_thread.
    subst s2 w off planes.
    cbn [thread attached before_attach with_scratch staging buffers nets
         searchSettings numPhases scratch] in *.
    rewrite Hw. cbn [fmap option_fmap option_map].
    rewrite Hs. cbn [fmap option_fmap option_map].
    eexists. split; [reflexivity|]. cbn. repeat split; reflexivity.
Qed.

(** ** Construction *)

(** C7: after construction [terminalNodeCache] is 1 in single-player mode
    and [2 * batchSize] in two-player mode; the fall-through of the [switch]
    from the single-player case changes nothing for either. *)
Theorem terminalNodeCache_after_construction (base : SearchThread)
    (settings : SearchSettings) :
  terminalNodeCache (new_SearchThread base settings)
  = match searchPlayerMode settings with
    | MODE_SINGLE_PLAYER => 1%nat
    | MODE_TWO_PLAYER => (2 * batchSize settings)%nat
    end.
Proof.
  unfold new_SearchThread. cbn [terminalNodeCache].
  destruct (searchPlayerMode settings); [reflexivity | lia].
Qed.

(** ** Average depth *)

Lemma get_avg_depth_run s p root :
  rootNode (thread s) = Some p ->
  tree s !! p = Some root ->
  get_avg_depth s =
    let d := Word.wrap_size (visits root - visitsPreSearch (stats (thread s))) in
    match Double.div (Double.of_size_t (depthSum (stats (thread s))))
                     (Double.of_size_t d) with
    | Some q =>
        match Double.to_size_t (Double.add q (1 # 2)) with
        | Some r => Some (r, s)
        | None => None
        end
    | None => None
    end.
Proof.
  intros Hp Hroot. unfold get_avg_depth.
  unfold mbind at 1, M_bind at 1. cbn [get_thread].
  rewrite (run_bind _ _ _ _ _ (run_lift _ _ s Hp)).
  rewrite (run_bind _ _ _ _ _ (run_deref _ _ _ Hroot)).
  cbv zeta. unfold mbind, M_bind, lift.
  destruct (Double.div _ _) as [q|]; [|reflexivity]. cbn.
  destruct (Double.to_size_t _); reflexivity.
Qed.

(** C9, as the code has it: when the root has more visits than
    [visitsPreSearch], and [4 * depthSum + 6 * d] for the divisor [d] stays
    within the [2^53] that a double holds exactly (so whenever [depthSum]
    and [d] are both below [2^49]), [get_avg_depth] returns
    [depthSum / (visits - visitsPreSearch)] rounded to the nearest integer,
    halves upwards: the result [r] satisfies
    [r - 1/2 <= depthSum / d < r + 1/2]. *)
Theorem get_avg_depth_rounds_half_up (s : Machine) (p : NodeId) (root : Node) :
  let w := thread s in
  let d := visits root - visitsPreSearch (stats w) in
  rootNode w = Some p ->
  tree s !! p = Some root ->
  0 <= visitsPreSearch (stats w) ->
  visitsPreSearch (stats w) < visits root < Word.size_modulus ->
  0 <= depthSum (stats w) ->
  4 * depthSum (stats w) + 6 * d <= 2 ^ 53 ->
  exists r,
    get_avg_depth s = Some (r, s)
    /\ (inject_Z r - (1 # 2) <= inject_Z (depthSum (stats w)) / inject_Z d)%Q
    /\ (inject_Z (depthSum (stats w)) / inject_Z d < inject_Z r + (1 # 2))%Q
    /\ (2 * r - 1) * d <= 2 * depthSum (stats w) < (2 * r + 1) * d.
Proof.
  intros w d Hp Hroot Hpre Hvis Hsum0 Hsum.
  rewrite (get_avg_depth_run s p root Hp Hroot). cbv zeta.
  fold w. fold d. rewrite (wrap_size_small d) by (subst d; lia).
  assert (Hd : 0 < d) by (subst d; lia).
  destruct (avg_exact (depthSum (stats w)) d Hsum0 Hd Hsum) as (q & Hq & Hr).
  rewrite Hq, Hr.
  set (x := (inject_Z (depthSum (stats w)) / inject_Z d)%Q).
  set (r := Qfloor (x + (1 # 2))%Q).
  exists r. split; [reflexivity|].
  pose proof (Qfloor_le (x + (1 # 2))%Q) as Hlo.
  pose proof (Qlt_floor (x + (1 # 2))%Q) as Hhi.
  fold r in Hlo, Hhi.
  assert (Hlo' : (inject_Z r - (1 # 2) <= x)%Q) by Lqa.lra.
  assert (Hhi' : (x < inject_Z r + (1 # 2))%Q).
  { rewrite inject_Z_plus in Hhi. change (inject_Z 1) with 1%Q in Hhi. Lqa.lra. }
  split; [exact Hlo'|]. split; [exact Hhi'|].
  exact (half_up_bounds (depthSum (stats w)) d r Hd eq_refl).
Qed.


(** ** Random playout *)

(** C5, as the code has it: on a fully expanded node [random_playout] draws
    the index [rand() % n] among the [n] children, and it yields the
    sentinel if and only if that child exists, is a playout node and is
    solved (its type is not UNSOLVED); in every other case it yields the
    drawn index. *)
Theorem random_playout_sentinel (s : Machine) (currentNode : NodeId) (cur : Node) :
  let n := Z.of_nat (get_number_child_nodes cur) in
  let idx := rand_stream (rand_calls s) mod n in
  tree s !! currentNode = Some cur ->
  is_fully_expanded cur = true ->
  0 < n < Word.idx_modulus ->
  (forall child, get_child_link cur idx = Some (Some child) ->
                 is_Some (tree s !! child)) ->
  exists res,
    random_playout currentNode s = Some (res, after_rand s)
    /\ 0 <= idx < n
    /\ (res = NO_CHILD <->
        exists child c,
          get_child_link cur idx = Some (Some child)
          /\ tree s !! child = Some c
          /\ is_playout_node c = true /\ node_type c <> UNSOLVED)
    /\ (res <> NO_CHILD -> res = idx).
Proof.
  intros n idx Hcur Hfull Hn Hvalid.
  assert (Hidx : 0 <= idx < n) by (apply Z.mod_pos_bound; lia).
  assert (Hwrap : Word.wrap_idx idx = idx).
  { apply wrap_idx_small. lia. }
  assert (Hne : idx <> NO_CHILD).
  { change NO_CHILD with 65535. change Word.idx_modulus with 65536 in Hn. lia. }
  destruct (children cur !! Z.to_nat idx) as [[a link]|] eqn:Hch.
  2:{ apply lookup_ge_None in Hch. unfold n, get_number_child_nodes in *. lia. }
  assert (Hlink : get_child_link cur idx = Some link).
  { unfold get_child_link. now rewrite Hch. }
  assert (Hrun : random_playout currentNode s =
            match link with
            | None => Some (Word.wrap_idx idx, after_rand s)
            | Some child =>
                (c ← deref child;
                 if negb (is_playout_node c) then mret (Word.wrap_idx idx)
                 else if NodeType_eqb (node_type c) UNSOLVED
                      then mret (Word.wrap_idx idx)
                      else mret NO_CHILD) (after_rand s)
            end).
  { unfold random_playout.
    rewrite (run_bind _ _ _ _ _ (run_deref _ _ _ Hcur)). rewrite Hfull.
    unfold mbind at 1, M_bind at 1. cbn [rand]. fold (after_rand s). fold n.
    destruct (n =? 0) eqn:E; [apply Z.eqb_eq in E; lia|]. fold idx.
    rewrite (run_bind _ _ _ _ _ (run_lift _ _ (after_rand s) Hlink)).
    destruct link; reflexivity. }
  destruct link as [child|].
  - destruct (Hvalid child Hlink) as [c Hc].
    rewrite (run_bind _ _ _ _ _ (run_deref child c (after_rand s) Hc)) in Hrun.
    destruct (is_playout_node c) eqn:Hplay; cbn [negb] in Hrun.
    + destruct (node_type c) eqn:Hty; cbn [NodeType_eqb] in Hrun;
        (eexists; split; [exact Hrun|]; split; [exact Hidx|]; split;
         [split;
          [ first [ intros E; rewrite Hwrap in E; contradiction
                  | intros _; exists child, c; rewrite Hty; repeat split; congruence ]
          | first [ intros (child' & c' & Hl & Hc' & _ & Hns);
                    rewrite Hlink in Hl; injection Hl as <-;
                    rewrite Hc in Hc'; injection Hc' as <-; congruence
                  | reflexivity ] ]
         | first [ intros _; exact Hwrap | intros E; contradiction ] ]).
    + eexists; split; [exact Hrun|]; split; [exact Hidx|]; split.
      * split.
        -- intros E. rewrite Hwrap in E. contradiction.
        -- intros (child' & c' & Hl & Hc' & Hp & _).
           rewrite Hlink in Hl; injection Hl as <-.
           rewrite Hc in Hc'; injection Hc' as <-. congruence.
      * intros _. exact Hwrap.
  - eexists; split; [exact Hrun|]; split; [exact Hidx|]; split.
    + split.
      * intros E. rewrite Hwrap in E. contradiction.
      * intros (child' & c' & Hl & _). rewrite Hlink in Hl. discriminate.
    + intros _. exact Hwrap.
Qed.

(** ** Check probe *)

Lemma first_check_Some pos actions base k :
  first_check pos actions base = Some k <->
  (base <= k)%nat
  /\ (exists a, actions !! (k - base)%nat = Some a /\ gives_check pos a = true)
  /\ (forall j a, (j < k - base)%nat -> actions !! j = Some a ->
                  gives_check pos a = false).
Proof.
  revert base. induction actions as [|a0 rest IH]; intros base; cbn [first_check].
  - split; [discriminate|]. intros (_ & (a & Ha & _) & _). discriminate.
  - destruct (gives_check pos a0) eqn:E.
    + split.
      * intros [= <-]. split; [lia|]. rewrite Nat.sub_diag. split.
        -- exists a0. auto.
        -- intros j a Hj. lia.
      * intros (Hle & (a & Ha & Hg) & Hmin).
        destruct (k - base)%nat as [|m] eqn:Ek; [f_equal; lia|].
        specialize (Hmin 0%nat a0 ltac:(lia) eq_refl). congruence.
    + rewrite IH. split.
      * intros (Hle & (a & Ha & Hg) & Hmin). split; [lia|]. split.
        -- exists a. replace (k - base)%nat with (S (k - S base)) by lia. auto.
        -- intros j a' Hj Hj'. destruct j as [|j]; cbn in Hj'; [congruence|].
           apply (Hmin j a'); [lia|exact Hj'].
      * intros (Hle & (a & Ha & Hg) & Hmin).
        destruct (k - base)%nat as [|m] eqn:Ek.
        { cbn in Ha. congruence. }
        split; [lia|]. replace (k - S base)%nat with m by lia. split.
        -- exists a. auto.
        -- intros j a' Hj Hj'. apply (Hmin (S j) a'); [lia|exact Hj'].
Qed.

Lemma first_check_None pos actions base :
  first_check pos actions base = None <->
  (forall j a, actions !! j = Some a -> gives_check pos a = false).
Proof.
  revert base. induction actions as [|a0 rest IH]; intros base; cbn [first_check].
  - split; [|reflexivity]. intros _ j a Hj. destruct j; discriminate.
  - destruct (gives_check pos a0) eqn:E.
    + split; [discriminate|]. intros H. specialize (H 0%nat a0 eq_refl). congruence.
    + rewrite IH. split.
      * intros H j a Hj. destruct j as [|j]; cbn in Hj; [congruence|]. eauto.
      * intros H j a Hj. apply (H (S j) a Hj).
Qed.

Lemma increment_with_no_visit_idx (cur : Node) (k : nat) :
  (k < get_number_child_nodes cur)%nat ->
  increment_no_visit_idx (with_no_visit_idx k cur) = with_no_visit_idx (S k) cur.
Proof.
  intros Hk. unfold increment_no_visit_idx, get_number_child_nodes in *.
  change (no_visit_idx (with_no_visit_idx k cur)) with k.
  change (children (with_no_visit_idx k cur)) with (children cur).
  apply Nat.ltb_lt in Hk. rewrite Hk. reflexivity.
Qed.

Lemma iter_increment_no_visit_idx (cur : Node) (m : nat) :
  (0 < m)%nat ->
  (no_visit_idx cur + m <= get_number_child_nodes cur)%nat ->
  Nat.iter m increment_no_visit_idx cur = with_no_visit_idx (no_visit_idx cur + m) cur.
Proof.
  intros Hm. induction m as [|m IH]; [lia|]. intros Hle.
  rewrite Nat.iter_succ. destruct m as [|m].
  - change (Nat.iter 0 increment_no_visit_idx cur) with cur.
    unfold increment_no_visit_idx.
    destruct (Nat.ltb_spec (no_visit_idx cur) (get_number_child_nodes cur)); [|lia].
    now rewrite Nat.add_1_r.
  - rewrite IH by lia. rewrite increment_with_no_visit_idx by lia.
    now rewrite (Nat.add_succ_r _ (S m)).
Qed.

Lemma get_action_drop (cur : Node) (from j : nat) :
  (fst <$> drop from (children cur)) !! j = get_action cur (Z.of_nat (from + j)).
Proof.
  unfold get_action. rewrite Nat2Z.id, list_lookup_fmap, lookup_drop. reflexivity.
Qed.

(** C6: on a playout node that is neither terminal nor inspected,
    [select_enhanced_move] returns the first index from [no_visit_idx] on
    whose action gives check in the replayed position, and leaves
    [no_visit_idx] one past that index.  When no such action exists it marks
    the node as inspected and returns the sentinel.  On an inspected node it
    returns the sentinel and leaves the machine alone, whatever the root
    state and the recorded actions are. *)
Theorem check_probe (s : Machine) (p : NodeId) (cur : Node) (root : StateObj) :
  let pos := replay root (actionsBuffer (scratch (thread s))) in
  let from := no_visit_idx cur in
  tree s !! p = Some cur ->
  is_playout_node cur = true ->
  was_inspected cur = false ->
  is_terminal cur = false ->
  rootState (thread s) = Some root ->
  Z.of_nat (get_number_child_nodes cur) < Word.idx_modulus ->
  (forall k a,
     (from <= k)%nat ->
     get_action cur (Z.of_nat k) = Some a ->
     gives_check pos a = true ->
     (forall j a', (from <= j < k)%nat -> get_action cur (Z.of_nat j) = Some a' ->
                   gives_check pos a' = false) ->
     select_enhanced_move p s
     = Some (Z.of_nat k, poke p (with_no_visit_idx (S k) cur) s)
     /\ Z.of_nat k <> NO_CHILD)
  /\ ((forall j a', (from <= j)%nat -> get_action cur (Z.of_nat j) = Some a' ->
                    gives_check pos a' = false) ->
      select_enhanced_move p s = Some (NO_CHILD, poke p (set_as_inspected cur) s)
      /\ tree (poke p (set_as_inspected cur) s) !! p = Some (set_as_inspected cur)
      /\ was_inspected (set_as_inspected cur) = true)
  /\ (forall s2 n2,
        tree s2 !! p = Some n2 -> was_inspected n2 = true ->
        select_enhanced_move p s2 = Some (NO_CHILD, s2)).
Proof.
  intros pos from Hcur Hplay Hinsp Hterm Hroot Hsmall.
  assert (Hrun : select_enhanced_move p s =
            match first_check pos (fst <$> drop from (children cur)) from with
            | Some childIdx =>
                Some (Word.wrap_idx (Z.of_nat childIdx),
                      poke p (Nat.iter (childIdx + 1 - from) increment_no_visit_idx cur) s)
            | None => Some (NO_CHILD, poke p (set_as_inspected cur) s)
            end).
  { unfold select_enhanced_move.
    rewrite (run_bind _ _ _ _ _ (run_deref _ _ _ Hcur)).
    rewrite Hplay, Hinsp, Hterm. cbn [negb andb].
    unfold mbind at 1, M_bind at 1. cbn [get_thread].
    rewrite (run_bind _ _ _ _ _ (run_lift _ _ s Hroot)).
    fold pos. fold from. destruct (first_check _ _ _); reflexivity. }
  split; [|split].
  - intros k a Hk Ha Hg Hmin.
    assert (Hlen : (k < get_number_child_nodes cur)%nat).
    { unfold get_action in Ha. rewrite Nat2Z.id in Ha.
      destruct (children cur !! k) eqn:E; [|discriminate].
      apply lookup_lt_Some in E. exact E. }
    assert (Hfc : first_check pos (fst <$> drop from (children cur)) from = Some k).
    { apply first_check_Some. split; [exact Hk|]. split.
      - exists a. rewrite get_action_drop. replace (from + (k - from))%nat with k by lia. auto.
      - intros j a' Hj Hj'. rewrite get_action_drop in Hj'.
        apply (Hmin (from + j)%nat a'); [lia|exact Hj']. }
    rewrite Hrun, Hfc.
    rewrite wrap_idx_small by (change Word.idx_modulus with 65536 in *; lia).
    rewrite iter_increment_no_visit_idx by (fold from; lia).
    fold from. replace (from + (k + 1 - from))%nat with (S k) by lia.
    split; [reflexivity|].
    change NO_CHILD with 65535. change Word.idx_modulus with 65536 in Hsmall. lia.
  - intros Hnone.
    assert (Hfc : first_check pos (fst <$> drop from (children cur)) from = None).
    { apply first_check_None. intros j a Hj. rewrite get_action_drop in Hj.
      apply (Hnone (from + j)%nat a); [lia|exact Hj]. }
    rewrite Hrun, Hfc. split; [reflexivity|]. split; [|reflexivity].
    cbn [poke tree]. apply list_lookup_insert_eq. now apply lookup_lt_Some in Hcur.
  - intros s2 n2 Hn2 Hi. unfold select_enhanced_move.
    rewrite (run_bind _ _ _ _ _ (run_deref _ _ _ Hn2)).
    rewrite Hi. cbn [negb andb]. rewrite andb_false_r. reflexivity.
Qed.

(** ** What the selector leaves alone *)

Lemma quiet_ret {A} (a : A) : quiet (mret a).
Proof. intros s a' s' H. unfold mret, M_ret in H. now inversion H. Qed.

Lemma quiet_bind {A B} (m : M A) (f : A -> M B) :
  quiet m -> (forall a, quiet (f a)) -> quiet (m ≫= f).
Proof.
  intros Hm Hf s b s2 H. apply inv_bind in H. destruct H as (a & s1 & H1 & H2).
  rewrite (Hf a _ _ _ H2). exact (Hm _ _ _ H1).
Qed.

Lemma quiet_undefined {A} : quiet (undefined : M A).
Proof. intros s a s' H. discriminate. Qed.

Lemma quiet_lift {A} (o : option A) : quiet (lift o).
Proof. intros s a s' H. apply inv_lift in H. now destruct H as [_ ->]. Qed.

Lemma quiet_deref p : quiet (deref p).
Proof. intros s a s' H. apply inv_deref in H. now destruct H as [_ ->]. Qed.

Lemma quiet_get_thread : quiet get_thread.
Proof. intros s a s' H. now inversion H. Qed.

Lemma quiet_get_tree : quiet get_tree.
Proof. intros s a s' H. now inversion H. Qed.

Lemma quiet_get_table : quiet get_table.
Proof. intros s a s' H. now inversion H. Qed.

Lemma quiet_put_table m : quiet (put_table m).
Proof. intros s a s' H. now inversion H. Qed.

Lemma quiet_modify_tree f : quiet (modify_tree f).
Proof. intros s a s' H. now inversion H. Qed.

Lemma quiet_store p n : quiet (store p n).
Proof. apply quiet_modify_tree. Qed.

Lemma quiet_rand : quiet rand.
Proof. intros s a s' H. now inversion H. Qed.

Lemma quiet_modify_scratch f : quiet (modify_scratch f).
Proof. intros s a s' H. now inversion H. Qed.

Lemma quiet_modify_stats f : quiet (modify_thread (with_stats f)).
Proof. intros s a s' H. now inversion H. Qed.

Lemma quiet_modify_buffers f : quiet (modify_thread (with_buffers f)).
Proof. intros s a s' H. now inversion H. Qed.

Lemma quiet_modify_phaseCountMap f : quiet (modify_staging (with_phaseCountMap f)).
Proof. intros s a s' H. now inversion H. Qed.

Lemma quiet_modify_newNodeSideToMove f : quiet (modify_staging (with_newNodeSideToMove f)).
Proof. intros s a s' H. now inversion H. Qed.

Create HintDb quiet.

#[local] Hint Resolve quiet_ret quiet_undefined quiet_lift quiet_deref quiet_get_thread
  quiet_get_tree quiet_get_table quiet_put_table quiet_modify_tree quiet_store
  quiet_rand quiet_modify_scratch quiet_modify_stats quiet_modify_buffers
  quiet_modify_phaseCountMap quiet_modify_newNodeSideToMove : quiet.

Ltac quiet_step :=
  match goal with
  | |- quiet (_ ≫= _) => apply quiet_bind; [|intros ?]
  | |- quiet (if ?b then _ else _) => destruct b
  | |- quiet (match ?x with _ => _ end) => destruct x
  | |- quiet _ => solve [auto with quiet]
  end.

Lemma quiet_random_playout p : quiet (random_playout p).
Proof. unfold random_playout. repeat quiet_step. Qed.

Lemma quiet_get_starting_node_loop steps p d i : quiet (get_starting_node_loop steps p d i).
Proof.
  revert p d i. induction steps as [|steps IH]; intros p d i; cbn [get_starting_node_loop].
  - auto with quiet.
  - repeat quiet_step.
Qed.

Lemma quiet_get_starting_node p d i : quiet (get_starting_node p d i).
Proof.
  unfold get_starting_node. repeat quiet_step. apply quiet_get_starting_node_loop.
Qed.

Lemma quiet_select_enhanced_move p : quiet (select_enhanced_move p).
Proof. unfold select_enhanced_move. repeat quiet_step. Qed.

Lemma quiet_epsilon_hit c n : quiet (epsilon_hit c n).
Proof. unfold epsilon_hit. repeat quiet_step. Qed.

#[local] Hint Resolve quiet_random_playout quiet_get_starting_node
  quiet_select_enhanced_move quiet_epsilon_hit : quiet.

Lemma quiet_select_start p n st : quiet (select_start p n st).
Proof. unfold select_start. repeat quiet_step. Qed.

Lemma core_stage_value v s1 s0 :
  core s1 = core s0 -> core (stage_value v s1) = core (stage_value v s0).
Proof. unfold core, stage_value, on_thread. cbn. intros [=]. congruence. Qed.

Lemma selected_core_l ty s0 s1 s' :
  core s1 = core s0 -> selected ty s1 s' -> selected ty s0 s'.
Proof.
  intros Hc. destruct ty; cbn [selected]; try congruence.
  intros (v & Hv & Hroom). exists v. split.
  - rewrite Hv. now apply core_stage_value.
  - unfold core in Hc. injection Hc as _ _ _ _ Htv _ _ _. now rewrite <- Htv.
Qed.

Lemma selected_core_r ty s s1 s' :
  selected ty s s1 -> core s' = core s1 -> selected ty s s'.
Proof.
  intros Hs Hc. destruct ty; cbn [selected] in *; try congruence.
  destruct Hs as (v & Hv & Hroom). exists v. split; congruence.
Qed.

(** Peels a quiet prefix off a run. *)
Ltac skip_quiet H :=
  let a := fresh "a" in
  let s1 := fresh "s" in
  let Hq := fresh "Hq" in
  let Hc := fresh "Hc" in
  apply inv_bind in H; destruct H as (a & s1 & Hq & H);
  match type of Hq with
  | ?m ?s0 = Some _ =>
      assert (Hc : core s1 = core s0)
        by (refine ((_ : quiet m) s0 a s1 Hq); auto with quiet)
  end.

(** Names, as [Hs], the fact that the state [H] runs from has the core of [s]. *)
Ltac core_here H s Hs :=
  match type of H with
  | _ ?sx = Some _ => assert (Hs : core sx = core s) by congruence
  end.

Lemma stage_transposition_value_selected v s u s' :
  stage_transposition_value v s = Some (u, s') -> selected NODE_TRANSPOSITION s s'.
Proof.
  unfold stage_transposition_value, FixedVector.add_element.
  unfold mbind, M_bind, get_thread, lift, modify_staging, modify_thread.
  destruct (Nat.ltb_spec (FixedVector.size (transpositionValues (staging (thread s))))
                         (FixedVector.capacity (transpositionValues (staging (thread s)))));
    cbn; [|discriminate].
  intros [= _ <-]. exists v. split; [reflexivity|assumption].
Qed.

Lemma add_new_node_to_tree_selected st p i s n ty s' :
  add_new_node_to_tree st p i s = Some ((n, ty), s') -> selected ty s s'.
Proof.
  unfold add_new_node_to_tree. intros H.
  skip_quiet H. skip_quiet H. skip_quiet H.
  destruct (node_add_new_node_to_tree _ _ _ _ _ _) as [[[m' t'] newNode] tr].
  skip_quiet H. skip_quiet H. skip_quiet H.
  core_here H s Hs.
  destruct (is_terminal _).
  - injection H as <- <- <-. cbn. exact Hs.
  - destruct tr.
    + skip_quiet H. skip_quiet H. skip_quiet H. skip_quiet H.
      core_here H s Hs'.
      apply inv_bind in H. destruct H as (u & sx & Hst & H).
      injection H as <- <- <-.
      apply stage_transposition_value_selected in Hst.
      eapply selected_core_l; [exact Hs'|exact Hst].
    + injection H as <- <- <-. cbn. exact Hs.
Qed.

Lemma expand_child_selected p cur i s r s' :
  expand_child p cur i s = Some (r, s') ->
  exists n ty, r = Leaf n ty /\ selected ty s s'.
Proof.
  unfold expand_child. intros H.
  skip_quiet H. skip_quiet H. skip_quiet H. skip_quiet H. skip_quiet H.
  core_here H s Hs.
  apply inv_bind in H. destruct H as ([n ty] & sx & Hadd & H).
  apply add_new_node_to_tree_selected in Hadd.
  assert (Hadd' : selected ty s sx).
  { eapply selected_core_l; [exact Hs|exact Hadd]. }
  exists n, ty.
  destruct ty; try (injection H as <- <-; split; [reflexivity|exact Hadd']).
  skip_quiet H. skip_quiet H. skip_quiet H. skip_quiet H. skip_quiet H.
  skip_quiet H. skip_quiet H.
  core_here H sx Hs'.
  injection H as <- <-. split; [reflexivity|].
  cbn [selected] in *. congruence.
Qed.

Lemma visit_child_selected cur i nx s r s' :
  visit_child cur i nx s = Some (r, s') ->
  match r with
  | Leaf _ ty => selected ty s s'
  | Descend _ => core s' = core s
  end.
Proof.
  unfold visit_child. intros H.
  skip_quiet H. skip_quiet H.
  core_here H s Hs.
  match type of H with _ ?sx = Some _ =>
  assert (Hdescend : forall r s',
            (a ← lift (get_action cur i);
             modify_scratch (with_actionsBuffer (fun b => b ++ [a]));;
             mret (Descend nx)) sx = Some (r, s') ->
            match r with
            | Leaf _ ty => selected ty s s'
            | Descend _ => core s' = core s
            end)
  end.
  { intros r0 s0' H0. skip_quiet H0. skip_quiet H0.
    injection H0 as <- <-. congruence. }
  destruct (is_terminal _); [injection H as <- <-; exact Hs|].
  destruct (negb (has_nn_results _)); [injection H as <- <-; exact Hs|].
  destruct (is_transposition _); [|now apply Hdescend].
  destruct (is_transposition_return _ _); [|now apply Hdescend].
  apply inv_bind in H. destruct H as (u & sy & Hst & H).
  injection H as <- <-.
  apply stage_transposition_value_selected in Hst.
  eapply selected_core_l; [exact Hs|exact Hst].
Qed.

Lemma select_pass_selected p i s r s' :
  select_pass p i s = Some (r, s') ->
  match r with
  | Leaf _ ty => selected ty s s'
  | Descend _ => core s' = core s
  end.
Proof.
  unfold select_pass. intros H.
  skip_quiet H. skip_quiet H. skip_quiet H. skip_quiet H.
  apply inv_bind in H. destruct H as (link & sx & Hlink & H).
  assert (Hs : core sx = core s).
  { apply quiet_lift in Hlink. congruence. }
  destruct link as [nx|].
  - apply visit_child_selected in H. destruct r.
    + eapply selected_core_l; eassumption.
    + congruence.
  - apply expand_child_selected in H. destruct H as (n & ty & -> & H).
    eapply selected_core_l; eassumption.
Qed.

Lemma selection_loop_selected fuel p i d s n desc s' :
  selection_loop fuel p i d s = Some ((n, desc), s') -> selected (type desc) s s'.
Proof.
  revert p i d s. induction fuel as [|fuel IH]; intros p i d s; cbn [selection_loop].
  - discriminate.
  - intros H. apply inv_bind in H. destruct H as (r & s1 & Hpass & H).
    apply select_pass_selected in Hpass. destruct r as [n' ty|n'].
    + injection H as <- <- <-. exact Hpass.
    + apply IH in H. apply (selected_core_l _ s s1); assumption.
Qed.

Lemma get_new_child_to_evaluate_selected fuel s n desc s' :
  get_new_child_to_evaluate fuel s = Some ((n, desc), s') -> selected (type desc) s s'.
Proof.
  unfold get_new_child_to_evaluate. intros H.
  skip_quiet H. skip_quiet H. skip_quiet H.
  apply inv_bind in H. destruct H as ([[p d] i] & sx & Hstart & H).
  apply quiet_select_start in Hstart.
  apply selection_loop_selected in H.
  eapply selected_core_l; [|exact H]. congruence.
Qed.

(** ** Mini-batch assembly *)

Lemma core_fields s s' :
  core s' = core s ->
  let b := staging (thread s) in
  let b' := staging (thread s') in
  newNodes b' = newNodes b /\ newTrajectories b' = newTrajectories b
  /\ transpositionTrajectories b' = transpositionTrajectories b
  /\ collisionTrajectories b' = collisionTrajectories b
  /\ transpositionValues b' = transpositionValues b
  /\ searchSettings (thread s') = searchSettings (thread s)
  /\ terminalNodeCache (thread s') = terminalNodeCache (thread s).
Proof. unfold core. intros [=]. repeat split; assumption. Qed.

Lemma selected_fields ty s s' :
  selected ty s s' ->
  let b := staging (thread s) in
  let b' := staging (thread s') in
  newNodes b' = newNodes b /\ newTrajectories b' = newTrajectories b
  /\ transpositionTrajectories b' = transpositionTrajectories b
  /\ collisionTrajectories b' = collisionTrajectories b
  /\ FixedVector.capacity (transpositionValues b')
     = FixedVector.capacity (transpositionValues b)
  /\ FixedVector.size (transpositionValues b')
     = (FixedVector.size (transpositionValues b)
        + if ty is NODE_TRANSPOSITION then 1 else 0)%nat
  /\ (FixedVector.size (transpositionValues b')
      <= FixedVector.capacity (transpositionValues b)
      \/ ty <> NODE_TRANSPOSITION)%nat
  /\ searchSettings (thread s') = searchSettings (thread s)
  /\ terminalNodeCache (thread s') = terminalNodeCache (thread s).
Proof.
  intros H b b'.
  assert (Hquiet : core s' = core s ->
            newNodes b' = newNodes b /\ newTrajectories b' = newTrajectories b
            /\ transpositionTrajectories b' = transpositionTrajectories b
            /\ collisionTrajectories b' = collisionTrajectories b
            /\ transpositionValues b' = transpositionValues b
            /\ searchSettings (thread s') = searchSettings (thread s)
            /\ terminalNodeCache (thread s') = terminalNodeCache (thread s))
    by apply core_fields.
  destruct ty; cbn [selected] in H;
    try (destruct (Hquiet H) as (? & ? & ? & ? & Htv & ? & ?);
         rewrite Htv, Nat.add_0_r; repeat split; auto).
  destruct H as (v & Hv & Hroom).
  apply core_fields in Hv. cbv zeta in Hv.
  destruct Hv as (Hnn & Hnt & Htt & Hct & Htv & Hst & Hc).
  fold b' in Hnn, Hnt, Htt, Hct, Htv.
  unfold stage_value, on_thread in *. cbn in Hnn, Hnt, Htt, Hct, Htv, Hst, Hc.
  fold b in Hnn, Hnt, Htt, Hct, Htv, Hroom.
  rewrite Htv. unfold FixedVector.size in *. cbn. rewrite length_app. cbn.
  repeat split; auto. left. lia.
Qed.

Lemma selected_nets ty s s' :
  selected ty s s' -> nets (thread s') = nets (thread s).
Proof.
  destruct ty; cbn [selected]; try (unfold core; intros [=]; assumption).
  intros (v & Hv & _). unfold core, stage_value, on_thread in Hv. cbn in Hv.
  injection Hv as _ _ _ _ _ _ _ Hn. exact Hn.
Qed.

Lemma mini_batch_step_dispatch sel_fuel n s n1 s1 :
  mini_batch_step sel_fuel n s = Some (n1, s1) ->
  exists leaf desc s_sel,
    get_new_child_to_evaluate sel_fuel (cleared s) = Some ((leaf, desc), s_sel)
    /\ selected (type desc) s s_sel
    /\ dispatched leaf (type desc) n n1 s s_sel s1
    /\ transpositionValues (staging (thread s1)) = transpositionValues (staging (thread s_sel))
    /\ searchSettings (thread s1) = searchSettings (thread s)
    /\ terminalNodeCache (thread s1) = terminalNodeCache (thread s)
    /\ nets (thread s1) = nets (thread s).
Proof.
  unfold mini_batch_step. intros H.
  apply inv_bind in H. destruct H as (u & s0 & Hclear & H).
  assert (Hs0 : s0 = cleared s) by (now inversion Hclear). subst s0. clear Hclear.
  apply inv_bind in H. destruct H as ([leaf desc] & s_sel & Hsel & H).
  pose proof (get_new_child_to_evaluate_selected _ _ _ _ _ Hsel) as Hsd.
  assert (Hsd' : selected (type desc) s s_sel).
  { eapply selected_core_l; [|exact Hsd]. reflexivity. }
  destruct (selected_fields _ _ _ Hsd') as (Hnn & Hnt & Htt & Hct & _ & _ & _ & Hst & Hc).
  pose proof (selected_nets _ _ _ Hsd') as Hnets.
  exists leaf, desc, s_sel. split; [exact Hsel|]. split; [exact Hsd'|].
  apply inv_bind in H. destruct H as (u' & s2 & Hstats & H).
  assert (Hs2 : s2 = on_thread (with_stats (add_depth (depth desc))) s_sel)
    by (now inversion Hstats). subst s2. clear Hstats.
  unfold mbind at 1, M_bind at 1 in H. cbn [get_thread] in H.
  unfold dispatched. cbv zeta.
  destruct (type desc).
  - (* collision *)
    apply inv_bind in H. destruct H as (u2 & s3 & Hmod & H).
    injection H as <- <-. inversion Hmod. subst. cbn.
    rewrite Hnn, Hnt, Htt, Hct, Hst, Hc. repeat split; try reflexivity; exact Hnets.
  - (* terminal *)
    apply inv_bind in H. destruct H as (node & s3 & Hnode & H).
    apply inv_deref in Hnode. destruct Hnode as [Hnode ->].
    apply inv_bind in H. destruct H as (u2 & s3 & Hmod & H).
    injection H as <- <-. inversion Hmod. subst. cbn in *.
    rewrite Hnn, Hnt, Htt, Hct, Hst, Hc. repeat split; try reflexivity; try exact Hnets.
    exists node. split; [exact Hnode|reflexivity].
  - (* transposition *)
    apply inv_bind in H. destruct H as (u2 & s3 & Hmod & H).
    injection H as <- <-. inversion Hmod. subst. cbn.
    rewrite Hnn, Hnt, Htt, Hct, Hst, Hc. repeat split; try reflexivity; exact Hnets.
  - (* new node *)
    apply inv_bind in H. destruct H as (nn & s3 & Hadd & H).
    apply inv_lift in Hadd. destruct Hadd as [Hadd ->].
    apply inv_bind in H. destruct H as (u2 & s3 & Hmod & H).
    apply inv_bind in H. destruct H as (u3 & s4 & Hmod' & H).
    injection H as <- <-. inversion Hmod. subst. inversion Hmod'. subst. cbn in *.
    unfold FixedVector.add_element in Hadd.
    destruct (Nat.ltb _ _); [|discriminate]. injection Hadd as <-. cbn.
    rewrite Hnn, Hnt, Htt, Hct, Hst, Hc. repeat split; try reflexivity; exact Hnets.
Qed.

Lemma batch_open_iff n s :
  sized s ->
  (batch_open n (thread s) = false <-> batch_limit_reached n s).
Proof.
  intros [Hnn Htv]. unfold batch_open, batch_limit_reached, FixedVector.is_full.
  cbv zeta. rewrite Hnn, Htv.
  rewrite !andb_false_iff, !negb_false_iff, !Nat.eqb_eq, Nat.ltb_ge. tauto.
Qed.

Lemma batch_open_room n s :
  fits s -> batch_open n (thread s) = true ->
  let b := staging (thread s) in
  (FixedVector.size (newNodes b) < FixedVector.capacity (newNodes b)
   /\ length (collisionTrajectories b) < batchSize (searchSettings (thread s))
   /\ FixedVector.size (transpositionValues b)
      < FixedVector.capacity (transpositionValues b)
   /\ n < terminalNodeCache (thread s))%nat.
Proof.
  intros (Hnn & Hc & Htv) Hopen. unfold batch_open, FixedVector.is_full in Hopen.
  rewrite !andb_true_iff, !negb_true_iff, !Nat.eqb_neq, Nat.ltb_lt in Hopen.
  cbv zeta in *. lia.
Qed.

Lemma mini_batch_step_progress sel_fuel n s n1 s1 :
  sized s -> fits s -> batch_open n (thread s) = true ->
  mini_batch_step sel_fuel n s = Some (n1, s1) ->
  sized s1 /\ fits s1 /\ (remaining n1 s1 + 1 = remaining n s)%nat.
Proof.
  intros Hsized Hfits Hopen Hstep.
  pose proof (batch_open_room n s Hfits Hopen) as Hroom. cbv zeta in Hroom.
  destruct Hroom as (Rnn & Rc & Rtv & Rn).
  destruct (mini_batch_step_dispatch _ _ _ _ _ Hstep)
    as (leaf & desc & s_sel & _ & Hsel & Hdisp & Htv1 & Hst & Hcache & _).
  destruct (selected_fields _ _ _ Hsel) as (_ & _ & _ & _ & Hcap & Hsize & _ & _ & _).
  destruct Hsized as [Snn Stv]. destruct Hfits as (Fnn & Fc & Ftv).
  unfold sized, fits, remaining, dispatched in *. cbv zeta in *.
  rewrite Htv1, Hst, Hcache, Hcap, Hsize.
  destruct (type desc).
  - destruct Hdisp as (-> & _ & Hc & Hnn & _). rewrite Hc, Hnn, length_app. cbn. lia.
  - destruct Hdisp as (-> & _ & Hnn & _ & Hc & _). rewrite Hc, Hnn. lia.
  - destruct Hdisp as (-> & _ & _ & Hnn & _ & Hc). rewrite Hc, Hnn. lia.
  - destruct Hdisp as (-> & _ & He & Hcp & _ & Hc & _).
    unfold FixedVector.size in *. rewrite Hc, Hcp, He, length_app. cbn. lia.
Qed.

Lemma create_mini_batch_loop_unfold fuel sel_fuel n s :
  create_mini_batch_loop fuel sel_fuel n s =
    if batch_open n (thread s) then
      match fuel with
      | O => None
      | S fuel' =>
          (n1 ← mini_batch_step sel_fuel n;
           create_mini_batch_loop fuel' sel_fuel n1) s
      end
    else Some (n, s).
Proof.
  destruct fuel; cbn [create_mini_batch_loop];
    unfold mbind at 1, M_bind at 1; cbn [get_thread];
    destruct (batch_open n (thread s)); reflexivity.
Qed.

Lemma create_mini_batch_loop_trace fuel sel_fuel n s n' s' :
  create_mini_batch_loop fuel sel_fuel n s = Some (n', s') ->
  exists k,
    (k <= fuel)%nat
    /\ run_steps k sel_fuel n s = Some (n', s')
    /\ batch_open n' (thread s') = false
    /\ (forall j, (j < k)%nat ->
          exists nj sj, run_steps j sel_fuel n s = Some (nj, sj)
                        /\ batch_open nj (thread sj) = true).
Proof.
  revert n s. induction fuel as [|fuel IH]; intros n s;
    rewrite create_mini_batch_loop_unfold;
    destruct (batch_open n (thread s)) eqn:Hopen; try discriminate.
  - intros [= <- <-]. exists 0%nat. split; [lia|]. split; [reflexivity|].
    split; [exact Hopen|]. intros j Hj. lia.
  - intros H. apply inv_bind in H. destruct H as (n1 & s1 & Hstep & H).
    destruct (IH _ _ H) as (k & Hk & Hrun & Hdone & Hbefore).
    exists (S k). split; [lia|]. split; [|split; [exact Hdone|]].
    + cbn [run_steps]. now rewrite (run_bind _ _ _ _ _ Hstep).
    + intros [|j] Hj.
      * exists n, s. split; [reflexivity|exact Hopen].
      * destruct (Hbefore j ltac:(lia)) as (nj & sj & Hj1 & Hj2).
        exists nj, sj. split; [|exact Hj2].
        cbn [run_steps]. now rewrite (run_bind _ _ _ _ _ Hstep).
  - intros [= <- <-]. exists 0%nat. split; [lia|]. split; [reflexivity|].
    split; [exact Hopen|]. intros j Hj. lia.
Qed.

Lemma create_mini_batch_loop_total fuel sel_fuel n s :
  sized s -> fits s -> (remaining n s < fuel)%nat ->
  create_mini_batch_loop fuel sel_fuel n s = None ->
  exists j nj sj,
    run_steps j sel_fuel n s = Some (nj, sj)
    /\ sized sj
    /\ batch_open nj (thread sj) = true
    /\ mini_batch_step sel_fuel nj sj = None.
Proof.
  revert n s. induction fuel as [|fuel IH]; intros n s Hsized Hfits Hfuel; [lia|].
  rewrite create_mini_batch_loop_unfold.
  destruct (batch_open n (thread s)) eqn:Hopen; [|discriminate].
  destruct (mini_batch_step sel_fuel n s) as [[n1 s1]|] eqn:Hstep.
  - rewrite (run_bind _ _ _ _ _ Hstep). intros Hnone.
    destruct (mini_batch_step_progress _ _ _ _ _ Hsized Hfits Hopen Hstep)
      as (Hsized1 & Hfits1 & Hrem).
    destruct (IH n1 s1 Hsized1 Hfits1 ltac:(lia) Hnone)
      as (j & nj & sj & Hrun & Hsj & Ho & Hn).
    exists (S j), nj, sj. split; [|split; [|split]]; try assumption.
    cbn [run_steps]. now rewrite (run_bind _ _ _ _ _ Hstep).
  - intros _. exists 0%nat, n, s. split; [reflexivity|]. split; [|split]; assumption.
Qed.

Lemma run_steps_invariant k sel_fuel n s n' s' :
  sized s -> fits s ->
  run_steps k sel_fuel n s = Some (n', s') ->
  (forall j, (j < k)%nat ->
     exists nj sj, run_steps j sel_fuel n s = Some (nj, sj)
                   /\ batch_open nj (thread sj) = true) ->
  sized s' /\ fits s' /\ (remaining n' s' + k = remaining n s)%nat.
Proof.
  revert n s. induction k as [|k IH]; intros n s Hsized Hfits Hrun Hopen.
  - injection Hrun as <- <-. split; [assumption|split; [assumption|lia]].
  - cbn [run_steps] in Hrun. apply inv_bind in Hrun.
    destruct Hrun as (n1 & s1 & Hstep & Hrun).
    destruct (Hopen 0%nat ltac:(lia)) as (n0 & s0 & H0 & Hopen0).
    injection H0 as <- <-.
    destruct (mini_batch_step_progress _ _ _ _ _ Hsized Hfits Hopen0 Hstep)
      as (Hsized1 & Hfits1 & Hrem).
    assert (Hopen1 : forall j, (j < k)%nat ->
              exists nj sj, run_steps j sel_fuel n1 s1 = Some (nj, sj)
                            /\ batch_open nj (thread sj) = true).
    { intros j Hj. destruct (Hopen (S j) ltac:(lia)) as (nj & sj & Hj1 & Hj2).
      exists nj, sj. split; [|exact Hj2].
      cbn [run_steps] in Hj1. now rewrite (run_bind _ _ _ _ _ Hstep) in Hj1. }
    destruct (IH n1 s1 Hsized1 Hfits1 Hrun Hopen1) as (Hs' & Hf' & Hr').
    split; [assumption|split; [assumption|lia]].
Qed.

Lemma run_steps_nets k sel_fuel n s n' s' :
  run_steps k sel_fuel n s = Some (n', s') -> nets (thread s') = nets (thread s).
Proof.
  revert n s. induction k as [|k IH]; intros n s; cbn [run_steps].
  - now intros [= _ <-].
  - intros H. apply inv_bind in H. destruct H as (n1 & s1 & Hstep & H).
    destruct (mini_batch_step_dispatch _ _ _ _ _ Hstep)
      as (? & ? & ? & _ & _ & _ & _ & _ & _ & Hn).
    rewrite (IH _ _ H). exact Hn.
Qed.

Lemma batch_open_true_iff n s :
  sized s -> (batch_open n (thread s) = true <-> ~ batch_limit_reached n s).
Proof.
  intros Hsized. rewrite <- (batch_open_iff n s Hsized).
  destruct (batch_open n (thread s)); split; congruence.
Qed.

(** C2: for a worker whose staging vectors have the capacities of the
    constructor and are within them.  When [create_mini_batch] returns, it
    has run some number [k] of turns, one of the four limits (newNodes at
    batchSize, collisionTrajectories at batchSize, transpositionValues at
    2 * batchSize, terminal leaves at terminalNodeCache) holds at the end
    and none held before any of the [k] turns.  A turn selects one leaf and
    files it in exactly one place (terminal backup, collisionTrajectories,
    transpositionTrajectories, or newNodes with newTrajectories), using up
    one unit of the room the limits leave.  With more fuel than that room,
    the loop fails only where a turn itself fails. *)
Theorem mini_batch_assembly (fuel sel_fuel : nat) (s : Machine) :
  sized s -> fits s ->
  (forall n' s',
     create_mini_batch fuel sel_fuel s = Some (n', s') ->
     exists k,
       run_steps k sel_fuel 0 s = Some (n', s')
       /\ batch_limit_reached n' s'
       /\ (forall j, (j < k)%nat ->
             exists nj sj,
               run_steps j sel_fuel 0 s = Some (nj, sj)
               /\ sized sj /\ fits sj /\ ~ batch_limit_reached nj sj)
       /\ (remaining n' s' + k = remaining 0 s)%nat)
  /\ (forall n n1 s1,
        ~ batch_limit_reached n s ->
        mini_batch_step sel_fuel n s = Some (n1, s1) ->
        exists leaf desc s_sel,
          get_new_child_to_evaluate sel_fuel (cleared s) = Some ((leaf, desc), s_sel)
          /\ dispatched leaf (type desc) n n1 s s_sel s1
          /\ sized s1 /\ fits s1
          /\ (remaining n1 s1 + 1 = remaining n s)%nat)
  /\ ((remaining 0 s < fuel)%nat ->
      create_mini_batch fuel sel_fuel s = None ->
      exists j nj sj,
        run_steps j sel_fuel 0 s = Some (nj, sj)
        /\ ~ batch_limit_reached nj sj
        /\ mini_batch_step sel_fuel nj sj = None).
Proof.
  intros Hsized Hfits. split; [|split].
  - intros n' s' Hrun. unfold create_mini_batch in Hrun.
    destruct (create_mini_batch_loop_trace _ _ _ _ _ _ Hrun)
      as (k & _ & Hk & Hdone & Hbefore).
    destruct (run_steps_invariant _ _ _ _ _ _ Hsized Hfits Hk Hbefore)
      as (Hsized' & _ & Hrem).
    exists k. split; [exact Hk|]. split; [now apply batch_open_iff|].
    split; [|exact Hrem].
    intros j Hj. destruct (Hbefore j Hj) as (nj & sj & Hj1 & Hj2).
    assert (Hprefix : forall i, (i < j)%nat ->
              exists ni si, run_steps i sel_fuel 0 s = Some (ni, si)
                            /\ batch_open ni (thread si) = true)
      by (intros i Hi; apply Hbefore; lia).
    destruct (run_steps_invariant _ _ _ _ _ _ Hsized Hfits Hj1 Hprefix)
      as (Hsj & Hfj & _).
    exists nj, sj. split; [exact Hj1|]. split; [exact Hsj|]. split; [exact Hfj|].
    now apply batch_open_true_iff.
  - intros n n1 s1 Hopen Hstep. apply batch_open_true_iff in Hopen; [|exact Hsized].
    destruct (mini_batch_step_dispatch _ _ _ _ _ Hstep)
      as (leaf & desc & s_sel & Hsel & _ & Hdisp & _).
    destruct (mini_batch_step_progress _ _ _ _ _ Hsized Hfits Hopen Hstep)
      as (Hs1 & Hf1 & Hrem).
    exists leaf, desc, s_sel.
    split; [exact Hsel|]. split; [exact Hdisp|]. split; [exact Hs1|].
    split; [exact Hf1|exact Hrem].
  - intros Hfuel Hnone. unfold create_mini_batch in Hnone.
    destruct (create_mini_batch_loop_total _ _ _ _ Hsized Hfits Hfuel Hnone)
      as (j & nj & sj & Hj & Hsj & Hopen & Hfail).
    exists j, nj, sj. split; [exact Hj|]. split; [|exact Hfail].
    now apply batch_open_true_iff.
Qed.

(** ** Backup and the staging containers *)

Lemma backup_node_values_thread idx todo trajectories s u s' :
  backup_node_values idx todo trajectories s = Some (u, s') -> thread s' = thread s.
Proof.
  revert idx s. induction todo as [|p rest IH]; intros idx s; cbn [backup_node_values].
  - now intros [= _ <-].
  - intros H. unfold mbind at 1, M_bind at 1 in H. cbn [get_thread] in H.
    apply inv_bind in H. destruct H as (n & s1 & Hn & H).
    apply inv_deref in Hn. destruct Hn as [_ ->].
    apply inv_bind in H. destruct H as (tr & s1 & Htr & H).
    apply inv_lift in Htr. destruct Htr as [_ ->].
    apply inv_bind in H. destruct H as (u' & s1 & Hmod & H).
    injection Hmod as _ <-. now rewrite (IH _ _ H).
Qed.

Lemma backup_float_values_thread idx todo trajectories s u s' :
  backup_float_values idx todo trajectories s = Some (u, s') -> thread s' = thread s.
Proof.
  revert idx s. induction todo as [|v rest IH]; intros idx s; cbn [backup_float_values].
  - now intros [= _ <-].
  - intros H. unfold mbind at 1, M_bind at 1 in H. cbn [get_thread] in H.
    apply inv_bind in H. destruct H as (tr & s1 & Htr & H).
    apply inv_lift in Htr. destruct Htr as [_ ->].
    apply inv_bind in H. destruct H as (u' & s1 & Hmod & H).
    injection Hmod as _ <-. now rewrite (IH _ _ H).
Qed.

(** The containers the backup phase rewinds. *)
Lemma backup_resets_staging s u s1 u' s2 :
  backup_value_outputs s = Some (u, s1) ->
  backup_collisions s1 = Some (u', s2) ->
  let b := staging (thread s2) in
  FixedVector.size (newNodes b) = 0%nat
  /\ FixedVector.size (newNodeSideToMove b) = 0%nat
  /\ newTrajectories b = []
  /\ FixedVector.size (transpositionValues b) = 0%nat
  /\ transpositionTrajectories b = []
  /\ collisionTrajectories b = []
  /\ phaseCountMap b = phaseCountMap (staging (thread s))
  /\ FixedVector.capacity (newNodes b)
     = FixedVector.capacity (newNodes (staging (thread s)))
  /\ FixedVector.capacity (transpositionValues b)
     = FixedVector.capacity (transpositionValues (staging (thread s)))
  /\ searchSettings (thread s2) = searchSettings (thread s).
Proof.
  unfold backup_value_outputs, backup_collisions. intros H1 H2.
  unfold mbind at 1, M_bind at 1 in H1. cbn [get_thread] in H1.
  apply inv_bind in H1. destruct H1 as (? & sa & Ha & H1).
  apply backup_node_values_thread in Ha.
  apply inv_bind in H1. destruct H1 as (? & sb & Hb & H1). injection Hb as _ <-.
  apply inv_bind in H1. destruct H1 as (? & sb & Hb & H1). injection Hb as _ <-.
  apply inv_bind in H1. destruct H1 as (? & sb & Hb & H1). injection Hb as _ <-.
  apply inv_bind in H1. destruct H1 as (? & sb & Hb & H1).
  apply backup_float_values_thread in Hb.
  apply inv_bind in H1. destruct H1 as (? & sc & Hc & H1). injection Hc as _ <-.
  injection H1 as _ <-.
  unfold mbind at 1, M_bind at 1 in H2. cbn [get_thread] in H2.
  apply inv_bind in H2. destruct H2 as (? & sd & Hd & H2). injection Hd as _ <-.
  injection H2 as _ <-.
  cbn. rewrite Hb. cbn. rewrite Ha. repeat split; reflexivity.
Qed.

(** With one network [select_nn_index] returns before it reaches
    [phaseCountMap.clear()]; with several it clears the histogram. *)
Lemma select_nn_index_single s :
  length (nets (thread s)) = 1%nat -> select_nn_index s = Some (0%nat, s).
Proof.
  intros H. unfold select_nn_index. unfold mbind at 1, M_bind at 1. cbn [get_thread].
  now rewrite H.
Qed.

Lemma select_nn_index_clears s i s' :
  length (nets (thread s)) <> 1%nat ->
  select_nn_index s = Some (i, s') ->
  phaseCountMap (staging (thread s')) = [].
Proof.
  intros Hn. unfold select_nn_index. unfold mbind at 1, M_bind at 1. cbn [get_thread].
  apply Nat.eqb_neq in Hn. rewrite Hn. intros H.
  apply inv_bind in H. destruct H as (pr & s1 & Hpr & H).
  apply inv_lift in Hpr. destruct Hpr as [_ ->].
  apply inv_bind in H. destruct H as (? & s1 & Hmod & H). injection Hmod as _ <-.
  apply inv_lift in H. destruct H as [_ ->]. reflexivity.
Qed.

Lemma thread_iteration_resets_staging fuel sel_fuel s u s' :
  thread_iteration fuel sel_fuel s = Some (u, s') ->
  let b := staging (thread s') in
  FixedVector.size (newNodes b) = 0%nat
  /\ FixedVector.size (newNodeSideToMove b) = 0%nat
  /\ newTrajectories b = []
  /\ FixedVector.size (transpositionValues b) = 0%nat
  /\ transpositionTrajectories b = []
  /\ collisionTrajectories b = [].
Proof.
  unfold thread_iteration. intros H.
  apply inv_bind in H. destruct H as (? & s1 & _ & H).
  unfold mbind at 1, M_bind at 1 in H. cbn [get_thread] in H.
  apply inv_bind in H. destruct H as (? & s2 & _ & H).
  apply inv_bind in H. destruct H as (? & s3 & Hout & H).
  destruct (backup_resets_staging _ _ _ _ _ Hout H) as (? & ? & ? & ? & ? & ? & _).
  repeat split; assumption.
Qed.

Lemma quiet_select_nn_index : quiet select_nn_index.
Proof. unfold select_nn_index. repeat quiet_step. Qed.

Lemma quiet_set_nn_results_from idx todo : quiet (set_nn_results_from idx todo).
Proof.
  revert idx. induction todo as [|p rest IH]; intros idx; cbn [set_nn_results_from].
  - auto with quiet.
  - repeat quiet_step.
Qed.

#[local] Hint Resolve quiet_select_nn_index quiet_set_nn_results_from : quiet.

Lemma set_nn_results_from_staging idx todo s u s' :
  set_nn_results_from idx todo s = Some (u, s') ->
  staging (thread s') = staging (thread s).
Proof.
  revert idx s. induction todo as [|p rest IH]; intros idx s; cbn [set_nn_results_from].
  - now intros [= _ <-].
  - intros H. unfold mbind at 1, M_bind at 1 in H. cbn [get_thread] in H.
    repeat (apply inv_bind in H;
            let Hl := fresh "Hl" in
            destruct H as (? & ? & Hl & H);
            first [ apply inv_lift in Hl; destruct Hl as [_ ->]
                  | apply inv_deref in Hl; destruct Hl as [_ ->]
                  | injection Hl as _ <- ]).
    match type of H with
    | context [let '(_, _) := ?x in _] => destruct x as [n' hits]
    end.
    repeat (apply inv_bind in H;
            let Hl := fresh "Hl" in
            destruct H as (? & ? & Hl & H);
            injection Hl as _ <-).
    now rewrite (IH _ _ H).
Qed.

(** With a single network nothing in an iteration clears the histogram: it
    ends the iteration as [create_mini_batch] left it. *)
Lemma thread_iteration_single_network_histogram fuel sel_fuel s u s' :
  length (nets (thread s)) = 1%nat ->
  thread_iteration fuel sel_fuel s = Some (u, s') ->
  exists n1 s1,
    create_mini_batch fuel sel_fuel s = Some (n1, s1)
    /\ phaseCountMap (staging (thread s')) = phaseCountMap (staging (thread s1)).
Proof.
  intros Hone. unfold thread_iteration. intros H.
  apply inv_bind in H. destruct H as (n1 & s1 & Hbatch & H).
  exists n1, s1. split; [exact Hbatch|].
  assert (Hnets : nets (thread s1) = nets (thread s)).
  { unfold create_mini_batch in Hbatch.
    destruct (create_mini_batch_loop_trace _ _ _ _ _ _ Hbatch) as (k & _ & Hk & _).
    exact (run_steps_nets _ _ _ _ _ _ Hk). }
  unfold mbind at 1, M_bind at 1 in H. cbn [get_thread] in H.
  apply inv_bind in H. destruct H as (? & s2 & Hnet & H).
  assert (Hst : staging (thread s2) = staging (thread s1)).
  { destruct (negb _).
    - rewrite (run_bind _ _ _ _ _ (select_nn_index_single s1 ltac:(congruence))) in Hnet.
      apply inv_bind in Hnet. destruct Hnet as (net & sa & Hl & Hnet).
      apply inv_lift in Hl. destruct Hl as [_ ->].
      apply inv_bind in Hnet. destruct Hnet as (? & sa & Hl & Hnet).
      injection Hl as _ <-.
      unfold set_nn_results_to_child_nodes in Hnet.
      unfold mbind at 1, M_bind at 1 in Hnet. cbn [get_thread] in Hnet.
      now rewrite (set_nn_results_from_staging _ _ _ _ _ Hnet).
    - now injection Hnet as _ <-. }
  apply inv_bind in H. destruct H as (? & s3 & Hout & H).
  destruct (backup_resets_staging _ _ _ _ _ Hout H) as (_ & _ & _ & _ & _ & _ & Hp & _).
  now rewrite Hp, Hst.
Qed.

(** The worker as constructed is ready for [create_mini_batch], and every
    iteration leaves it so. *)
Lemma constructed_ready (base : SearchThread) (settings : SearchSettings) (s : Machine) :
  staging (thread s) = staging (new_SearchThread base settings) ->
  searchSettings (thread s) = settings ->
  sized s /\ fits s.
Proof.
  intros Hst Hse. unfold sized, fits. cbv zeta. rewrite Hst, Hse. cbn.
  repeat split; lia.
Qed.

Lemma thread_iteration_keeps_ready fuel sel_fuel s u s' :
  sized s -> fits s ->
  thread_iteration fuel sel_fuel s = Some (u, s') ->
  sized s' /\ fits s'.
Proof.
  intros Hsized Hfits. unfold thread_iteration. intros H.
  apply inv_bind in H. destruct H as (n1 & s1 & Hbatch & H).
  unfold create_mini_batch in Hbatch.
  destruct (create_mini_batch_loop_trace _ _ _ _ _ _ Hbatch) as (k & _ & Hk & _ & Hbefore).
  destruct (run_steps_invariant _ _ _ _ _ _ Hsized Hfits Hk Hbefore) as ([Hnn Htv] & _ & _).
  unfold mbind at 1, M_bind at 1 in H. cbn [get_thread] in H.
  apply inv_bind in H. destruct H as (? & s2 & Hnet & H).
  assert (Hc : core s2 = core s1).
  { destruct (negb _).
    - skip_quiet Hnet. skip_quiet Hnet. skip_quiet Hnet.
      unfold set_nn_results_to_child_nodes in Hnet. skip_quiet Hnet.
      apply quiet_set_nn_results_from in Hnet. congruence.
    - now injection Hnet as _ <-. }
  apply core_fields in Hc. cbv zeta in Hc.
  destruct Hc as (Cnn & _ & _ & _ & Ctv & Cse & _).
  apply inv_bind in H. destruct H as (? & s3 & Hout & H).
  destruct (backup_resets_staging _ _ _ _ _ Hout H)
    as (Z1 & _ & _ & Z2 & _ & Z3 & _ & K1 & K2 & K3).
  unfold sized, fits. cbv zeta.
  rewrite K1, K2, K3, Z1, Z2, Z3, Cnn, Ctv, Cse.
  split; [split; assumption|]. cbn. repeat split; lia.
Qed.

End Reasoning.

(** ** Random depth *)

Lemma bucket_table : forallb (fun k => bucket_ok (Z.of_nat k)) (seq 0 100) = true.
Proof. vm_compute. reflexivity. Qed.

Lemma bucket_ok_all (k : Z) : 0 <= k < 100 -> bucket_ok k = true.
Proof.
  intros Hk. pose proof bucket_table as H.
  rewrite forallb_forall in H.
  specialize (H (Z.to_nat k)). rewrite Z2Nat.id in H by lia.
  apply H. apply in_seq. lia.
Qed.

Lemma get_random_depth_mod (r : Z) : get_random_depth r = get_random_depth (r mod 100).
Proof. unfold get_random_depth. now rewrite Z.mod_mod by lia. Qed.

(** C8: [get_random_depth] has no defined result exactly on the bucket
    [U = 1.00], that is for [rand() % 100 = 99], where the argument of the
    logarithm is zero; the other 99 buckets have one. *)
Theorem get_random_depth_undefined_iff_last_bucket (r : Z) :
  get_random_depth r = None <-> r mod 100 = 99.
Proof.
  rewrite get_random_depth_mod.
  pose proof (Z.mod_pos_bound r 100 ltac:(lia)) as Hk.
  pose proof (bucket_ok_all (r mod 100) Hk) as H.
  unfold bucket_ok in H.
  destruct (get_random_depth (r mod 100)) as [d|].
  - split; [discriminate|]. intros E.
    rewrite !andb_true_iff in H. destruct H as [[[_ H] _] _].
    apply Z.ltb_lt in H. lia.
  - apply Z.eqb_eq in H. tauto.
Qed.

(** On the other 99 buckets the value is [ceil(-log2(1 - U) - 1)]: the
    integer [d] with [d - 1 < -log2(1 - U) - 1 <= d], and it lies in 0..6. *)
Lemma get_random_depth_is_ceiling (r d : Z) :
  get_random_depth r = Some d ->
  let U := (IZR (r mod 100 + 1) / 100)%R in
  0 <= d <= 6
  /\ (IZR d - 1 < - log2R (1 - U) - 1 <= IZR d)%R.
Proof.
  intros Hd U. rewrite get_random_depth_mod in Hd.
  pose proof (Z.mod_pos_bound r 100 ltac:(lia)) as Hk.
  pose proof (bucket_ok_all (r mod 100) Hk) as H.
  unfold bucket_ok in H. rewrite Hd in H.
  rewrite !andb_true_iff in H. destruct H as [[[[H0 H6] H99] Hlo] Hhi].
  apply Z.leb_le in H0, H6, Hhi. apply Z.ltb_lt in H99, Hlo.
  split; [lia|].
  set (num := 99 - r mod 100) in *.
  assert (HU : (1 - U = IZR num / 100)%R).
  { subst U num. rewrite minus_IZR, plus_IZR. field. }
  rewrite HU. clear HU U.
  assert (Hnum : (0 < IZR num)%R) by (apply IZR_lt; subst num; lia).
  assert (Hln2 : (0 < ln 2)%R) by (rewrite <- ln_1; apply ln_increasing; lra).
  assert (Hpow : forall e : Z, 0 <= e ->
            ln (IZR (2 ^ e * num)) = (IZR e * ln 2 + ln (IZR num))%R).
  { intros e He. rewrite mult_IZR, ln_mult; [|apply IZR_lt; lia|exact Hnum].
    rewrite <- (Z2Nat.id e He) at 1. rewrite <- pow_IZR, ln_pow by lra.
    rewrite INR_IZR_INZ, Z2Nat.id by lia. reflexivity. }
  assert (Hlo' : (IZR d * ln 2 + ln (IZR num) < ln 100)%R).
  { rewrite <- Hpow by lia. apply ln_increasing; [apply IZR_lt; lia|].
    apply IZR_lt. exact Hlo. }
  assert (Hhi' : (ln 100 <= IZR (d + 1) * ln 2 + ln (IZR num))%R).
  { rewrite <- Hpow by lia.
    apply IZR_le in Hhi. destruct Hhi as [Hlt|Heq].
    - left. apply ln_increasing; [lra|exact Hlt].
    - right. now rewrite Heq. }
  rewrite plus_IZR in Hhi'.
  assert (Hlog : (- log2R (IZR num / 100) = (ln 100 - ln (IZR num)) / ln 2)%R).
  { unfold log2R, Rdiv. rewrite ln_mult, ln_Rinv by lra. field. lra. }
  rewrite Hlog. clear Hlog.
  set (y := (ln 100 - ln (IZR num))%R) in *.
  assert (Hy1 : (IZR d < y / ln 2)%R).
  { apply Rmult_lt_reg_r with (ln 2); [exact Hln2|].
    unfold Rdiv. rewrite Rmult_assoc, Rinv_l by lra. subst y. lra. }
  assert (Hy2 : (y / ln 2 <= IZR d + 1)%R).
  { apply Rmult_le_reg_r with (ln 2); [exact Hln2|].
    unfold Rdiv. rewrite Rmult_assoc, Rinv_l by lra. subst y. lra. }
  lra.
Qed.

(** * Further properties of the worker *)

Section Coverage.
Context `{C : Collaborators} `{NO : !NodeOps}.

(** ** Limits of the driver *)

Lemma limit_ok_run limit counter s c :
  (limit <> 0 -> counter s = Some (c, s)) ->
  limit_ok limit counter s = Some (below_limit limit c, s).
Proof.
  intros H. unfold limit_ok, below_limit. destruct (limit =? 0) eqn:E.
  - reflexivity.
  - apply Z.eqb_neq in E. now rewrite (run_bind _ _ _ _ _ (H E)).
Qed.

(** X1: [nodes_limits_ok] with all three limits at zero is true without the
    root being read (it may even be unset); with a root it is the
    conjunction of the three tests "limit is zero or counter is strictly
    below it", and it changes nothing. *)
Theorem nodes_limits_ok_spec (s : Machine) (limits : SearchLimits) :
  searchLimits (thread s) = Some limits ->
  (nodes limits = 0 -> simulations limits = 0 -> nodesLimit limits = 0 ->
   nodes_limits_ok s = Some (true, s))
  /\ (forall p root,
        rootNode (thread s) = Some p -> tree s !! p = Some root ->
        nodes_limits_ok s
        = Some (below_limit (nodes limits) (get_node_count (tree s) p)
                && below_limit (simulations limits) (visits root)
                && below_limit (nodesLimit limits) (get_node_count (tree s) p), s)).
Proof.
  intros Hl. split.
  - intros H1 H2 H3. unfold nodes_limits_ok.
    unfold mbind at 1, M_bind at 1. cbn [get_thread].
    rewrite (run_bind _ _ _ _ _ (run_lift _ _ s Hl)).
    rewrite H1, H2, H3. reflexivity.
  - intros p root Hp Hroot.
    assert (Hcount : root_node_count s = Some (get_node_count (tree s) p, s)).
    { unfold root_node_count. unfold mbind at 1, M_bind at 1. cbn [get_thread].
      rewrite (run_bind _ _ _ _ _ (run_lift _ _ s Hp)).
      now rewrite (run_bind _ _ _ _ _ (run_deref _ _ _ Hroot)). }
    assert (Hvis : root_visits s = Some (visits root, s)).
    { unfold root_visits. unfold mbind at 1, M_bind at 1. cbn [get_thread].
      rewrite (run_bind _ _ _ _ _ (run_lift _ _ s Hp)).
      now rewrite (run_bind _ _ _ _ _ (run_deref _ _ _ Hroot)). }
    unfold nodes_limits_ok.
    unfold mbind at 1, M_bind at 1. cbn [get_thread].
    rewrite (run_bind _ _ _ _ _ (run_lift _ _ s Hl)).
    rewrite (run_bind _ _ _ _ _ (limit_ok_run (nodes limits) _ s _ (fun _ => Hcount))).
    destruct (below_limit (nodes limits) _); [|reflexivity].
    rewrite (run_bind _ _ _ _ _ (limit_ok_run (simulations limits) _ s _ (fun _ => Hvis))).
    destruct (below_limit (simulations limits) _); [|reflexivity].
    now rewrite (limit_ok_run (nodesLimit limits) _ s _ (fun _ => Hcount)).
Qed.

(** ** Choice of the network *)

Lemma max_element_None (m : PhaseCount.t) :
  PhaseCount.max_element m = None <-> m = [].
Proof.
  destruct m as [|[k c] m']; cbn [PhaseCount.max_element]; [tauto|].
  split; [|discriminate].
  destruct (PhaseCount.max_element m') as [[k' c']|]; [destruct (c <? c')|]; discriminate.
Qed.

Lemma max_element_first_largest (m : PhaseCount.t) (k c : Z) :
  PhaseCount.max_element m = Some (k, c) ->
  exists i,
    m !! i = Some (k, c)
    /\ (forall j e, m !! j = Some e -> snd e <= c)
    /\ (forall j e, (j < i)%nat -> m !! j = Some e -> snd e < c).
Proof.
  revert k c. induction m as [|[k0 c0] m' IH]; intros k c; cbn [PhaseCount.max_element].
  - discriminate.
  - destruct (PhaseCount.max_element m') as [[k' c']|] eqn:E.
    + destruct (IH k' c' eq_refl) as (i & Hi & Hmax & Hfirst).
      destruct (Z.ltb_spec c0 c').
      * intros [= <- <-]. exists (S i). split; [exact Hi|]. split.
        -- intros [|j] e Hj; cbn in Hj; [injection Hj as <-; cbn; lia|eauto].
        -- intros [|j] e Hlt Hj; cbn in Hj; [injection Hj as <-; cbn; lia|].
           apply (Hfirst j e); [lia|exact Hj].
      * intros [= <- <-]. exists 0%nat. split; [reflexivity|]. split.
        -- intros [|j] e Hj; cbn in Hj; [injection Hj as <-; cbn; lia|].
           specialize (Hmax j e Hj). lia.
        -- intros j e Hlt. lia.
    + apply max_element_None in E. subst m'.
      intros [= <- <-]. exists 0%nat. split; [reflexivity|]. split.
      * intros [|j] e Hj; cbn in Hj; [injection Hj as <-; cbn; lia|discriminate].
      * intros j e Hlt. lia.
Qed.

(** X2: with several networks [select_nn_index] picks the first phase, in
    the iteration order of the histogram (the order of the list [m]), whose
    count no other phase exceeds, returns the network mapped to it and
    clears the histogram; it has no result exactly when the histogram is
    empty or the phase has no network. *)
Theorem select_nn_index_majority (s : Machine) :
  length (nets (thread s)) <> 1%nat ->
  let m := phaseCountMap (staging (thread s)) in
  (forall i s',
     select_nn_index s = Some (i, s') ->
     exists pos k c,
       m !! pos = Some (k, c)
       /\ (forall j e, m !! j = Some e -> snd e <= c)
       /\ (forall j e, (j < pos)%nat -> m !! j = Some e -> snd e < c)
       /\ phase_net_at k (phaseToNetsIndex (thread s)) = Some i
       /\ s' = clear_histogram s)
  /\ (select_nn_index s = None <->
      m = [] \/ exists k c, PhaseCount.max_element m = Some (k, c)
                            /\ phase_net_at k (phaseToNetsIndex (thread s)) = None).
Proof.
  intros Hn m.
  assert (Hrun : select_nn_index s =
            match PhaseCount.max_element m with
            | Some pr =>
                match phase_net_at (fst pr) (phaseToNetsIndex (thread s)) with
                | Some i => Some (i, clear_histogram s)
                | None => None
                end
            | None => None
            end).
  { unfold select_nn_index. unfold mbind at 1, M_bind at 1. cbn [get_thread].
    apply Nat.eqb_neq in Hn. rewrite Hn. fold m.
    unfold mbind, M_bind, lift, modify_staging, modify_thread.
    destruct (PhaseCount.max_element m) as [pr|]; cbn; [|reflexivity].
    destruct (phase_net_at (fst pr) (phaseToNetsIndex (thread s))); reflexivity. }
  split.
  - intros i s' H. rewrite Hrun in H.
    destruct (PhaseCount.max_element m) as [[k c]|] eqn:E; [|discriminate].
    cbn [fst] in H.
    destruct (phase_net_at k (phaseToNetsIndex (thread s))) as [i'|] eqn:Ei; [|discriminate].
    injection H as <- <-.
    destruct (max_element_first_largest m k c E) as (pos & Hp & Hmax & Hfirst).
    exists pos, k, c. repeat split; assumption.
  - rewrite Hrun. destruct (PhaseCount.max_element m) as [[k c]|] eqn:E; cbn [fst].
    + destruct (phase_net_at k (phaseToNetsIndex (thread s))) as [i'|] eqn:Ei.
      * split; [discriminate|]. intros [Hm|(k' & c' & [= <- <-] & Hk)].
        -- apply max_element_None in Hm. congruence.
        -- congruence.
      * split; [|reflexivity]. intros _. right. exists k, c. auto.
    + split; [|reflexivity]. intros _. left. now apply max_element_None.
Qed.

(** ** Views that code leaves alone *)

Section Views.
Context {X : Type} (view : Machine -> X).

Lemma preserves_ret {A} (a : A) : preserves view (mret a).
Proof. intros s a' s' H. unfold mret, M_ret in H. now inversion H. Qed.

Lemma preserves_bind {A B} (m : M A) (f : A -> M B) :
  preserves view m -> (forall a, preserves view (f a)) -> preserves view (m ≫= f).
Proof.
  intros Hm Hf s b s2 H. apply inv_bind in H. destruct H as (a & s1 & H1 & H2).
  rewrite (Hf a _ _ _ H2). exact (Hm _ _ _ H1).
Qed.

Lemma preserves_undefined {A} : preserves view (undefined : M A).
Proof. intros s a s' H. discriminate. Qed.

Lemma preserves_lift {A} (o : option A) : preserves view (lift o).
Proof. intros s a s' H. apply inv_lift in H. now destruct H as [_ ->]. Qed.

Lemma preserves_deref p : preserves view (deref p).
Proof. intros s a s' H. apply inv_deref in H. now destruct H as [_ ->]. Qed.

Lemma preserves_get_thread : preserves view get_thread.
Proof. intros s a s' H. now inversion H. Qed.

Lemma preserves_get_tree : preserves view get_tree.
Proof. intros s a s' H. now inversion H. Qed.

Lemma preserves_get_table : preserves view get_table.
Proof. intros s a s' H. now inversion H. Qed.

Lemma preserves_modify_thread f :
  (forall s, view (on_thread f s) = view s) -> preserves view (modify_thread f).
Proof. intros Hv s a s' H. inversion H. apply Hv. Qed.

Lemma preserves_modify_tree f :
  (forall s t, view (set_tree t s) = view s) -> preserves view (modify_tree f).
Proof. intros Hv s a s' H. inversion H. apply (Hv s (f (tree s))). Qed.

Lemma preserves_put_table m :
  (forall s m, view (set_table m s) = view s) -> preserves view (put_table m).
Proof. intros Hv s a s' H. inversion H. apply (Hv s m). Qed.

Lemma preserves_rand :
  (forall s, view (after_rand s) = view s) -> preserves view rand.
Proof. intros Hv s a s' H. inversion H. apply Hv. Qed.

End Views.

Create HintDb pres.

#[local] Hint Resolve preserves_ret preserves_undefined preserves_lift preserves_deref
  preserves_get_thread preserves_get_tree preserves_get_table : pres.

(** Proves [preserves view m] for straight-line code whose updates the view
    ignores by computation. *)
Ltac pres_step :=
  match goal with
  | |- preserves _ (_ ≫= _) => apply preserves_bind; [|intros ?]
  | |- preserves _ (if ?b then _ else _) => destruct b
  | |- preserves _ (match ?x with _ => _ end) => destruct x
  | |- preserves _ (let '(_, _) := ?x in _) => destruct x
  | |- preserves _ _ => solve [auto with pres]
  | |- preserves _ (modify_thread _) =>
      apply preserves_modify_thread; intros; reflexivity
  | |- preserves _ (modify_staging _) =>
      apply preserves_modify_thread; intros; reflexivity
  | |- preserves _ (modify_scratch _) =>
      apply preserves_modify_thread; intros; reflexivity
  | |- preserves _ (modify_tree _) =>
      apply preserves_modify_tree; intros; reflexivity
  | |- preserves _ (store _ _) =>
      apply preserves_modify_tree; intros; reflexivity
  | |- preserves _ (put_table _) =>
      apply preserves_put_table; intros; reflexivity
  | |- preserves _ rand =>
      apply preserves_rand; intros; reflexivity
  end.

(** *** What a view has to ignore for the selector to leave it alone *)

Section Frame.
Context {X : Type} (view : Machine -> X).
Hypothesis Vtree : forall s t, view (set_tree t s) = view s.
Hypothesis Vtable : forall s m, view (set_table m s) = view s.
Hypothesis Vrand : forall s, view (after_rand s) = view s.
Hypothesis Vscratch : forall s f, view (on_thread (with_scratch f) s) = view s.
Hypothesis Vbuffers : forall s f, view (on_thread (with_buffers f) s) = view s.
Hypothesis Vvalues :
  forall s f, view (on_thread (with_staging (with_transpositionValues f)) s) = view s.
Hypothesis Vphase :
  forall s f, view (on_thread (with_staging (with_phaseCountMap f)) s) = view s.
Hypothesis Vside :
  forall s f, view (on_thread (with_staging (with_newNodeSideToMove f)) s) = view s.

Ltac frame_step :=
  match goal with
  | |- preserves _ (_ ≫= _) => apply preserves_bind; [|intros ?]
  | |- preserves _ (if ?b then _ else _) => destruct b
  | |- preserves _ (match ?x with _ => _ end) => destruct x
  | |- preserves _ (let '(_, _) := ?x in _) => destruct x
  | |- preserves _ _ => solve [auto with pres]
  | |- preserves _ (modify_scratch _) =>
      apply preserves_modify_thread; intros; apply Vscratch
  | |- preserves _ (modify_thread (with_buffers _)) =>
      apply preserves_modify_thread; intros; apply Vbuffers
  | |- preserves _ (modify_staging (with_transpositionValues _)) =>
      apply preserves_modify_thread; intros; apply Vvalues
  | |- preserves _ (modify_staging (with_phaseCountMap _)) =>
      apply preserves_modify_thread; intros; apply Vphase
  | |- preserves _ (modify_staging (with_newNodeSideToMove _)) =>
      apply preserves_modify_thread; intros; apply Vside
  | |- preserves _ (modify_tree _) => apply preserves_modify_tree; exact Vtree
  | |- preserves _ (store _ _) => apply preserves_modify_tree; exact Vtree
  | |- preserves _ (put_table _) => apply preserves_put_table; exact Vtable
  | |- preserves _ rand => apply preserves_rand; exact Vrand
  end.

Lemma frame_random_playout p : preserves view (random_playout p).
Proof. unfold random_playout. repeat frame_step. Qed.

Lemma frame_get_starting_node_loop steps p d i :
  preserves view (get_starting_node_loop steps p d i).
Proof.
  revert p d i. induction steps as [|steps IH]; intros p d i; cbn [get_starting_node_loop].
  - auto with pres.
  - repeat frame_step.
Qed.

Lemma frame_get_starting_node p d i : preserves view (get_starting_node p d i).
Proof.
  unfold get_starting_node.
  repeat first [ apply frame_get_starting_node_loop | frame_step ].
Qed.

Lemma frame_select_enhanced_move p : preserves view (select_enhanced_move p).
Proof. unfold select_enhanced_move. repeat frame_step. Qed.

Lemma frame_epsilon_hit c n : preserves view (epsilon_hit c n).
Proof. unfold epsilon_hit. repeat frame_step. Qed.

Lemma frame_select_start p n st : preserves view (select_start p n st).
Proof.
  unfold select_start.
  repeat first [ apply frame_epsilon_hit | apply frame_get_starting_node
               | apply frame_random_playout | apply frame_select_enhanced_move
               | frame_step ].
Qed.

Lemma frame_stage_transposition_value v : preserves view (stage_transposition_value v).
Proof. unfold stage_transposition_value. repeat frame_step. Qed.

Lemma frame_add_new_node_to_tree st p i : preserves view (add_new_node_to_tree st p i).
Proof.
  unfold add_new_node_to_tree.
  repeat first [ apply frame_stage_transposition_value | frame_step ].
Qed.

Lemma frame_expand_child p cur i : preserves view (expand_child p cur i).
Proof.
  unfold expand_child.
  repeat first [ apply frame_add_new_node_to_tree | frame_step ].
Qed.

Lemma frame_visit_child cur i nx : preserves view (visit_child cur i nx).
Proof.
  unfold visit_child.
  repeat first [ apply frame_stage_transposition_value | frame_step ].
Qed.

Lemma frame_select_pass p i : preserves view (select_pass p i).
Proof.
  unfold select_pass.
  repeat first [ apply frame_expand_child | apply frame_visit_child | frame_step ].
Qed.

Lemma frame_selection_loop fuel p i d : preserves view (selection_loop fuel p i d).
Proof.
  revert p i d. induction fuel as [|fuel IH]; intros p i d; cbn [selection_loop].
  - auto with pres.
  - repeat first [ apply frame_select_pass | apply IH | frame_step ].
Qed.

Lemma frame_get_new_child_to_evaluate fuel :
  preserves view (get_new_child_to_evaluate fuel).
Proof.
  unfold get_new_child_to_evaluate.
  repeat first [ apply frame_select_start | apply frame_selection_loop | frame_step ].
Qed.

End Frame.

(** ** Selection without exploration draws no random number *)

Lemma select_start_plain p root st s :
  epsilonGreedyCounter st = 0 -> epsilonChecksCounter st = 0 ->
  select_start p root st s = Some ((p, 0%nat, NO_CHILD), s).
Proof.
  intros Hg Hc. unfold select_start, epsilon_hit. rewrite Hg, Hc. reflexivity.
Qed.

Lemma get_new_child_no_rand fuel s r s' :
  epsilonGreedyCounter (searchSettings (thread s)) = 0 ->
  epsilonChecksCounter (searchSettings (thread s)) = 0 ->
  get_new_child_to_evaluate fuel s = Some (r, s') ->
  rand_calls s' = rand_calls s.
Proof.
  intros Hg Hc. unfold get_new_child_to_evaluate. intros H.
  unfold mbind at 1, M_bind at 1 in H. cbn [get_thread] in H.
  apply inv_bind in H. destruct H as (p & s1 & Hp & H).
  apply inv_lift in Hp. destruct Hp as [_ ->].
  apply inv_bind in H. destruct H as (root & s1 & Hroot & H).
  apply inv_deref in Hroot. destruct Hroot as [_ ->].
  rewrite (run_bind _ _ _ _ _ (select_start_plain p root _ s Hg Hc)) in H.
  revert H. apply (frame_selection_loop rand_calls); intros; reflexivity.
Qed.

Lemma mini_batch_step_split sel_fuel n s n1 s1 :
  mini_batch_step sel_fuel n s = Some (n1, s1) ->
  exists leaf desc s_sel,
    get_new_child_to_evaluate sel_fuel (cleared s) = Some ((leaf, desc), s_sel)
    /\ file_leaf leaf desc n s_sel = Some (n1, s1).
Proof.
  unfold mini_batch_step. intros H.
  apply inv_bind in H. destruct H as (u & s0 & Hclear & H).
  injection Hclear as _ <-.
  apply inv_bind in H. destruct H as ([leaf desc] & s_sel & Hsel & H).
  exists leaf, desc, s_sel. split; [exact Hsel|exact H].
Qed.

Lemma file_leaf_no_rand leaf desc n : preserves rand_calls (file_leaf leaf desc n).
Proof. unfold file_leaf. repeat pres_step. Qed.

Lemma mini_batch_step_no_rand sel_fuel n s n1 s1 :
  epsilonGreedyCounter (searchSettings (thread s)) = 0 ->
  epsilonChecksCounter (searchSettings (thread s)) = 0 ->
  mini_batch_step sel_fuel n s = Some (n1, s1) ->
  rand_calls s1 = rand_calls s.
Proof.
  intros Hg Hc H.
  destruct (mini_batch_step_split _ _ _ _ _ H) as (leaf & desc & s_sel & Hsel & Hfile).
  apply get_new_child_no_rand in Hsel; [|exact Hg|exact Hc].
  apply file_leaf_no_rand in Hfile. rewrite Hfile. exact Hsel.
Qed.

Lemma create_mini_batch_loop_no_rand fuel sel_fuel n s n' s' :
  epsilonGreedyCounter (searchSettings (thread s)) = 0 ->
  epsilonChecksCounter (searchSettings (thread s)) = 0 ->
  create_mini_batch_loop fuel sel_fuel n s = Some (n', s') ->
  rand_calls s' = rand_calls s
  /\ searchSettings (thread s') = searchSettings (thread s).
Proof.
  revert n s. induction fuel as [|fuel IH]; intros n s Hg Hc;
    rewrite create_mini_batch_loop_unfold;
    destruct (batch_open n (thread s)); try discriminate;
    try (intros [= <- <-]; split; reflexivity).
  intros H. apply inv_bind in H. destruct H as (n1 & s1 & Hstep & H).
  pose proof (mini_batch_step_no_rand _ _ _ _ _ Hg Hc Hstep) as Hr.
  destruct (mini_batch_step_dispatch _ _ _ _ _ Hstep)
    as (? & ? & ? & _ & _ & _ & _ & Hst & _).
  destruct (IH n1 s1 ltac:(now rewrite Hst) ltac:(now rewrite Hst) H) as [Hr' Hst'].
  split; congruence.
Qed.

Lemma backup_node_values_no_rand idx todo trajectories :
  preserves rand_calls (backup_node_values idx todo trajectories).
Proof.
  revert idx. induction todo as [|p rest IH]; intros idx; cbn [backup_node_values];
    repeat pres_step.
Qed.

Lemma backup_float_values_no_rand idx todo trajectories :
  preserves rand_calls (backup_float_values idx todo trajectories).
Proof.
  revert idx. induction todo as [|p rest IH]; intros idx; cbn [backup_float_values];
    repeat pres_step.
Qed.

Lemma set_nn_results_from_no_rand idx todo :
  preserves rand_calls (set_nn_results_from idx todo).
Proof.
  revert idx. induction todo as [|p rest IH]; intros idx; cbn [set_nn_results_from];
    repeat pres_step.
Qed.

#[local] Hint Resolve backup_node_values_no_rand backup_float_values_no_rand
  set_nn_results_from_no_rand : pres.

(** X3: with [epsilonGreedyCounter] and [epsilonChecksCounter] both zero, a
    whole worker iteration (batch assembly, network dispatch, backup) never
    calls [rand()]. *)
Theorem thread_iteration_draws_nothing (fuel sel_fuel : nat) (s s' : Machine) (u : unit) :
  epsilonGreedyCounter (searchSettings (thread s)) = 0 ->
  epsilonChecksCounter (searchSettings (thread s)) = 0 ->
  thread_iteration fuel sel_fuel s = Some (u, s') ->
  rand_calls s' = rand_calls s.
Proof.
  intros Hg Hc. unfold thread_iteration. intros H.
  apply inv_bind in H. destruct H as (n1 & s1 & Hbatch & H).
  destruct (create_mini_batch_loop_no_rand _ _ _ _ _ _ Hg Hc Hbatch) as [Hr _].
  rewrite <- Hr. revert H.
  match goal with
  | |- ?m s1 = Some (u, s') -> _ =>
      assert (Hp : preserves rand_calls m); [|exact (Hp s1 u s')]
  end.
  unfold select_nn_index, set_nn_results_to_child_nodes, backup_value_outputs,
    backup_collisions.
  repeat pres_step.
Qed.

(** ** The side-to-move vector, the histogram and the parallel containers *)

Lemma total_app (m1 m2 : PhaseCount.t) :
  PhaseCount.total (m1 ++ m2) = PhaseCount.total m1 + PhaseCount.total m2.
Proof.
  induction m1 as [|e m1 IH]; [reflexivity|].
  unfold PhaseCount.total in *. cbn [app fold_right]. lia.
Qed.

Lemma total_bump (p : GamePhase) (m m' : PhaseCount.t) :
  PhaseCount.bump p m = Some m' -> PhaseCount.total m' = PhaseCount.total m + 1.
Proof.
  revert m'. induction m as [|[k c] m IH]; intros m'; cbn [PhaseCount.bump].
  - discriminate.
  - destruct (p =? k).
    + intros [= <-]. unfold PhaseCount.total. cbn [fold_right snd]. lia.
    + destruct (PhaseCount.bump p m) as [m1|]; [|discriminate].
      intros [= <-]. specialize (IH m1 eq_refl).
      unfold PhaseCount.total in *. cbn [fold_right snd]. lia.
Qed.

Lemma total_incr (p : GamePhase) (m : PhaseCount.t) :
  PhaseCount.total (PhaseCount.incr p m) = PhaseCount.total m + 1.
Proof.
  unfold PhaseCount.incr. destruct (PhaseCount.bump p m) as [m'|] eqn:E.
  - exact (total_bump p m m' E).
  - cbv zeta. set (i := phase_slot p m).
    assert (E2 : PhaseCount.total m
                 = PhaseCount.total (take i m) + PhaseCount.total (drop i m))
      by (now rewrite <- total_app, take_drop).
    rewrite total_app, E2.
    change (PhaseCount.total ((p, 1) :: drop i m))
      with (1 + PhaseCount.total (drop i m)).
    lia.
Qed.

Lemma counted_side_l ty s0 s1 s' :
  side_view s1 = side_view s0 -> counted ty s1 s' -> counted ty s0 s'.
Proof.
  unfold side_view. intros [= Hv Hm]. destruct ty; cbn [counted]; unfold side_view;
    try (intros [= -> ->]; congruence).
  cbv zeta. rewrite Hv, Hm. auto.
Qed.

Lemma counted_side_r ty s s1 s' :
  counted ty s s1 -> side_view s' = side_view s1 -> counted ty s s'.
Proof.
  unfold side_view. intros H [= Hv Hm]. destruct ty; cbn [counted] in *;
    unfold side_view in *; try congruence.
  cbv zeta in *. rewrite Hv, Hm. exact H.
Qed.

(** Peels a prefix that leaves [side_view] alone off a run. *)
Ltac skip_side H :=
  let a := fresh "a" in
  let s1 := fresh "s" in
  let Hq := fresh "Hq" in
  let Hc := fresh "Hside" in
  apply inv_bind in H; destruct H as (a & s1 & Hq & H);
  match type of Hq with
  | ?m ?s0 = Some _ =>
      assert (Hc : side_view s1 = side_view s0)
        by (refine ((_ : preserves side_view m) s0 a s1 Hq); repeat pres_step)
  end.

Ltac side_here H s Hs :=
  match type of H with
  | _ ?sx = Some _ => assert (Hs : side_view sx = side_view s) by congruence
  end.

Lemma add_new_node_to_tree_side st p i : preserves side_view (add_new_node_to_tree st p i).
Proof. apply frame_add_new_node_to_tree; intros; reflexivity. Qed.

Lemma expand_child_counted p cur i s r s' :
  expand_child p cur i s = Some (r, s') ->
  exists n ty, r = Leaf n ty /\ counted ty s s'.
Proof.
  unfold expand_child. intros H.
  skip_side H. skip_side H. skip_side H. skip_side H. skip_side H.
  apply inv_bind in H. destruct H as ([n ty] & sx & Hadd & H).
  apply add_new_node_to_tree_side in Hadd.
  assert (Hs : side_view sx = side_view s) by congruence.
  exists n, ty.
  destruct ty; try (injection H as <- <-; split; [reflexivity|exact Hs]).
  unfold mbind at 1, M_bind at 1 in H. cbn [get_thread] in H.
  apply inv_bind in H. destruct H as (net & sy & Hl & H).
  apply inv_lift in Hl. destruct Hl as [_ ->].
  apply inv_bind in H. destruct H as (planes & sy & Hl & H).
  apply inv_lift in Hl. destruct Hl as [_ ->].
  apply inv_bind in H. destruct H as (? & sy & Hl & H). injection Hl as _ <-.
  apply inv_bind in H. destruct H as (? & sy & Hl & H). injection Hl as _ <-.
  apply inv_bind in H. destruct H as (stm & sy & Hl & H).
  apply inv_lift in Hl. destruct Hl as [Hadd' ->].
  apply inv_bind in H. destruct H as (? & sy & Hl & H). injection Hl as _ <-.
  injection H as <- <-. split; [reflexivity|].
  apply (counted_side_l _ s sx _ Hs). cbn [counted]. cbv zeta.
  unfold FixedVector.add_element in Hadd'.
  destruct (Nat.ltb_spec (FixedVector.size (newNodeSideToMove (staging (thread sx))))
                         (FixedVector.capacity (newNodeSideToMove (staging (thread sx)))));
    [|discriminate].
  injection Hadd' as <-. eexists _, _. split; [reflexivity|]. split; [assumption|].
  reflexivity.
Qed.

Lemma visit_child_side cur i nx s r s' :
  visit_child cur i nx s = Some (r, s') ->
  side_view s' = side_view s
  /\ (forall n, r <> Leaf n NODE_NEW_NODE).
Proof.
  intros H. split.
  - revert H. apply frame_visit_child; intros; reflexivity.
  - unfold visit_child in H.
    unfold mbind at 1, M_bind at 1 in H. cbn [get_thread] in H.
    apply inv_bind in H. destruct H as (node & sx & Hl & H).
    assert (Hdescend : forall sy,
              (a ← lift (get_action cur i);
               modify_scratch (with_actionsBuffer (fun b => b ++ [a]));;
               mret (Descend nx)) sy = Some (r, s') ->
              forall n, r <> Leaf n NODE_NEW_NODE).
    { intros sy H0. apply inv_bind in H0. destruct H0 as (? & ? & _ & H0).
      apply inv_bind in H0. destruct H0 as (? & ? & _ & H0).
      injection H0 as <- _. discriminate. }
    destruct (is_terminal node); [injection H as <- _; discriminate|].
    destruct (negb (has_nn_results node)); [injection H as <- _; discriminate|].
    destruct (is_transposition node); [|now apply (Hdescend sx)].
    destruct (is_transposition_return node _); [|now apply (Hdescend sx)].
    apply inv_bind in H. destruct H as (? & ? & _ & H).
    injection H as <- _. discriminate.
Qed.

Lemma select_pass_counted p i s r s' :
  select_pass p i s = Some (r, s') ->
  match r with
  | Leaf _ ty => counted ty s s'
  | Descend _ => side_view s' = side_view s
  end.
Proof.
  unfold select_pass. intros H.
  skip_side H. skip_side H. skip_side H. skip_side H.
  apply inv_bind in H. destruct H as (link & sx & Hlink & H).
  apply inv_lift in Hlink. destruct Hlink as [_ ->].
  side_here H s Hs.
  destruct link as [nx|].
  - destruct (visit_child_side _ _ _ _ _ _ H) as [Hv Hnew].
    destruct r as [n ty|n]; [|congruence].
    destruct ty; cbn [counted]; try congruence; try (now destruct (Hnew n)).
  - apply expand_child_counted in H. destruct H as (n & ty & -> & H).
    eapply counted_side_l; eassumption.
Qed.

Lemma selection_loop_counted fuel p i d s n desc s' :
  selection_loop fuel p i d s = Some ((n, desc), s') -> counted (type desc) s s'.
Proof.
  revert p i d s. induction fuel as [|fuel IH]; intros p i d s; cbn [selection_loop].
  - discriminate.
  - intros H. apply inv_bind in H. destruct H as (r & s1 & Hpass & H).
    apply select_pass_counted in Hpass. destruct r as [n' ty|n'].
    + injection H as <- <- <-. exact Hpass.
    + apply IH in H. eapply counted_side_l; eassumption.
Qed.

Lemma get_new_child_counted fuel s n desc s' :
  get_new_child_to_evaluate fuel s = Some ((n, desc), s') -> counted (type desc) s s'.
Proof.
  unfold get_new_child_to_evaluate. intros H.
  skip_side H. skip_side H. skip_side H.
  apply inv_bind in H. destruct H as ([[p d] i] & sx & Hstart & H).
  assert (Hs : side_view sx = side_view s).
  { transitivity (side_view s2); [|congruence].
    revert Hstart. apply frame_select_start; intros; reflexivity. }
  apply selection_loop_counted in H.
  eapply counted_side_l; eassumption.
Qed.

Lemma file_leaf_side leaf desc n : preserves side_view (file_leaf leaf desc n).
Proof. unfold file_leaf. repeat pres_step. Qed.

Lemma counted_fields ty s s' :
  counted ty s s' ->
  let b := staging (thread s) in
  let b' := staging (thread s') in
  FixedVector.size (newNodeSideToMove b')
  = (FixedVector.size (newNodeSideToMove b) + if ty is NODE_NEW_NODE then 1 else 0)%nat
  /\ PhaseCount.total (phaseCountMap b')
     = PhaseCount.total (phaseCountMap b) + (if ty is NODE_NEW_NODE then 1 else 0).
Proof.
  intros H b b'.
  destruct ty; cbn [counted] in H;
    try (unfold side_view in H; injection H as Hv Hm; fold b b' in Hv, Hm;
         rewrite Hv, Hm; split; lia).
  cbv zeta in H. destruct H as (side & phase & Hv & _ & Hm). fold b b' in Hv, Hm.
  rewrite Hv, Hm, total_incr. unfold FixedVector.size. cbn. rewrite length_app. cbn.
  split; lia.
Qed.

Lemma mini_batch_step_parallel sel_fuel n s n1 s1 :
  mini_batch_step sel_fuel n s = Some (n1, s1) ->
  aligned s ->
  aligned s1
  /\ PhaseCount.total (phaseCountMap (staging (thread s1)))
     - Z.of_nat (FixedVector.size (newNodes (staging (thread s1))))
     = PhaseCount.total (phaseCountMap (staging (thread s)))
       - Z.of_nat (FixedVector.size (newNodes (staging (thread s)))).
Proof.
  intros Hstep (A1 & A2 & A3).
  destruct (mini_batch_step_dispatch _ _ _ _ _ Hstep)
    as (leaf & desc & s_sel & Hsel & Hselected & Hdisp & Htv1 & _).
  destruct (mini_batch_step_split _ _ _ _ _ Hstep)
    as (leaf' & desc' & s_sel' & Hsel' & Hfile).
  rewrite Hsel in Hsel'. injection Hsel' as <- <- <-.
  apply file_leaf_side in Hfile.
  pose proof (get_new_child_counted _ _ _ _ _ Hsel) as Hcount.
  apply (counted_side_l _ s (cleared s) _ eq_refl) in Hcount.
  destruct (counted_fields _ _ _ Hcount) as [Hv Hm]. cbv zeta in Hv, Hm.
  destruct (selected_fields _ _ _ Hselected) as (_ & _ & _ & _ & _ & Htv & _).
  cbv zeta in Htv.
  unfold side_view in Hfile. injection Hfile as Hv1 Hm1.
  unfold aligned, dispatched in *. cbv zeta in *.
  rewrite Hv1, Hm1, Htv1, Hv, Hm, Htv.
  destruct (type desc).
  - destruct Hdisp as (_ & _ & _ & Hnn & Hnt & Htt). rewrite Hnn, Hnt, Htt.
    repeat split; lia.
  - destruct Hdisp as (_ & _ & Hnn & Hnt & _ & Htt). rewrite Hnn, Hnt, Htt.
    repeat split; lia.
  - destruct Hdisp as (_ & _ & Htt & Hnn & Hnt & _). rewrite Hnn, Hnt, Htt, length_app.
    cbn. repeat split; lia.
  - destruct Hdisp as (_ & _ & He & _ & Hnt & _ & Htt).
    unfold FixedVector.size in *. rewrite He, Hnt, Htt, !length_app. cbn.
    repeat split; lia.
Qed.

Lemma create_mini_batch_loop_parallel fuel sel_fuel n s n' s' :
  create_mini_batch_loop fuel sel_fuel n s = Some (n', s') ->
  aligned s ->
  aligned s'
  /\ PhaseCount.total (phaseCountMap (staging (thread s')))
     - Z.of_nat (FixedVector.size (newNodes (staging (thread s'))))
     = PhaseCount.total (phaseCountMap (staging (thread s)))
       - Z.of_nat (FixedVector.size (newNodes (staging (thread s)))).
Proof.
  revert n s. induction fuel as [|fuel IH]; intros n s;
    rewrite create_mini_batch_loop_unfold;
    destruct (batch_open n (thread s)); try discriminate;
    try (intros [= <- <-] Ha; split; [exact Ha|reflexivity]).
  intros H Ha. apply inv_bind in H. destruct H as (n1 & s1 & Hstep & H).
  destruct (mini_batch_step_parallel _ _ _ _ _ Hstep Ha) as [Ha1 Hd1].
  destruct (IH _ _ H Ha1) as [Ha' Hd']. split; [exact Ha'|lia].
Qed.

(** X4: [create_mini_batch] keeps the parallel containers in step: coming
    from lengths that match, [newNodeSideToMove] and [newTrajectories] end
    as long as [newNodes], and [transpositionTrajectories] as long as
    [transpositionValues]; and the histogram has gained exactly one count per
    leaf added to [newNodes]. *)
Theorem create_mini_batch_keeps_parallel (fuel sel_fuel : nat) (s s' : Machine) (n' : nat) :
  aligned s ->
  create_mini_batch fuel sel_fuel s = Some (n', s') ->
  aligned s'
  /\ PhaseCount.total (phaseCountMap (staging (thread s')))
     - PhaseCount.total (phaseCountMap (staging (thread s)))
     = Z.of_nat (FixedVector.size (newNodes (staging (thread s'))))
       - Z.of_nat (FixedVector.size (newNodes (staging (thread s)))).
Proof.
  intros Ha H. unfold create_mini_batch in H.
  destruct (create_mini_batch_loop_parallel _ _ _ _ _ _ H Ha) as [Ha' Hd].
  split; [exact Ha'|lia].
Qed.

Lemma histogram_covers_batch_aux fuel sel_fuel s n' s' :
  aligned s -> covered s ->
  create_mini_batch fuel sel_fuel s = Some (n', s') ->
  covered s'.
Proof.
  intros Ha Hc H. unfold create_mini_batch in H.
  destruct (create_mini_batch_loop_parallel _ _ _ _ _ _ H Ha) as [_ Hd].
  unfold covered in *. lia.
Qed.

(** X5: after [create_mini_batch], from a state whose containers were in
    step and whose histogram had counted the staged leaves, a non-empty
    [newNodes] comes with a non-empty histogram: [select_nn_index] never
    takes the maximum of an empty map. *)
Theorem histogram_covers_batch (fuel sel_fuel : nat) (s s' : Machine) (n' : nat) :
  aligned s -> covered s ->
  create_mini_batch fuel sel_fuel s = Some (n', s') ->
  covered s'
  /\ (FixedVector.size (newNodes (staging (thread s'))) <> 0%nat ->
      exists k c, PhaseCount.max_element (phaseCountMap (staging (thread s'))) = Some (k, c)).
Proof.
  intros Ha Hc H. unfold create_mini_batch in H.
  destruct (create_mini_batch_loop_parallel _ _ _ _ _ _ H Ha) as [_ Hd].
  unfold covered in *.
  assert (Hc' : Z.of_nat (FixedVector.size (newNodes (staging (thread s'))))
                <= PhaseCount.total (phaseCountMap (staging (thread s')))) by lia.
  split; [exact Hc'|]. intros Hne.
  destruct (PhaseCount.max_element (phaseCountMap (staging (thread s'))))
    as [[k c]|] eqn:E; [eauto|].
  apply max_element_None in E. rewrite E in Hc'. cbn in Hc'. lia.
Qed.

Lemma network_block_staging (s1 s2 : Machine) (u : unit) :
  (if negb (Nat.eqb (FixedVector.size (newNodes (staging (thread s1)))) 0) then
     i ← select_nn_index;
     net ← lift (nets (thread s1) !! i);
     modify_thread (with_buffers (with_outputs (predict net (inputPlanes (buffers (thread s1))))));;
     set_nn_results_to_child_nodes
   else mret tt) s1 = Some (u, s2) ->
  staging (thread s2) = staging (thread s1)
  \/ staging (thread s2) = with_phaseCountMap PhaseCount.clear (staging (thread s1)).
Proof.
  destruct (negb _).
  - intros H. apply inv_bind in H. destruct H as (i & sa & Hidx & H).
    assert (Ha : staging (thread sa) = staging (thread s1)
                 \/ staging (thread sa)
                    = with_phaseCountMap PhaseCount.clear (staging (thread s1))).
    { unfold select_nn_index in Hidx.
      unfold mbind at 1, M_bind at 1 in Hidx. cbn [get_thread] in Hidx.
      destruct (Nat.eqb _ 1).
      - injection Hidx as _ <-. now left.
      - apply inv_bind in Hidx. destruct Hidx as (pr & sb & Hl & Hidx).
        apply inv_lift in Hl. destruct Hl as [_ ->].
        apply inv_bind in Hidx. destruct Hidx as (? & sb & Hl & Hidx).
        injection Hl as _ <-. apply inv_lift in Hidx. destruct Hidx as [_ ->].
        now right. }
    apply inv_bind in H. destruct H as (net & sb & Hl & H).
    apply inv_lift in Hl. destruct Hl as [_ ->].
    apply inv_bind in H. destruct H as (? & sb & Hl & H). injection Hl as _ <-.
    unfold set_nn_results_to_child_nodes in H.
    unfold mbind at 1, M_bind at 1 in H. cbn [get_thread] in H.
    apply set_nn_results_from_staging in H. rewrite H. exact Ha.
  - intros [= _ <-]. now left.
Qed.

Lemma thread_iteration_invariants fuel sel_fuel s s' u :
  sized s -> fits s -> aligned s -> covered s ->
  thread_iteration fuel sel_fuel s = Some (u, s') ->
  sized s' /\ fits s' /\ aligned s' /\ covered s' /\ drained s'.
Proof.
  intros Hsized Hfits Ha Hc Hrun.
  destruct (thread_iteration_keeps_ready _ _ _ _ _ Hsized Hfits Hrun) as [Hs' Hf'].
  split; [exact Hs'|]. split; [exact Hf'|].
  unfold thread_iteration in Hrun.
  apply inv_bind in Hrun. destruct Hrun as (n1 & s1 & Hbatch & H).
  pose proof (histogram_covers_batch_aux _ _ _ _ _ Ha Hc Hbatch) as Hc1.
  unfold mbind at 1, M_bind at 1 in H. cbn [get_thread] in H.
  apply inv_bind in H. destruct H as (? & s2 & Hnet & H).
  apply network_block_staging in Hnet.
  apply inv_bind in H. destruct H as (? & s3 & Hout & H).
  destruct (backup_resets_staging _ _ _ _ _ Hout H)
    as (Z1 & Z2 & Z3 & Z4 & Z5 & Z6 & Hp & _).
  unfold aligned, covered, drained in *. cbv zeta.
  rewrite Z1, Z2, Z3, Z4, Z5, Z6, Hp. split; [repeat split; reflexivity|].
  split; [|repeat split; reflexivity].
  destruct Hnet as [-> | ->]; cbn; lia.
Qed.

(** X6: every worker iteration hands the staging area back as it needs it:
    the vectors have the constructor's capacities and are within them, the
    parallel containers are in step (all empty), and the histogram has
    counted at least what is staged. *)
Theorem thread_iteration_keeps_invariants (fuel sel_fuel : nat) (s s' : Machine) (u : unit) :
  sized s -> fits s -> aligned s -> covered s ->
  thread_iteration fuel sel_fuel s = Some (u, s') ->
  sized s' /\ fits s' /\ aligned s' /\ covered s'.
Proof.
  intros Hsized Hfits Ha Hc Hrun.
  destruct (thread_iteration_invariants _ _ _ _ _ Hsized Hfits Ha Hc Hrun)
    as (H1 & H2 & H3 & H4 & _).
  split; [exact H1|]. split; [exact H2|]. split; [exact H3|exact H4].
Qed.

(** ** Depth, recorded actions and trajectory *)

Ltac skip_path H :=
  let a := fresh "a" in
  let s1 := fresh "s" in
  let Hq := fresh "Hq" in
  let Hc := fresh "Hpath" in
  apply inv_bind in H; destruct H as (a & s1 & Hq & H);
  match type of Hq with
  | ?m ?s0 = Some _ =>
      assert (Hc : path_view s1 = path_view s0)
        by (refine ((_ : preserves path_view m) s0 a s1 Hq); repeat pres_step)
  end.

Lemma path_fields s s' :
  path_view s' = path_view s ->
  trajectoryBuffer (scratch (thread s')) = trajectoryBuffer (scratch (thread s))
  /\ actionsBuffer (scratch (thread s')) = actionsBuffer (scratch (thread s)).
Proof. unfold path_view. intros [= -> ->]. split; reflexivity. Qed.

Lemma get_starting_node_loop_path steps p d i s p' d' i' s' :
  get_starting_node_loop steps p d i s = Some ((p', d', i'), s') ->
  (d <= d' <= d + steps)%nat
  /\ trajectoryBuffer (scratch (thread s')) = trajectoryBuffer (scratch (thread s))
  /\ (length (actionsBuffer (scratch (thread s')))
      = length (actionsBuffer (scratch (thread s))) + (d' - d))%nat.
Proof.
  revert p d i s. induction steps as [|steps IH]; intros p d i s;
    cbn [get_starting_node_loop].
  - intros [= <- <- <- <-]. repeat split; lia.
  - intros H. unfold mbind at 1, M_bind at 1 in H. cbn [get_thread] in H.
    apply inv_bind in H. destruct H as (cur & sa & Hl & H).
    apply inv_deref in Hl. destruct Hl as [_ ->].
    apply inv_bind in H. destruct H as (link & sa & Hl & H).
    apply inv_lift in Hl. destruct Hl as [_ ->].
    destruct link as [nx|]; [|injection H as <- <- <- <-; repeat split; lia].
    apply inv_bind in H. destruct H as (node & sa & Hl & H).
    apply inv_deref in Hl. destruct Hl as [_ ->].
    destruct (_ || _); [injection H as <- <- <- <-; repeat split; lia|].
    apply inv_bind in H. destruct H as (a & sa & Hl & H).
    apply inv_lift in Hl. destruct Hl as [_ ->].
    apply inv_bind in H. destruct H as (? & sa & Hl & H). injection Hl as _ <-.
    destruct (IH _ _ _ _ H) as (Hd & Ht & Ha). cbn in Ht, Ha.
    rewrite length_app in Ha. cbn in Ha. repeat split; [lia|lia|exact Ht|lia].
Qed.

Lemma select_start_path p root st s p' d' i' s' :
  select_start p root st s = Some ((p', d', i'), s') ->
  trajectoryBuffer (scratch (thread s')) = trajectoryBuffer (scratch (thread s))
  /\ (length (actionsBuffer (scratch (thread s')))
      = length (actionsBuffer (scratch (thread s))) + d')%nat
  /\ (d' <= 6)%nat
  /\ (epsilonGreedyCounter st = 0 -> epsilonChecksCounter st = 0 -> d' = 0%nat).
Proof.
  assert (Hstart : forall sa r sb,
            get_starting_node p 0 NO_CHILD sa = Some (r, sb) ->
            trajectoryBuffer (scratch (thread sb)) = trajectoryBuffer (scratch (thread sa))
            /\ (length (actionsBuffer (scratch (thread sb)))
                = length (actionsBuffer (scratch (thread sa))) + r.1.2)%nat
            /\ (r.1.2 <= 6)%nat).
  { intros sa [[q e] j] sb H. unfold get_starting_node in H.
    apply inv_bind in H. destruct H as (rnd & sc & Hl & H). injection Hl as _ <-.
    apply inv_bind in H. destruct H as (dep & sc & Hl & H).
    apply inv_lift in Hl. destruct Hl as [Hdep ->].
    destruct (get_starting_node_loop_path _ _ _ _ _ _ _ _ _ H) as (Hd & Ht & Ha).
    destruct (get_random_depth_is_ceiling _ _ Hdep) as [Hrange _].
    cbn [fst snd]. cbn in Ht, Ha. split; [exact Ht|]. split; [lia|].
    assert (Z.to_nat dep <= 6)%nat by lia. lia. }
  assert (Hplay : forall q sa r sb,
            random_playout q sa = Some (r, sb) -> path_view sb = path_view sa).
  { intros q. apply frame_random_playout; intros; reflexivity. }
  assert (Hmove : forall q sa r sb,
            select_enhanced_move q sa = Some (r, sb) -> path_view sb = path_view sa).
  { intros q. apply frame_select_enhanced_move; intros; reflexivity. }
  assert (Hhit : forall c sa r sb,
            epsilon_hit c root sa = Some (r, sb) ->
            path_view sb = path_view sa /\ (c = 0 -> r = false)).
  { intros c sa r sb H. split.
    - revert H. apply frame_epsilon_hit; intros; reflexivity.
    - intros ->. unfold epsilon_hit in H. cbn in H. now injection H as <- _. }
  unfold select_start. intros H.
  apply inv_bind in H. destruct H as (greedy & s1 & Hg & H).
  destruct (Hhit _ _ _ _ Hg) as [Hp1 Hz1]. apply path_fields in Hp1. destruct Hp1 as [T1 A1].
  destruct greedy.
  - apply inv_bind in H. destruct H as ([[q e] j] & s2 & Hs & H).
    destruct (Hstart _ _ _ Hs) as (T2 & A2 & D2). cbn [fst snd] in A2, D2.
    apply inv_bind in H. destruct H as (idx & s3 & Hr & H).
    apply Hplay in Hr. apply path_fields in Hr. destruct Hr as [T3 A3].
    injection H as <- <- <- <-.
    split; [congruence|]. split; [rewrite A3, A2, A1; reflexivity|]. split; [exact D2|].
    intros Hz. now specialize (Hz1 Hz).
  - apply inv_bind in H. destruct H as (checks & s2 & Hc & H).
    destruct (Hhit _ _ _ _ Hc) as [Hp2 Hz2]. apply path_fields in Hp2. destruct Hp2 as [T2 A2].
    destruct checks.
    + apply inv_bind in H. destruct H as ([[q e] j] & s3 & Hs & H).
      destruct (Hstart _ _ _ Hs) as (T3 & A3 & D3). cbn [fst snd] in A3, D3.
      apply inv_bind in H. destruct H as (idx & s4 & Hm & H).
      apply Hmove in Hm. apply path_fields in Hm. destruct Hm as [T4 A4].
      apply inv_bind in H. destruct H as (idx' & s5 & Hr & H).
      assert (Hp5 : path_view s5 = path_view s4).
      { destruct (idx =? NO_CHILD); [now apply Hplay in Hr|now injection Hr as _ <-]. }
      apply path_fields in Hp5. destruct Hp5 as [T5 A5].
      injection H as <- <- <- <-.
      split; [congruence|]. split; [rewrite A5, A4, A3, A2, A1; reflexivity|].
      split; [exact D3|]. intros _ Hz. now specialize (Hz2 Hz).
    + injection H as <- <- <- <-.
      split; [congruence|]. split; [rewrite A2, A1; lia|]. split; [lia|]. reflexivity.
Qed.

Lemma stage_transposition_value_path v : preserves path_view (stage_transposition_value v).
Proof. apply frame_stage_transposition_value; intros; reflexivity. Qed.

Lemma add_new_node_to_tree_path st p i : preserves path_view (add_new_node_to_tree st p i).
Proof. apply frame_add_new_node_to_tree; intros; reflexivity. Qed.

#[local] Hint Resolve stage_transposition_value_path add_new_node_to_tree_path : pres.

Lemma expand_child_path p cur i : preserves path_view (expand_child p cur i).
Proof. unfold expand_child. repeat pres_step. Qed.

Lemma visit_child_path cur i nx s r s' :
  visit_child cur i nx s = Some (r, s') ->
  trajectoryBuffer (scratch (thread s')) = trajectoryBuffer (scratch (thread s))
  /\ match r with
     | Leaf _ _ => actionsBuffer (scratch (thread s')) = actionsBuffer (scratch (thread s))
     | Descend _ =>
         exists a, actionsBuffer (scratch (thread s'))
                   = actionsBuffer (scratch (thread s)) ++ [a]
     end.
Proof.
  unfold visit_child. intros H.
  unfold mbind at 1, M_bind at 1 in H. cbn [get_thread] in H.
  apply inv_bind in H. destruct H as (node & sx & Hl & H).
  apply inv_deref in Hl. destruct Hl as [_ ->].
  assert (Hdescend :
            (a ← lift (get_action cur i);
             modify_scratch (with_actionsBuffer (fun b => b ++ [a]));;
             mret (Descend nx)) s = Some (r, s') ->
            trajectoryBuffer (scratch (thread s')) = trajectoryBuffer (scratch (thread s))
            /\ match r with
               | Leaf _ _ =>
                   actionsBuffer (scratch (thread s')) = actionsBuffer (scratch (thread s))
               | Descend _ =>
                   exists a, actionsBuffer (scratch (thread s'))
                             = actionsBuffer (scratch (thread s)) ++ [a]
               end).
  { intros H0. apply inv_bind in H0. destruct H0 as (a & sy & Hl & H0).
    apply inv_lift in Hl. destruct Hl as [_ ->].
    apply inv_bind in H0. destruct H0 as (? & sy & Hl & H0). injection Hl as _ <-.
    injection H0 as <- <-. split; [reflexivity|]. exists a. reflexivity. }
  destruct (is_terminal node); [injection H as <- <-; split; reflexivity|].
  destruct (negb (has_nn_results node)); [injection H as <- <-; split; reflexivity|].
  destruct (is_transposition node); [|now apply Hdescend].
  destruct (is_transposition_return node _); [|now apply Hdescend].
  apply inv_bind in H. destruct H as (? & sy & Hst & H).
  apply stage_transposition_value_path in Hst. apply path_fields in Hst.
  injection H as <- <-. exact Hst.
Qed.

Lemma select_pass_path p i s r s' :
  select_pass p i s = Some (r, s') ->
  (exists idx, trajectoryBuffer (scratch (thread s'))
               = trajectoryBuffer (scratch (thread s)) ++ [(p, idx)])
  /\ match r with
     | Leaf _ _ => actionsBuffer (scratch (thread s')) = actionsBuffer (scratch (thread s))
     | Descend _ =>
         exists a, actionsBuffer (scratch (thread s'))
                   = actionsBuffer (scratch (thread s)) ++ [a]
     end.
Proof.
  unfold select_pass. intros H.
  unfold mbind at 1, M_bind at 1 in H. cbn [get_thread] in H.
  apply inv_bind in H. destruct H as (cur & sx & Hl & H).
  apply inv_deref in Hl. destruct Hl as [_ ->].
  apply inv_bind in H. destruct H as (? & sx & Hl & H). injection Hl as _ <-.
  apply inv_bind in H. destruct H as (? & sx & Hl & H). injection Hl as _ <-.
  apply inv_bind in H. destruct H as (link & sx & Hl & H).
  apply inv_lift in Hl. destruct Hl as [_ ->].
  destruct link as [nx|].
  - destruct (visit_child_path _ _ _ _ _ _ H) as [Ht Ha]. cbn in Ht, Ha.
    split; [eexists; exact Ht|exact Ha].
  - pose proof (expand_child_selected _ _ _ _ _ _ H) as (n & ty & -> & _).
    apply expand_child_path in H. apply path_fields in H. cbn in H.
    destruct H as [Ht Ha]. split; [eexists; exact Ht|exact Ha].
Qed.

Lemma selection_loop_path fuel p i d s n desc s' :
  selection_loop fuel p i d s = Some ((n, desc), s') ->
  exists idx rest,
    trajectoryBuffer (scratch (thread s'))
    = trajectoryBuffer (scratch (thread s)) ++ (p, idx) :: rest
    /\ depth desc = (d + S (length rest))%nat
    /\ (length (actionsBuffer (scratch (thread s')))
        = length (actionsBuffer (scratch (thread s))) + length rest)%nat.
Proof.
  revert p i d s. induction fuel as [|fuel IH]; intros p i d s; cbn [selection_loop].
  - discriminate.
  - intros H. apply inv_bind in H. destruct H as (r & s1 & Hpass & H).
    destruct (select_pass_path _ _ _ _ _ Hpass) as [[idx Ht] Ha].
    destruct r as [n' ty|n'].
    + injection H as <- <- <-. exists idx, []. cbn. rewrite Ht, Ha.
      repeat split; lia.
    + destruct Ha as [a Ha].
      destruct (IH _ _ _ _ H) as (idx' & rest & Ht' & Hd & Ha').
      exists idx, ((n', idx') :: rest). rewrite Ht', Ht, <- app_assoc. cbn.
      rewrite Ha', Ha, length_app. cbn. repeat split; lia.
Qed.

(** X7: one selection from cleared scratch buffers.  The returned depth is
    one more than the number of recorded actions (the assertion of line 202
    holds), the trajectory is never empty and never longer than the depth,
    and the depth exceeds the trajectory by at most the 6 levels a random
    descent can skip; with both epsilon counters at zero the trajectory
    starts at the root and is exactly as long as the depth. *)
Theorem selection_accounting (fuel : nat) (s s' : Machine) (n : NodeId)
    (desc : NodeDescription) :
  trajectoryBuffer (scratch (thread s)) = [] ->
  actionsBuffer (scratch (thread s)) = [] ->
  get_new_child_to_evaluate fuel s = Some ((n, desc), s') ->
  let trajectory := trajectoryBuffer (scratch (thread s')) in
  depth desc = S (length (actionsBuffer (scratch (thread s'))))
  /\ (1 <= length trajectory <= depth desc)%nat
  /\ (depth desc <= length trajectory + 6)%nat
  /\ (epsilonGreedyCounter (searchSettings (thread s)) = 0 ->
      epsilonChecksCounter (searchSettings (thread s)) = 0 ->
      length trajectory = depth desc
      /\ exists idx rest, trajectory = (idx.1, idx.2) :: rest
                          /\ rootNode (thread s) = Some idx.1).
Proof.
  intros Ht0 Ha0. unfold get_new_child_to_evaluate. intros H.
  unfold mbind at 1, M_bind at 1 in H. cbn [get_thread] in H.
  apply inv_bind in H. destruct H as (rootId & sx & Hl & H).
  apply inv_lift in Hl. destruct Hl as [Hroot ->].
  apply inv_bind in H. destruct H as (root & sx & Hl & H).
  apply inv_deref in Hl. destruct Hl as [_ ->].
  apply inv_bind in H. destruct H as ([[p d] i] & s1 & Hstart & H).
  destruct (select_start_path _ _ _ _ _ _ _ _ Hstart) as (T1 & A1 & D1 & Z1).
  destruct (selection_loop_path _ _ _ _ _ _ _ _ H) as (idx & rest & T2 & Hd & A2).
  rewrite T1, Ht0 in T2. rewrite A1, Ha0 in A2. cbn in T2, A2.
  cbv zeta. rewrite T2, A2. cbn [length].
  split; [lia|]. split; [lia|]. split; [lia|].
  intros Hg Hc. specialize (Z1 Hg Hc). subst d. split; [lia|].
  rewrite (select_start_plain rootId root _ s Hg Hc) in Hstart.
  injection Hstart as <- _ _.
  exists (rootId, idx), rest. split; [reflexivity|exact Hroot].
Qed.

(** ** The driver *)

Lemma file_leaf_setup leaf desc n : preserves setup (file_leaf leaf desc n).
Proof. unfold file_leaf. repeat pres_step. Qed.

Lemma get_new_child_setup fuel : preserves setup (get_new_child_to_evaluate fuel).
Proof. apply frame_get_new_child_to_evaluate; intros; reflexivity. Qed.

Lemma mini_batch_step_setup sel_fuel n : preserves setup (mini_batch_step sel_fuel n).
Proof.
  intros s n1 s1 H.
  destruct (mini_batch_step_split _ _ _ _ _ H) as (leaf & desc & s_sel & Hsel & Hfile).
  apply get_new_child_setup in Hsel. apply file_leaf_setup in Hfile.
  rewrite Hfile. exact Hsel.
Qed.

Lemma create_mini_batch_loop_setup fuel sel_fuel n :
  preserves setup (create_mini_batch_loop fuel sel_fuel n).
Proof.
  revert n. induction fuel as [|fuel IH]; intros n s n' s';
    rewrite create_mini_batch_loop_unfold;
    destruct (batch_open n (thread s)); try discriminate;
    try (intros [= <- <-]; reflexivity).
  intros H. apply inv_bind in H. destruct H as (n1 & s1 & Hstep & H).
  apply mini_batch_step_setup in Hstep. apply IH in H. congruence.
Qed.

Lemma backup_node_values_setup idx todo trajectories :
  preserves setup (backup_node_values idx todo trajectories).
Proof.
  revert idx. induction todo as [|p rest IH]; intros idx; cbn [backup_node_values];
    repeat pres_step.
Qed.

Lemma backup_float_values_setup idx todo trajectories :
  preserves setup (backup_float_values idx todo trajectories).
Proof.
  revert idx. induction todo as [|p rest IH]; intros idx; cbn [backup_float_values];
    repeat pres_step.
Qed.

Lemma set_nn_results_from_setup idx todo :
  preserves setup (set_nn_results_from idx todo).
Proof.
  revert idx. induction todo as [|p rest IH]; intros idx; cbn [set_nn_results_from];
    repeat pres_step.
Qed.

#[local] Hint Resolve backup_node_values_setup backup_float_values_setup
  set_nn_results_from_setup create_mini_batch_loop_setup : pres.

Lemma thread_iteration_setup fuel sel_fuel :
  preserves setup (thread_iteration fuel sel_fuel).
Proof.
  unfold thread_iteration, create_mini_batch, set_nn_results_to_child_nodes,
    select_nn_index, backup_value_outputs, backup_collisions.
  repeat pres_step.
Qed.

Lemma keep_running_reads : preserves (fun s => s) keep_running.
Proof.
  unfold keep_running, nodes_limits_ok, limit_ok, is_root_node_unsolved,
    root_node_count, root_visits.
  repeat pres_step.
Qed.

Lemma keep_running_cases s b :
  keep_running s = Some (b, s) ->
  if b then isRunning (thread s) = true
           /\ nodes_limits_ok s = Some (true, s)
           /\ is_root_node_unsolved s = Some (true, s)
  else isRunning (thread s) = false
       \/ nodes_limits_ok s = Some (false, s)
       \/ (nodes_limits_ok s = Some (true, s)
           /\ is_root_node_unsolved s = Some (false, s)).
Proof.
  unfold keep_running. unfold mbind at 1, M_bind at 1. cbn [get_thread].
  destruct (isRunning (thread s)).
  - intros H. apply inv_bind in H. destruct H as (ok & s1 & Hok & H).
    assert (s1 = s) as ->.
    { revert Hok. unfold nodes_limits_ok, limit_ok, root_node_count, root_visits.
      apply (preserves_bind (fun s => s)); [auto with pres|intros ?].
      repeat pres_step. }
    destruct ok.
    + destruct b; [repeat split; assumption|]. right. right. split; assumption.
    + injection H as <-. right. left. exact Hok.
  - intros [= <-]. left. reflexivity.
Qed.

Lemma run_iterations_unfold fuel batch_fuel sel_fuel :
  run_iterations fuel batch_fuel sel_fuel
  = (go ← keep_running;
     if (go : bool) then
       match fuel with
       | O => undefined
       | S fuel' =>
           thread_iteration batch_fuel sel_fuel;;
           run_iterations fuel' batch_fuel sel_fuel
       end
     else mret tt).
Proof. destruct fuel; reflexivity. Qed.

Lemma run_iterations_exit fuel batch_fuel sel_fuel s u s' :
  run_iterations fuel batch_fuel sel_fuel s = Some (u, s') ->
  setup s' = setup s /\ keep_running s' = Some (false, s').
Proof.
  revert s. induction fuel as [|fuel IH]; intros s; rewrite run_iterations_unfold;
    intros H; apply inv_bind in H; destruct H as (go & s1 & Hgo & H);
    pose proof (keep_running_reads _ _ _ Hgo) as E; cbn in E; subst s1;
    (destruct go; [|injection H as _ <-; split; [reflexivity|exact Hgo]]).
  - discriminate.
  - apply inv_bind in H. destruct H as (? & s1 & Hit & H).
    apply thread_iteration_setup in Hit. apply IH in H.
    destruct H as [Hs Hk]. split; [congruence|exact Hk].
Qed.

Lemma halted_started s :
  isRunning (thread s) = true -> on_thread (with_isRunning true) (halted s) = s.
Proof. destruct s as [[] ? ? ?]. cbn. now intros ->. Qed.

(** X9: when the driver returns without [stop] having been called from
    outside, the loop was left because a limit was reached or the root is no
    longer unsolved; [isRunning] is false afterwards, and the root, the
    settings, the limits and [visitsPreSearch] are the ones it was started
    with. *)
Theorem run_search_thread_exit (fuel batch_fuel sel_fuel : nat) (s s' : Machine)
    (u : unit) :
  run_search_thread fuel batch_fuel sel_fuel s = Some (u, s') ->
  isRunning (thread s') = false
  /\ exists s1,
      s' = halted s1
      /\ isRunning (thread s1) = true
      /\ setup s1 = setup (started s)
      /\ (nodes_limits_ok s1 = Some (false, s1)
          \/ (nodes_limits_ok s1 = Some (true, s1)
              /\ is_root_node_unsolved s1 = Some (false, s1))).
Proof.
  unfold run_search_thread, reset_stats. intros H.
  apply inv_bind in H. destruct H as (? & s0 & H0 & H). injection H0 as _ <-.
  apply inv_bind in H. destruct H as (? & s0 & H0 & H). injection H0 as _ <-.
  apply inv_bind in H. destruct H as (? & s1 & Hrun & H). injection H as _ <-.
  split; [reflexivity|]. exists s1.
  destruct (run_iterations_exit _ _ _ _ _ _ Hrun) as [Hs Hk].
  assert (Hr : isRunning (thread s1) = true).
  { change (isRunning (thread s1)) with (setup s1).1.1.1.1.1.1.1.1.2.
    rewrite Hs. reflexivity. }
  split; [reflexivity|]. split; [exact Hr|]. split; [exact Hs|].
  apply keep_running_cases in Hk. destruct Hk as [Hk|Hk]; [congruence|exact Hk].
Qed.

Lemma nodes_limits_ok_started s b :
  nodes_limits_ok s = Some (b, s) -> nodes_limits_ok (started s) = Some (b, started s).
Proof.
  unfold nodes_limits_ok, limit_ok, root_node_count, root_visits.
  unfold mbind, M_bind, mret, M_ret, get_thread, get_tree, lift, deref, undefined.
  cbn. destruct (searchLimits (thread s)) as [l|]; [|discriminate].
  destruct (rootNode (thread s)) as [p|] eqn:Er;
    [destruct (tree s !! p) eqn:Et|];
    destruct (nodes l =? 0); repeat (cbn; rewrite ?Er, ?Et); try discriminate;
    repeat match goal with
           | |- context [if ?c then _ else _] =>
               destruct c; repeat (cbn; rewrite ?Er, ?Et); try discriminate
           end;
    intros [= <-]; reflexivity.
Qed.

Lemma is_root_node_unsolved_started s b :
  is_root_node_unsolved s = Some (b, s) ->
  is_root_node_unsolved (started s) = Some (b, started s).
Proof.
  unfold is_root_node_unsolved.
  unfold mbind, M_bind, mret, M_ret, get_thread, lift, deref, undefined.
  cbn. destruct (rootNode (thread s)) as [p|] eqn:Er; cbn; [|discriminate].
  destruct (tree s !! p) eqn:Et; repeat (cbn; rewrite ?Er, ?Et); [|discriminate].
  intros [= <-]. reflexivity.
Qed.

(** X10: started with a limit already reached, or on a root that is already
    solved, the driver runs no iteration whatever it is given: the tree, the
    table and the staging are untouched, the three counters are reset,
    [visitsPreSearch] is kept and [isRunning] ends false, also when it was
    false before. *)
Theorem run_search_thread_idle (fuel batch_fuel sel_fuel : nat) (s : Machine) :
  nodes_limits_ok s = Some (false, s)
  \/ (nodes_limits_ok s = Some (true, s)
      /\ is_root_node_unsolved s = Some (false, s)) ->
  run_search_thread fuel batch_fuel sel_fuel s = Some (tt, halted (started s)).
Proof.
  intros H.
  assert (Hk : keep_running (started s) = Some (false, started s)).
  { unfold keep_running. unfold mbind at 1, M_bind at 1. cbn [get_thread].
    change (isRunning (thread (started s))) with true. cbv iota.
    destruct H as [H|[H1 H2]].
    - now rewrite (run_bind _ _ _ _ _ (nodes_limits_ok_started _ _ H)).
    - rewrite (run_bind _ _ _ _ _ (nodes_limits_ok_started _ _ H1)).
      now apply is_root_node_unsolved_started. }
  assert (Hrun : run_iterations fuel batch_fuel sel_fuel (started s)
                 = Some (tt, started s)).
  { rewrite run_iterations_unfold. now rewrite (run_bind _ _ _ _ _ Hk). }
  change (run_search_thread fuel batch_fuel sel_fuel s)
    with ((run_iterations fuel batch_fuel sel_fuel;;
           modify_thread (with_isRunning false)) (started s)).
  now rewrite (run_bind _ _ _ _ _ Hrun).
Qed.

(** X11: the driver dereferences [searchLimits] and the root before the first
    iteration: on a worker whose limits were never set (as the constructor
    leaves it), or whose root is unset, it has no defined behaviour. *)
Theorem run_search_thread_needs_setup (fuel batch_fuel sel_fuel : nat) (s : Machine) :
  searchLimits (thread s) = None \/ rootNode (thread s) = None ->
  run_search_thread fuel batch_fuel sel_fuel s = None.
Proof.
  intros H.
  assert (Hk : keep_running (started s) = None).
  { unfold keep_running, nodes_limits_ok, limit_ok, root_node_count, root_visits,
      is_root_node_unsolved.
    unfold mbind, M_bind, mret, M_ret, get_thread, get_tree, lift, deref, undefined.
    cbn. destruct H as [-> | Er]; [reflexivity|].
    destruct (searchLimits (thread s)) as [l|]; [|reflexivity].
    repeat (cbn; rewrite ?Er).
    repeat match goal with
           | |- context [if ?c then _ else _] =>
               destruct c; repeat (cbn; rewrite ?Er); try reflexivity
           end. }
  assert (Hrun : run_iterations fuel batch_fuel sel_fuel (started s) = None).
  { rewrite run_iterations_unfold. now apply run_bind_None. }
  change (run_search_thread fuel batch_fuel sel_fuel s)
    with ((run_iterations fuel batch_fuel sel_fuel;;
           modify_thread (with_isRunning false)) (started s)).
  now apply run_bind_None.
Qed.

(** ** The random descent *)

Lemma push_actions_nil s : push_actions [] s = s.
Proof.
  destruct s as [[? ? ? [] ? ? ? ? ? ? ? ? ? ?] ? ? ?].
  unfold push_actions, on_thread, with_scratch, with_actionsBuffer. cbn.
  now rewrite app_nil_r.
Qed.

Lemma push_actions_cons a acts s :
  push_actions acts (push_action a s) = push_actions (a :: acts) s.
Proof.
  unfold push_actions, push_action, on_thread, with_scratch, with_actionsBuffer. cbn.
  now rewrite <- app_assoc.
Qed.

Lemma get_starting_node_loop_spec steps p d i s p' d' i' s' :
  get_starting_node_loop steps p d i s = Some ((p', d', i'), s') ->
  exists acts,
    s' = push_actions acts s
    /\ d' = (d + length acts)%nat
    /\ (length acts <= steps)%nat
    /\ (acts = [] -> p' = p)
    /\ (acts <> [] ->
        exists n, tree s !! p' = Some n
                  /\ descendable (searchSettings (thread s)) n).
Proof.
  revert p d i s. induction steps as [|steps IH]; intros p d i s;
    cbn [get_starting_node_loop].
  - intros [= <- <- <- <-]. exists []. rewrite push_actions_nil. cbn.
    repeat split; try lia; congruence.
  - assert (Hstay : exists acts : list Action,
               s = push_actions acts s /\ d = (d + length acts)%nat
               /\ (length acts <= S steps)%nat /\ (acts = [] -> p = p)
               /\ (acts <> [] ->
                   exists n, tree s !! p = Some n
                             /\ descendable (searchSettings (thread s)) n)).
    { exists []. rewrite push_actions_nil. cbn. repeat split; try lia; congruence. }
    intros H. unfold mbind at 1, M_bind at 1 in H. cbn [get_thread] in H.
    apply inv_bind in H. destruct H as (cur & sa & Hl & H).
    apply inv_deref in Hl. destruct Hl as [_ ->].
    apply inv_bind in H. destruct H as (link & sa & Hl & H).
    apply inv_lift in Hl. destruct Hl as [_ ->].
    destruct link as [nx|]; [|injection H as <- <- <- <-; exact Hstay].
    apply inv_bind in H. destruct H as (node & sa & Hl & H).
    apply inv_deref in Hl. destruct Hl as [Hnode ->].
    destruct (_ || _) eqn:Etest; [injection H as <- <- <- <-; exact Hstay|].
    apply orb_false_iff in Etest. destruct Etest as [Etest Ety].
    apply orb_false_iff in Etest. destruct Etest as [Eplay Evis].
    apply negb_false_iff in Eplay, Ety. apply Z.ltb_ge in Evis.
    assert (Hty : node_type node = UNSOLVED) by (destruct (node_type node); easy).
    apply inv_bind in H. destruct H as (a & sa & Hl & H).
    apply inv_lift in Hl. destruct Hl as [_ ->].
    apply inv_bind in H. destruct H as (? & sa & Hl & H). injection Hl as _ <-.
    destruct (IH _ _ _ _ H) as (acts & -> & -> & Hlen & Hnil & Hcons).
    exists (a :: acts). split; [apply push_actions_cons|].
    cbn [length]. split; [lia|]. split; [lia|]. split; [discriminate|].
    intros _. destruct acts as [|b acts].
    + rewrite (Hnil eq_refl). exists node. split; [exact Hnode|].
      split; [exact Eplay|]. split; [exact Evis|exact Hty].
    + apply Hcons. discriminate.
Qed.

(** X12: [get_starting_node] draws one random number and descends at most
    [get_random_depth] (so at most 6) levels.  It writes nothing but the
    actions it appends, one per level, and the depth grows by their number.
    The node it returns is the one it was given when it did not descend, and
    otherwise an evaluated, unsolved node with at least
    [epsilonGreedyCounter] visits. *)
Theorem get_starting_node_spec (p p' : NodeId) (d d' : nat) (i i' : ChildIdx)
    (s s' : Machine) :
  get_starting_node p d i s = Some ((p', d', i'), s') ->
  exists levels acts,
    get_random_depth (rand_stream (rand_calls s)) = Some levels
    /\ s' = push_actions acts (after_rand s)
    /\ d' = (d + length acts)%nat
    /\ (Z.of_nat (length acts) <= levels <= 6)
    /\ (acts = [] -> p' = p)
    /\ (acts <> [] ->
        exists n, tree s !! p' = Some n
                  /\ descendable (searchSettings (thread s)) n).
Proof.
  unfold get_starting_node. intros H.
  apply inv_bind in H. destruct H as (rnd & sa & Hl & H). injection Hl as <- <-.
  apply inv_bind in H. destruct H as (levels & sa & Hl & H).
  apply inv_lift in Hl. destruct Hl as [Hdep ->].
  destruct (get_starting_node_loop_spec _ _ _ _ _ _ _ _ _ H)
    as (acts & Hs & Hd & Hlen & Hnil & Hcons).
  destruct (get_random_depth_is_ceiling _ _ Hdep) as [Hrange _].
  exists levels, acts. split; [exact Hdep|]. split; [exact Hs|]. split; [exact Hd|].
  split; [lia|]. split; [exact Hnil|exact Hcons].
Qed.

(** ** Random playout below a node that is not fully expanded *)

(** X13: on a node that is not fully expanded [random_playout] draws no
    random number: it advances [no_visit_idx] and writes nothing else.  With
    [n] children, [0 < n < 65536], the index is [min(no_visit_idx, n - 1)],
    a valid child index and never the sentinel.  With no children the
    unsigned [n - 1] wraps to the largest [size_t] and the index is
    [no_visit_idx] itself. *)
Theorem random_playout_unexpanded (s : Machine) (currentNode : NodeId) (cur : Node) :
  let n := Z.of_nat (get_number_child_nodes cur) in
  let nv := Z.of_nat (no_visit_idx cur) in
  tree s !! currentNode = Some cur ->
  is_fully_expanded cur = false ->
  nv < Word.idx_modulus ->
  exists res,
    random_playout currentNode s
    = Some (res, poke currentNode (increment_no_visit_idx cur) s)
    /\ (0 < n < Word.idx_modulus ->
        res = Z.min nv (n - 1) /\ 0 <= res < n /\ res <> NO_CHILD)
    /\ (n = 0 -> res = nv).
Proof.
  intros n nv Hcur Hfull Hnv.
  exists (Word.wrap_idx (Z.min nv (Word.wrap_size (n - 1)))). split.
  - unfold random_playout. rewrite (run_bind _ _ _ _ _ (run_deref _ _ _ Hcur)).
    rewrite Hfull. reflexivity.
  - change Word.idx_modulus with 65536 in *. change NO_CHILD with 65535.
    unfold Word.wrap_idx, Word.wrap_size.
    change Word.idx_modulus with 65536. change Word.size_modulus with (2 ^ 64).
    split.
    + intros Hn. rewrite (Z.mod_small (n - 1)) by lia.
      rewrite Z.mod_small by lia. lia.
    + intros ->. change ((0 - 1) mod 2 ^ 64) with (2 ^ 64 - 1).
      rewrite Z.min_l by lia. apply Z.mod_small. lia.
Qed.

(** ** Publishing the network's results *)

Lemma fill_nn_results_inv batchIdx pm vo po n hits mp st tb n' hits' :
  fill_nn_results batchIdx pm vo po n hits mp st tb = Some (n', hits') ->
  has_nn_results n' = true
  /\ (MCTS_TB_SUPPORT = false -> hits' = hits /\ vo !! batchIdx = Some (value n')).
Proof.
  unfold fill_nn_results, node_assign_value.
  destruct MCTS_TB_SUPPORT; cbn [andb];
    repeat match goal with
           | |- context [if ?c then _ else _] => destruct c
           end;
    destruct (vo !! batchIdx) as [v|]; cbn; try discriminate;
    intros [= <- <-]; (split; [reflexivity|]); try discriminate;
    intros _; split; reflexivity.
Qed.

Lemma set_nn_results_from_publishes idx todo s u s' :
  set_nn_results_from idx todo s = Some (u, s') ->
  length (tree s') = length (tree s)
  /\ buffers (thread s') = buffers (thread s)
  /\ (forall p, p ∈ todo ->
        exists n, tree s' !! p = Some n /\ has_nn_results n = true)
  /\ (forall p, p ∉ todo -> tree s' !! p = tree s !! p)
  /\ (MCTS_TB_SUPPORT = false ->
      tbHits (stats (thread s')) = tbHits (stats (thread s))
      /\ (NoDup todo ->
          forall k p, todo !! k = Some p ->
            exists n, tree s' !! p = Some n
                      /\ valueOutputs (buffers (thread s)) !! (idx + k)%nat
                         = Some (value n))).
Proof.
  revert idx s. induction todo as [|p rest IH]; intros idx s; cbn [set_nn_results_from].
  - intros [= _ <-]. repeat split; try easy.
  - intros H. unfold mbind at 1, M_bind at 1 in H. cbn [get_thread] in H.
    apply inv_bind in H. destruct H as (net & sa & Hl & H).
    apply inv_lift in Hl. destruct Hl as [_ ->].
    apply inv_bind in H. destruct H as (rootSt & sa & Hl & H).
    apply inv_lift in Hl. destruct Hl as [_ ->].
    apply inv_bind in H. destruct H as (rootId & sa & Hl & H).
    apply inv_lift in Hl. destruct Hl as [_ ->].
    apply inv_bind in H. destruct H as (root & sa & Hl & H).
    apply inv_deref in Hl. destruct Hl as [_ ->].
    apply inv_bind in H. destruct H as (side & sa & Hl & H).
    apply inv_lift in Hl. destruct Hl as [_ ->].
    apply inv_bind in H. destruct H as (n & sa & Hl & H).
    apply inv_deref in Hl. destruct Hl as [Hn ->].
    apply inv_bind in H. destruct H as ([n' hits] & sa & Hl & H).
    apply inv_lift in Hl. destruct Hl as [Hfill ->].
    apply fill_nn_results_inv in Hfill. destruct Hfill as [Hnn Hval].
    apply inv_bind in H. destruct H as (? & sa & Hl & H). injection Hl as _ <-.
    apply inv_bind in H. destruct H as (? & sa & Hl & H). injection Hl as _ <-.
    destruct (IH _ _ H) as (Hlen & Hbuf & Hin & Hout & Htb). clear IH H.
    cbn [tree thread stats buffers with_stats with_tbHits tbHits] in Hlen, Hbuf, Hout, Htb.
    assert (Hlen' : length (tree s') = length (tree s)).
    { rewrite Hlen. apply length_insert. }
    assert (Hp : p ∉ rest -> tree s' !! p = Some n').
    { intros Hnot. rewrite (Hout p Hnot). apply list_lookup_insert_eq.
      now apply lookup_lt_Some in Hn. }
    split; [exact Hlen'|]. split; [exact Hbuf|]. split; [|split].
    + intros q Hq. destruct (decide (q ∈ rest)) as [Hr|Hr]; [now apply Hin|].
      apply elem_of_cons in Hq. destruct Hq as [->|Hq]; [|contradiction].
      exists n'. split; [now apply Hp|exact Hnn].
    + intros q Hq. apply not_elem_of_cons in Hq. destruct Hq as [Hne Hq].
      rewrite (Hout q Hq). now apply list_lookup_insert_ne.
    + intros Hno. destruct (Htb Hno) as [Hhits Hvals].
      destruct (Hval Hno) as [-> Hv]. split; [exact Hhits|].
      intros Hnd k q Hk. apply NoDup_cons in Hnd. destruct Hnd as [Hnot Hnd].
      destruct k as [|k]; cbn in Hk.
      * injection Hk as <-. exists n'. split; [now apply Hp|].
        now rewrite Nat.add_0_r.
      * destruct (Hvals Hnd k q Hk) as (m & Hm & Hv'). exists m.
        split; [exact Hm|]. now replace (idx + S k)%nat with (S idx + k)%nat by lia.
Qed.

(** X14: [set_nn_results_to_child_nodes] writes exactly the staged leaves:
    each of them ends evaluated ([has_nn_results] true), every other node and
    the size of the arena are as before.  Without tablebase support [tbHits]
    is unchanged and, the staged leaves being distinct, the leaf staged at
    index [k] carries [valueOutputs[k]]. *)
Theorem set_nn_results_publishes (s s' : Machine) (u : unit) :
  let staged := FixedVector.elems (newNodes (staging (thread s))) in
  set_nn_results_to_child_nodes s = Some (u, s') ->
  length (tree s') = length (tree s)
  /\ (forall p, p ∈ staged ->
        exists n, tree s' !! p = Some n /\ has_nn_results n = true)
  /\ (forall p, p ∉ staged -> tree s' !! p = tree s !! p)
  /\ (MCTS_TB_SUPPORT = false ->
      tbHits (stats (thread s')) = tbHits (stats (thread s))
      /\ (NoDup staged ->
          forall k p, staged !! k = Some p ->
            exists n, tree s' !! p = Some n
                      /\ valueOutputs (buffers (thread s)) !! k = Some (value n))).
Proof.
  intros staged H. unfold set_nn_results_to_child_nodes in H.
  unfold mbind at 1, M_bind at 1 in H. cbn [get_thread] in H.
  destruct (set_nn_results_from_publishes _ _ _ _ _ H) as (Hlen & _ & Hin & Hout & Htb).
  split; [exact Hlen|]. split; [exact Hin|]. split; [exact Hout|exact Htb].
Qed.

(** ** Depth statistics of a batch *)

Lemma add_depths_fields depths st :
  tbHits (add_depths depths st) = tbHits st
  /\ visitsPreSearch (add_depths depths st) = visitsPreSearch st
  /\ depthSum (add_depths depths st)
     = (if depths is [] then depthSum st
        else Word.wrap_size (depthSum st + Z.of_nat (sum_list depths)))
  /\ depthMax st <= depthMax (add_depths depths st)
  /\ Forall (fun d => Z.of_nat d <= depthMax (add_depths depths st)) depths.
Proof.
  revert st. induction depths as [|d rest IH]; intros st; unfold add_depths;
    cbn [fold_left].
  - repeat split; [lia|constructor].
  - destruct (IH (add_depth d st)) as (Ht & Hv & Hs & Hm & Hall).
    fold (add_depths rest (add_depth d st)).
    cbn [add_depth tbHits visitsPreSearch depthSum depthMax] in Ht, Hv, Hs, Hm.
    split; [exact Ht|]. split; [exact Hv|]. split; [|split].
    + rewrite Hs. destruct rest as [|e rest]; [now cbn; rewrite Nat.add_0_r|].
      unfold Word.wrap_size. rewrite Zplus_mod_idemp_l. f_equal.
      change (sum_list (d :: e :: rest)) with (d + sum_list (e :: rest))%nat. lia.
    + lia.
    + constructor; [lia|exact Hall].
Qed.

Lemma get_new_child_depth fuel s n desc s' :
  get_new_child_to_evaluate fuel s = Some ((n, desc), s') -> (1 <= depth desc)%nat.
Proof.
  unfold get_new_child_to_evaluate. intros H.
  unfold mbind at 1, M_bind at 1 in H. cbn [get_thread] in H.
  apply inv_bind in H. destruct H as (rootId & sx & Hl & H).
  apply inv_bind in H. destruct H as (root & sy & Hl' & H).
  apply inv_bind in H. destruct H as ([[p d] i] & s1 & Hstart & H).
  destruct (selection_loop_path _ _ _ _ _ _ _ _ H) as (? & ? & _ & Hd & _). lia.
Qed.

Lemma get_new_child_ledger fuel : preserves ledger (get_new_child_to_evaluate fuel).
Proof. apply frame_get_new_child_to_evaluate; intros; reflexivity. Qed.

Lemma file_leaf_ledger leaf desc n s n1 s1 :
  file_leaf leaf desc n s = Some (n1, s1) ->
  stats (thread s1) = add_depth (depth desc) (stats (thread s))
  /\ (filed s1 + n1 = S (filed s + n))%nat.
Proof.
  unfold file_leaf. intros H.
  apply inv_bind in H. destruct H as (? & sa & Hl & H). injection Hl as _ <-.
  unfold mbind at 1, M_bind at 1 in H. cbn [get_thread] in H.
  destruct (type desc).
  - apply inv_bind in H. destruct H as (? & sa & Hl & H). injection Hl as _ <-.
    injection H as <- <-. split; [reflexivity|].
    unfold filed. cbn. rewrite length_app. cbn. lia.
  - apply inv_bind in H. destruct H as (? & sa & Hl & H).
    apply inv_deref in Hl. destruct Hl as [_ ->].
    apply inv_bind in H. destruct H as (? & sa & Hl & H). injection Hl as _ <-.
    injection H as <- <-. split; [reflexivity|]. unfold filed. cbn. lia.
  - apply inv_bind in H. destruct H as (? & sa & Hl & H). injection Hl as _ <-.
    injection H as <- <-. split; [reflexivity|].
    unfold filed. cbn. rewrite length_app. cbn. lia.
  - apply inv_bind in H. destruct H as (nn & sa & Hl & H).
    apply inv_lift in Hl. destruct Hl as [_ ->].
    apply inv_bind in H. destruct H as (? & sa & Hl & H). injection Hl as _ <-.
    apply inv_bind in H. destruct H as (? & sa & Hl & H). injection Hl as _ <-.
    injection H as <- <-. split; [reflexivity|].
    unfold filed. cbn. rewrite length_app. cbn. lia.
Qed.

Lemma mini_batch_step_ledger sel_fuel n s n1 s1 :
  mini_batch_step sel_fuel n s = Some (n1, s1) ->
  exists leaf desc s_sel,
    get_new_child_to_evaluate sel_fuel (cleared s) = Some ((leaf, desc), s_sel)
    /\ (1 <= depth desc)%nat
    /\ stats (thread s1) = add_depth (depth desc) (stats (thread s))
    /\ (filed s1 + n1 = S (filed s + n))%nat.
Proof.
  intros H.
  destruct (mini_batch_step_split _ _ _ _ _ H) as (leaf & desc & s_sel & Hsel & Hfile).
  pose proof (get_new_child_depth _ _ _ _ _ Hsel) as Hd.
  exists leaf, desc, s_sel. split; [exact Hsel|].
  apply get_new_child_ledger in Hsel.
  destruct (file_leaf_ledger _ _ _ _ _ _ Hfile) as [Hst Hcount].
  split; [exact Hd|].
  assert (E : stats (thread s_sel) = stats (thread s) /\ filed s_sel = filed s).
  { unfold ledger in Hsel. cbn in Hsel. injection Hsel as E1 E2 E3 E4.
    unfold filed. now rewrite E1, E2, E3, E4. }
  destruct E as [E1 E2]. rewrite <- E1, <- E2. split; [exact Hst|exact Hcount].
Qed.

Lemma create_mini_batch_loop_ledger fuel sel_fuel n s n' s' :
  create_mini_batch_loop fuel sel_fuel n s = Some (n', s') ->
  exists k depths,
    run_steps k sel_fuel n s = Some (n', s')
    /\ batch_depths k sel_fuel n s = Some depths
    /\ length depths = k
    /\ stats (thread s') = add_depths depths (stats (thread s))
    /\ Forall (fun d => 1 <= d)%nat depths
    /\ (filed s' + n' = k + (filed s + n))%nat.
Proof.
  revert n s. induction fuel as [|fuel IH]; intros n s;
    rewrite create_mini_batch_loop_unfold;
    destruct (batch_open n (thread s)); try discriminate;
    try (intros [= <- <-]; exists 0%nat, []; repeat split; constructor).
  intros H. apply inv_bind in H. destruct H as (n1 & s1 & Hstep & H).
  destruct (mini_batch_step_ledger _ _ _ _ _ Hstep)
    as (leaf & desc & s_sel & Hsel & Hd & Hst & Hcount).
  destruct (IH _ _ H) as (k & depths & Hrun & Hds & Hlen & Hst' & Hall & Hcount').
  exists (S k), (depth desc :: depths). split; [|split; [|split; [|split; [|split]]]].
  - cbn [run_steps]. now rewrite (run_bind _ _ _ _ _ Hstep).
  - cbn [batch_depths]. rewrite Hsel. cbn. rewrite Hstep. cbn. rewrite Hds. reflexivity.
  - cbn [length]. now rewrite Hlen.
  - rewrite Hst', Hst. reflexivity.
  - now constructor.
  - lia.
Qed.

(** X15: what [create_mini_batch] does to the statistics.  Let [depths] be
    the values of [description.depth] that [get_new_child_to_evaluate]
    returns in the turns of the loop, in order ([batch_depths]).  There is
    one per turn and each is at least 1; [depthSum] grows by their sum
    (modulo the width of [size_t]), [depthMax] becomes an upper bound of
    them and never decreases, [tbHits] and [visitsPreSearch] are untouched;
    and every turn either files one trajectory for the backup or counts one
    terminal node. *)
Theorem create_mini_batch_statistics (fuel sel_fuel numTerminalNodes : nat)
    (s s' : Machine) :
  create_mini_batch fuel sel_fuel s = Some (numTerminalNodes, s') ->
  exists (turns : nat) (depths : list nat),
    run_steps turns sel_fuel 0 s = Some (numTerminalNodes, s')
    /\ batch_depths turns sel_fuel 0 s = Some depths
    /\ length depths = turns
    /\ Forall (fun d => 1 <= d)%nat depths
    /\ (filed s' + numTerminalNodes = turns + filed s)%nat
    /\ tbHits (stats (thread s')) = tbHits (stats (thread s))
    /\ visitsPreSearch (stats (thread s')) = visitsPreSearch (stats (thread s))
    /\ depthSum (stats (thread s'))
       = (if depths is [] then depthSum (stats (thread s))
          else Word.wrap_size (depthSum (stats (thread s))
                               + Z.of_nat (sum_list depths)))
    /\ depthMax (stats (thread s)) <= depthMax (stats (thread s'))
    /\ Forall (fun d => Z.of_nat d <= depthMax (stats (thread s'))) depths.
Proof.
  unfold create_mini_batch. intros H.
  destruct (create_mini_batch_loop_ledger _ _ _ _ _ _ H)
    as (k & depths & Hrun & Hds & Hlen & Hst & Hall & Hn).
  exists k, depths. rewrite Hst.
  destruct (add_depths_fields depths (stats (thread s))) as (Ht & Hv & Hs & Hm & Hd).
  split; [exact Hrun|]. split; [exact Hds|]. split; [exact Hlen|].
  split; [exact Hall|]. split; [lia|]. split; [exact Ht|]. split; [exact Hv|].
  split; [exact Hs|]. split; [exact Hm|exact Hd].
Qed.

(** ** When the backup is defined *)

Section Backup.
Hypothesis backup_keeps_arena :
  forall free v settings tr solve t,
    length (backup_value free v settings tr solve t) = length t.

Lemma backup_node_values_run idx todo trs s :
  (forall p, p ∈ todo -> (p < length (tree s))%nat) ->
  match backup_node_values idx todo trs s with
  | Some (_, s') =>
      (todo = [] \/ (idx + length todo <= length trs)%nat)
      /\ thread s' = thread s /\ length (tree s') = length (tree s)
  | None => ~ (todo = [] \/ (idx + length todo <= length trs)%nat)
  end.
Proof.
  revert idx s. induction todo as [|p rest IH]; intros idx s Hvalid;
    cbn [backup_node_values].
  - cbn. auto.
  - unfold mbind at 1, M_bind at 1. cbn [get_thread].
    destruct (lookup_lt_is_Some_2 (tree s) p (Hvalid p ltac:(left))) as [n Hn].
    rewrite (run_bind _ _ _ _ _ (run_deref _ _ _ Hn)).
    destruct (trs !! idx) as [tr|] eqn:Htr.
    + rewrite (run_bind _ _ _ _ _ (run_lift (Some tr) tr s eq_refl)).
      unfold mbind at 1, M_bind at 1. cbn [modify_tree].
      apply lookup_lt_Some in Htr.
      match goal with
      | |- context [backup_node_values (S idx) rest trs ?s1] =>
          specialize (IH (S idx) s1)
      end.
      cbn [tree thread] in IH. rewrite backup_keeps_arena in IH.
      specialize (IH ltac:(intros q Hq; apply Hvalid; now right)).
      destruct (backup_node_values _ _ _ _) as [[u s']|].
      * destruct IH as (Hc & Ht & Hl). split; [|split; assumption].
        right. cbn [length]. destruct Hc as [->|Hc]; cbn [length]; lia.
      * intros [Hc|Hc]; [discriminate|]. apply IH. right. cbn [length] in Hc. lia.
    + rewrite (run_bind_None _ _ _ (eq_refl : lift None s = None)).
      apply lookup_ge_None in Htr. intros [Hc|Hc]; [discriminate|].
      cbn [length] in Hc. lia.
Qed.

Lemma backup_float_values_run idx todo trs s :
  match backup_float_values idx todo trs s with
  | Some (_, s') =>
      (todo = [] \/ (idx + length todo <= length trs)%nat)
      /\ thread s' = thread s /\ length (tree s') = length (tree s)
  | None => ~ (todo = [] \/ (idx + length todo <= length trs)%nat)
  end.
Proof.
  revert idx s. induction todo as [|v rest IH]; intros idx s;
    cbn [backup_float_values].
  - cbn. auto.
  - unfold mbind at 1, M_bind at 1. cbn [get_thread].
    destruct (trs !! idx) as [tr|] eqn:Htr.
    + rewrite (run_bind _ _ _ _ _ (run_lift (Some tr) tr s eq_refl)).
      unfold mbind at 1, M_bind at 1. cbn [modify_tree].
      apply lookup_lt_Some in Htr.
      match goal with
      | |- context [backup_float_values (S idx) rest trs ?s1] =>
          specialize (IH (S idx) s1)
      end.
      cbn [tree thread] in IH. rewrite backup_keeps_arena in IH.
      destruct (backup_float_values _ _ _ _) as [[u s']|].
      * destruct IH as (Hc & Ht & Hl). split; [|split; assumption].
        right. cbn [length]. destruct Hc as [->|Hc]; cbn [length]; lia.
      * intros [Hc|Hc]; [discriminate|]. apply IH. right. cbn [length] in Hc. lia.
    + rewrite (run_bind_None _ _ _ (eq_refl : lift None s = None)).
      apply lookup_ge_None in Htr. intros [Hc|Hc]; [discriminate|].
      cbn [length] in Hc. lia.
Qed.

Lemma backup_value_outputs_run s :
  (forall p, p ∈ FixedVector.elems (newNodes (staging (thread s))) ->
             (p < length (tree s))%nat) ->
  let b := staging (thread s) in
  is_Some (backup_value_outputs s)
  <-> (FixedVector.size (newNodes b) <= length (newTrajectories b))%nat
      /\ (FixedVector.size (transpositionValues b)
          <= length (transpositionTrajectories b))%nat.
Proof.
  intros Hvalid b. unfold backup_value_outputs.
  unfold mbind at 1, M_bind at 1. cbn [get_thread]. fold b.
  pose proof (backup_node_values_run 0 (FixedVector.elems (newNodes b))
                (newTrajectories b) s Hvalid) as Hn.
  unfold mbind at 1, M_bind at 1.
  destruct (backup_node_values _ _ _ _) as [[u s1]|].
  - destruct Hn as (Hc & Ht & _).
    unfold modify_staging.
    unfold mbind at 1, M_bind at 1. cbn [modify_thread].
    unfold mbind at 1, M_bind at 1. cbn [modify_thread].
    unfold mbind at 1, M_bind at 1. cbn [modify_thread].
    match goal with
    | |- context [(backup_float_values 0 ?todo ?trs ≫= _) ?s2] =>
        pose proof (backup_float_values_run 0 todo trs s2) as Hf
    end.
    unfold mbind at 1, M_bind at 1.
    destruct (backup_float_values _ _ _ _) as [[u' s3]|].
    + destruct Hf as (Hc' & _). split; [|intros _; eexists; reflexivity].
      intros _. unfold FixedVector.size. split.
      * destruct Hc as [->|Hc]; cbn in *; lia.
      * destruct Hc' as [->|Hc']; cbn in *; lia.
    + split; [intros [x Hx]; discriminate|].
      intros [_ Hc']. exfalso. apply Hf. right. exact Hc'.
  - split; [intros [x Hx]; discriminate|].
    intros [Hc _]. exfalso. apply Hn. right. exact Hc.
Qed.

End Backup.

(** X16: when [backup_value] leaves the arena of nodes in place and the
    staged leaves are nodes of the tree, [backup_value_outputs] is defined
    exactly when there is a trajectory for every staged leaf and for every
    staged transposition value: with fewer, [trajectories[idx]] is read past
    the end.  The alignment that [create_mini_batch] keeps is enough. *)
Theorem backup_value_outputs_defined_iff (s : Machine) :
  (forall free v settings tr solve t,
     length (backup_value free v settings tr solve t) = length t) ->
  (forall p, p ∈ FixedVector.elems (newNodes (staging (thread s))) ->
             (p < length (tree s))%nat) ->
  let b := staging (thread s) in
  (is_Some (backup_value_outputs s)
   <-> (FixedVector.size (newNodes b) <= length (newTrajectories b))%nat
       /\ (FixedVector.size (transpositionValues b)
           <= length (transpositionTrajectories b))%nat)
  /\ (aligned s -> is_Some (backup_value_outputs s)).
Proof.
  intros Hkeep Hvalid b.
  pose proof (backup_value_outputs_run Hkeep s Hvalid) as Hiff. split; [exact Hiff|].
  intros Hal. apply Hiff. unfold aligned in Hal. subst b. cbv zeta in Hal.
  destruct Hal as (_ & Hn & Ht). rewrite Hn, Ht. split; reflexivity.
Qed.

(** ** The invariants over a whole search *)

Lemma run_iterations_invariants fuel batch_fuel sel_fuel s u s' :
  sized s -> fits s -> aligned s -> covered s ->
  run_iterations fuel batch_fuel sel_fuel s = Some (u, s') ->
  sized s' /\ fits s' /\ aligned s' /\ covered s' /\ (drained s -> drained s').
Proof.
  revert s. induction fuel as [|fuel IH]; intros s H1 H2 H3 H4;
    rewrite run_iterations_unfold;
    intros H; apply inv_bind in H; destruct H as (go & s1 & Hgo & H);
    pose proof (keep_running_reads _ _ _ Hgo) as E; cbn in E; subst s1;
    (destruct go; [|injection H as _ <-; repeat (split; [assumption|]); auto]).
  - discriminate.
  - apply inv_bind in H. destruct H as (? & s1 & Hit & H).
    destruct (thread_iteration_invariants _ _ _ _ _ H1 H2 H3 H4 Hit)
      as (I1 & I2 & I3 & I4 & I5).
    destruct (IH _ I1 I2 I3 I4 H) as (J1 & J2 & J3 & J4 & J5).
    repeat (split; [assumption|]). intros _. exact (J5 I5).
Qed.

(** X17: the invariants of the staging area hold over a whole search: a
    worker that enters [run_search_thread] with vectors of the constructor's
    capacities, within them, in step and covered by the histogram leaves it
    so, however many iterations run; and an empty staging area is empty
    again at the end. *)
Theorem run_search_thread_keeps_invariants (fuel batch_fuel sel_fuel : nat)
    (s s' : Machine) (u : unit) :
  sized s -> fits s -> aligned s -> covered s ->
  run_search_thread fuel batch_fuel sel_fuel s = Some (u, s') ->
  sized s' /\ fits s' /\ aligned s' /\ covered s' /\ (drained s -> drained s').
Proof.
  intros H1 H2 H3 H4. unfold run_search_thread, reset_stats. intros H.
  apply inv_bind in H. destruct H as (? & s0 & H0 & H). injection H0 as _ <-.
  apply inv_bind in H. destruct H as (? & s0 & H0 & H). injection H0 as _ <-.
  apply inv_bind in H. destruct H as (? & s1 & Hrun & H). injection H as _ <-.
  apply run_iterations_invariants in Hrun; [|assumption..].
  exact Hrun.
Qed.

(** ** The depth of the random descent *)

(** X18: on the buckets where it is defined, [get_random_depth] is the
    formula of the source, [ceil(-log2(1 - U) - 1)] for
    [U = (rand() % 100 + 1) / 100], taken in the reals; it lies in 0..6, and
    it is 0 (no descent at all) exactly on the lower half of the buckets. *)
Theorem get_random_depth_formula (r d : Z) :
  get_random_depth r = Some d ->
  let U := (IZR (r mod 100 + 1) / 100)%R in
  (IZR d - 1 < - log2R (1 - U) - 1 <= IZR d)%R
  /\ 0 <= d <= 6
  /\ (d = 0 <-> r mod 100 < 50).
Proof.
  intros Hd U. destruct (get_random_depth_is_ceiling _ _ Hd) as [Hrange Hceil].
  split; [exact Hceil|]. split; [exact Hrange|].
  rewrite get_random_depth_mod in Hd.
  pose proof (Z.mod_pos_bound r 100 ltac:(lia)) as Hk.
  pose proof (bucket_ok_all (r mod 100) Hk) as H.
  unfold bucket_ok in H. rewrite Hd in H.
  rewrite !andb_true_iff in H. destruct H as [[[[_ _] _] Hlo] Hhi].
  apply Z.ltb_lt in Hlo. apply Z.leb_le in Hhi. split.
  - intros ->. change (2 ^ (0 + 1)) with 2 in Hhi. lia.
  - intros Hlt. destruct (Z.eq_dec d 0) as [E|E]; [exact E|exfalso].
    assert (2 ^ 1 <= 2 ^ d) by (apply Z.pow_le_mono_r; lia).
    change (2 ^ 1) with 2 in *. nia.
Qed.

(** ** What an iteration only reads *)

(** X8: a worker iteration writes none of the members that are set up from
    outside: the root node and root state, [isRunning], the settings and the
    limits, [terminalNodeCache], [reachedTablebases], the networks with their
    phase table, and [visitsPreSearch]. *)
Theorem thread_iteration_keeps_setup (fuel sel_fuel : nat) (s s' : Machine) (u : unit) :
  thread_iteration fuel sel_fuel s = Some (u, s') ->
  rootNode (thread s') = rootNode (thread s)
  /\ rootState (thread s') = rootState (thread s)
  /\ isRunning (thread s') = isRunning (thread s)
  /\ searchSettings (thread s') = searchSettings (thread s)
  /\ searchLimits (thread s') = searchLimits (thread s)
  /\ terminalNodeCache (thread s') = terminalNodeCache (thread s)
  /\ reachedTablebases (thread s') = reachedTablebases (thread s)
  /\ nets (thread s') = nets (thread s)
  /\ numPhases (thread s') = numPhases (thread s)
  /\ phaseToNetsIndex (thread s') = phaseToNetsIndex (thread s)
  /\ visitsPreSearch (stats (thread s')) = visitsPreSearch (stats (thread s)).
Proof.
  intros H. apply thread_iteration_setup in H. unfold setup in H. cbv zeta in H.
  injection H as H1 H2 H3 H4 H5 H6 H7 H8 H9 H10 H11.
  repeat split; assumption.
Qed.

(** X19: a [stop] that arrives before the driver has started is lost: the
    driver sets [isRunning] itself and runs exactly as it would have without
    the [stop]. *)
Theorem stop_before_start_is_lost (fuel batch_fuel sel_fuel : nat) (s s0 : Machine)
    (u : unit) :
  stop s = Some (u, s0) ->
  isRunning (thread s0) = false
  /\ run_search_thread fuel batch_fuel sel_fuel s0
     = run_search_thread fuel batch_fuel sel_fuel s.
Proof. intros [= <- <-]. split; reflexivity. Qed.

End Coverage.

(** * Runs on the small instance *)

Import Demo.

(** The terminal, the pending, the transposed and the ordinary child of
    [grown_root], in this order. *)
Lemma existing_child_priority_run :
  let s := machine 2 grown_tree 0 in
  tree s !! 0%nat = Some grown_root
  /\ selection_loop 1 0%nat 0 0 s
     = Some ((1%nat, {| depth := 1; type := NODE_TERMINAL |}),
             after_edge s 0%nat grown_root 0)
  /\ selection_loop 1 0%nat 1 0 s
     = Some ((2%nat, {| depth := 1; type := NODE_COLLISION |}),
             after_edge s 0%nat grown_root 1)
  /\ selection_loop 1 0%nat 2 0 s
     = Some ((3%nat, {| depth := 1; type := NODE_TRANSPOSITION |}),
             stage_value 7 (after_edge s 0%nat grown_root 2))
  /\ selection_loop 2 0%nat 3 0 s
     = selection_loop 1 4%nat NO_CHILD 1
                      (push_action 4%nat (after_edge s 0%nat grown_root 3)).
Proof.
  intros s. split; [reflexivity|].
  split; [|split; [|split]].
  - exact (proj1 (existing_child_priority 0 s 0%nat 1%nat 0 0 grown_root (leaf 5 true true)
                    eq_refl eq_refl eq_refl) eq_refl).
  - exact (proj1 (proj2 (existing_child_priority 0 s 0%nat 2%nat 1 0 grown_root
                           (leaf 0 false false) eq_refl eq_refl eq_refl))
                 eq_refl eq_refl).
  - refine (proj1 (proj2 (proj2 (existing_child_priority 0 s 0%nat 3%nat 2 0 grown_root
                                   (transposed 7) eq_refl eq_refl eq_refl)))
                  eq_refl eq_refl eq_refl eq_refl _).
    vm_compute. lia.
  - exact (proj2 (proj2 (proj2 (existing_child_priority 1 s 0%nat 4%nat 3 0 grown_root
                                  (inner 0 [(1%nat, None)] 0) eq_refl eq_refl eq_refl)))
                 eq_refl eq_refl eq_refl 4%nat eq_refl).
Defined.

(** Expanding the game-ending move 9, the transposing move 8 and the
    ordinary move 1 of [fresh_root]. *)
Lemma expansion_classification_run :
  let s := machine 2 fresh_tree 0 in
  rootState (thread s) = Some []
  /\ (exists s', expand_child 0%nat fresh_root 2 s = Some (Leaf 2%nat NODE_TERMINAL, s')
                 /\ FixedVector.elems (transpositionValues (staging (thread s'))) = [])
  /\ (exists s', expand_child 0%nat fresh_root 3 s = Some (Leaf 1%nat NODE_TRANSPOSITION, s')
                 /\ FixedVector.elems (transpositionValues (staging (thread s'))) = [3])
  /\ (exists s', expand_child 0%nat fresh_root 0 s = Some (Leaf 2%nat NODE_NEW_NODE, s')
                 /\ inputPlanes (buffers (thread s')) = [1; 1; 0; 0]
                 /\ phaseCountMap (staging (thread s')) = [(1, 1)]
                 /\ FixedVector.elems (newNodeSideToMove (staging (thread s'))) = [false]).
Proof.
  intros s. split; [reflexivity|]. split; [|split].
  - edestruct (expansion_classification s 0%nat fresh_root 2 [] 9%nat) as (H & _ & _);
      [reflexivity | reflexivity | vm_compute; reflexivity | vm_compute; reflexivity |].
    destruct (H eq_refl) as [Hrun Htv].
    eexists. split; [exact Hrun|]. rewrite Htv. reflexivity.
  - edestruct (expansion_classification s 0%nat fresh_root 3 [] 8%nat) as (_ & H & _);
      [reflexivity | reflexivity | vm_compute; reflexivity | vm_compute; reflexivity |].
    edestruct (H eq_refl eq_refl) as [Hrun Htv];
      [vm_compute; reflexivity | vm_compute; reflexivity | vm_compute; reflexivity
      | vm_compute; lia |].
    eexists. split; [exact Hrun|]. rewrite Htv. reflexivity.
  - edestruct (expansion_classification s 0%nat fresh_root 0 [] 1%nat) as (_ & _ & H);
      [reflexivity | reflexivity | vm_compute; reflexivity | vm_compute; reflexivity |].
    edestruct (H eq_refl eq_refl net eq_refl) as (s' & Hrun & Hplanes & Hphase & Hside & _);
      [vm_compute; lia | vm_compute; lia |].
    exists s'. split; [exact Hrun|]. rewrite Hplanes, Hphase, Hside.
    repeat split; reflexivity.
Defined.

(** A batch of two on [fresh_tree]: the loop runs until a limit is reached. *)
Lemma mini_batch_assembly_run :
  let s := machine 2 fresh_tree 0 in
  sized s /\ fits s
  /\ exists n' s' k,
       create_mini_batch 10 10 s = Some (n', s')
       /\ run_steps k 10 0 s = Some (n', s')
       /\ batch_limit_reached n' s'
       /\ (remaining n' s' + k = remaining 0 s)%nat.
Proof.
  intros s.
  assert (Hsized : sized s) by (split; reflexivity).
  assert (Hfits : fits s) by (unfold fits; vm_compute; lia).
  split; [exact Hsized|]. split; [exact Hfits|].
  destruct (create_mini_batch 10 10 s) as [[n' s']|] eqn:E;
    [|vm_compute in E; discriminate].
  destruct (proj1 (mini_batch_assembly 10 10 s Hsized Hfits) n' s' E)
    as (k & Hk & Hlim & _ & Hrem).
  exists n', s', k. repeat split; assumption.
Defined.

(** The solved child makes the random playout yield the sentinel. *)
Lemma random_playout_sentinel_run :
  let s := machine 2 solved_child_tree 0 in
  tree s !! 0%nat = Some (inner 0 [(1%nat, Some 1%nat)] 1)
  /\ random_playout 0%nat s = Some (NO_CHILD, after_rand s).
Proof.
  intros s. split; [reflexivity|].
  destruct (random_playout_sentinel s 0%nat (inner 0 [(1%nat, Some 1%nat)] 1))
    as (res & Hrun & _ & Hsentinel & _).
  - reflexivity.
  - reflexivity.
  - vm_compute. split; reflexivity.
  - intros child H. vm_compute in H. injection H as <-. eexists. reflexivity.
  - assert (Hres : res = NO_CHILD).
    { apply Hsentinel. exists 1%nat, (solved 1).
      repeat split; try reflexivity. discriminate. }
    rewrite Hres in Hrun. exact Hrun.
Defined.

(** C5, counterexample to "the sentinel is yielded iff the child exists and
    is solved or not a playout node": the only child exists and is not a
    playout node, yet the random playout yields its index. *)
Lemma random_playout_pending_child_not_sentinel :
  let s := machine 2 pending_child_tree 0 in
  is_fully_expanded (inner 0 [(1%nat, Some 1%nat)] 1) = true
  /\ ~ (fst <$> random_playout 0%nat s = Some NO_CHILD
        <-> exists child c,
              get_child_link (inner 0 [(1%nat, Some 1%nat)] 1)
                             (rand_stream (rand_calls s) mod 1) = Some (Some child)
              /\ tree s !! child = Some c
              /\ (node_type c <> UNSOLVED \/ is_playout_node c = false)).
Proof.
  intros s. split; [reflexivity|]. intros [_ H].
  assert (Hrun : fst <$> random_playout 0%nat s = Some 0) by (vm_compute; reflexivity).
  rewrite Hrun in H.
  assert (Hbad : Some 0 = Some NO_CHILD).
  { apply H. exists 1%nat, (leaf 0 false false).
    split; [reflexivity|]. split; [reflexivity|]. right. reflexivity. }
  discriminate Hbad.
Qed.

(** The probe on [fresh_root] finds the checking move 7 at index 1; on
    [quiet_root] it finds none, marks the node, and the next probe returns
    at once, whatever the machine around the node. *)
Lemma check_probe_run :
  let s := machine 2 fresh_tree 0 in
  let q := machine 2 [quiet_root] 0 in
  rootState (thread s) = Some []
  /\ select_enhanced_move 0%nat s
     = Some (1, poke 0%nat (with_no_visit_idx 2 fresh_root) s)
  /\ select_enhanced_move 0%nat q
     = Some (NO_CHILD, poke 0%nat (set_as_inspected quiet_root) q)
  /\ select_enhanced_move 0%nat (poke 0%nat (set_as_inspected quiet_root) q)
     = Some (NO_CHILD, poke 0%nat (set_as_inspected quiet_root) q).
Proof.
  intros s q. split; [reflexivity|]. split; [|split].
  - destruct (check_probe s 0%nat fresh_root []) as (Hfound & _ & _);
      [reflexivity | reflexivity | reflexivity | reflexivity | reflexivity
      | vm_compute; reflexivity |].
    refine (proj1 (Hfound 1%nat 7%nat _ eq_refl eq_refl _)).
    + cbn. lia.
    + intros j a' Hj Ha'. assert (j = 0%nat) as -> by (cbn in Hj; lia).
      vm_compute in Ha'. inversion Ha'. reflexivity.
  - destruct (check_probe q 0%nat quiet_root []) as (_ & Hnone & _);
      [reflexivity | reflexivity | reflexivity | reflexivity | reflexivity
      | vm_compute; reflexivity |].
    refine (proj1 (Hnone _)).
    intros j a' _ Ha'. unfold get_action in Ha'. rewrite Nat2Z.id in Ha'.
    destruct j as [|[|j]]; cbn in Ha'; try discriminate; inversion Ha'; reflexivity.
  - destruct (check_probe q 0%nat quiet_root []) as (_ & _ & Hagain);
      [reflexivity | reflexivity | reflexivity | reflexivity | reflexivity
      | vm_compute; reflexivity |].
    exact (Hagain (poke 0%nat (set_as_inspected quiet_root) q)
                  (set_as_inspected quiet_root) eq_refl eq_refl).
Defined.

(** Ten plies over four visits average to 2.5, which rounds to 3. *)
Lemma get_avg_depth_rounds_half_up_run :
  rootNode (thread measured) = Some 0%nat
  /\ get_avg_depth measured = Some (3, measured).
Proof.
  split; [reflexivity|].
  destruct (get_avg_depth_rounds_half_up measured 0%nat (inner 7 [(1%nat, None)] 0))
    as (r & Hrun & _ & _ & Hlo & Hhi).
  - reflexivity.
  - reflexivity.
  - vm_compute. discriminate.
  - vm_compute. split; reflexivity.
  - vm_compute. discriminate.
  - vm_compute. discriminate.
  - change ((2 * r - 1) * 4 <= 2 * 10) in Hlo. change (2 * 10 < (2 * r + 1) * 4) in Hhi.
    assert (r = 3) as -> by lia. exact Hrun.
Defined.

(** C9, counterexample to "for every worker state in which the root has
    more visits than [visitsPreSearch]": with one visit added and a depth sum
    of [2^53 + 1] the average is the sum itself, which no double holds; the
    function returns [2^53]. *)
Lemma get_avg_depth_large_sum_not_rounded :
  let w := thread huge in
  let root := inner 7 [(1%nat, None)] 0 in
  let d := visits root - visitsPreSearch (stats w) in
  (rootNode w = Some 0%nat /\ tree huge !! 0%nat = Some root
   /\ visitsPreSearch (stats w) < visits root)
  /\ get_avg_depth huge = Some (2 ^ 53, huge)
  /\ ~ (exists r,
          get_avg_depth huge = Some (r, huge)
          /\ (inject_Z r - (1 # 2) <= inject_Z (depthSum (stats w)) / inject_Z d)%Q
          /\ (inject_Z (depthSum (stats w)) / inject_Z d < inject_Z r + (1 # 2))%Q).
Proof.
  intros w root d.
  assert (Hrun : get_avg_depth huge = Some (2 ^ 53, huge)) by (vm_compute; reflexivity).
  split; [repeat split; reflexivity|]. split; [exact Hrun|].
  intros (r & Hr & _ & Hhi). rewrite Hrun in Hr. injection Hr as <-.
  vm_compute in Hhi. discriminate.
Qed.


(** C4 at a worker with a single network: one iteration that stages two
    new leaves rewinds newNodes, newNodeSideToMove, newTrajectories,
    transpositionValues, transpositionTrajectories and collisionTrajectories,
    but leaves [phaseCountMap] holding the two leaves it counted. *)
Theorem phaseCountMap_survives_iteration_single_network :
  let s := machine 2 fresh_tree 0 in
  length (nets (thread s)) = 1%nat
  /\ phaseCountMap (staging (thread s)) = []
  /\ exists s',
       thread_iteration 10 10 s = Some (tt, s')
       /\ FixedVector.size (newNodes (staging (thread s'))) = 0%nat
       /\ FixedVector.size (newNodeSideToMove (staging (thread s'))) = 0%nat
       /\ newTrajectories (staging (thread s')) = []
       /\ FixedVector.size (transpositionValues (staging (thread s'))) = 0%nat
       /\ transpositionTrajectories (staging (thread s')) = []
       /\ collisionTrajectories (staging (thread s')) = []
       /\ phaseCountMap (staging (thread s')) = [(1, 2)].
Proof.
  intros s. split; [reflexivity|]. split; [reflexivity|].
  destruct (thread_iteration 10 10 s) as [[[] s']|] eqn:E;
    [|vm_compute in E; discriminate].
  exists s'. split; [reflexivity|].
  destruct (thread_iteration_resets_staging _ _ _ _ _ E) as (? & ? & ? & ? & ? & ?).
  repeat split; try assumption.
  vm_compute in E. injection E as <-. reflexivity.
Qed.

(** ** Runs for the further properties *)

(** One simulation allowed on an unvisited root; five on a root with seven
    visits. *)
Lemma nodes_limits_ok_spec_run :
  let s := limited 1 (machine 2 fresh_tree 0) in
  nodes_limits_ok s = Some (true, s)
  /\ nodes_limits_ok (limited 5 measured) = Some (false, limited 5 measured).
Proof.
  intros s. split.
  - exact (proj2 (nodes_limits_ok_spec s (limits 1) eq_refl)
                 0%nat fresh_root eq_refl eq_refl).
  - exact (proj2 (nodes_limits_ok_spec (limited 5 measured) (limits 5) eq_refl)
                 0%nat (inner 7 [(1%nat, None)] 0) eq_refl eq_refl).
Defined.

(** Phases 2 and 3 tie at three leaves: the earlier one wins, and its
    network is the second. *)
Lemma select_nn_index_majority_run :
  select_nn_index polled = Some (1%nat, clear_histogram polled)
  /\ exists pos k c,
       phaseCountMap (staging (thread polled)) !! pos = Some (k, c)
       /\ (forall j e, phaseCountMap (staging (thread polled)) !! j = Some e -> snd e <= c)
       /\ (forall j e, (j < pos)%nat ->
                       phaseCountMap (staging (thread polled)) !! j = Some e -> snd e < c)
       /\ phase_net_at k (phaseToNetsIndex (thread polled)) = Some 1%nat
       /\ clear_histogram polled = clear_histogram polled.
Proof.
  split; [vm_compute; reflexivity|].
  refine (proj1 (select_nn_index_majority polled _) 1%nat (clear_histogram polled) _).
  - vm_compute. discriminate.
  - vm_compute. reflexivity.
Defined.

(** An iteration on [fresh_tree] with both epsilon counters at zero. *)
Lemma thread_iteration_draws_nothing_run :
  let s := machine 2 fresh_tree 5 in
  exists s', thread_iteration 10 10 s = Some (tt, s') /\ rand_calls s' = 5%nat.
Proof.
  intros s. destruct (thread_iteration 10 10 s) as [[[] s']|] eqn:E;
    [|vm_compute in E; discriminate].
  exists s'. split; [reflexivity|].
  exact (thread_iteration_draws_nothing 10 10 s s' tt eq_refl eq_refl E).
Defined.

(** A batch of two new leaves on [fresh_tree]. *)
Lemma create_mini_batch_keeps_parallel_run :
  let s := machine 2 fresh_tree 0 in
  aligned s
  /\ exists n' s',
       create_mini_batch 10 10 s = Some (n', s')
       /\ aligned s'
       /\ PhaseCount.total (phaseCountMap (staging (thread s')))
          - PhaseCount.total (phaseCountMap (staging (thread s)))
          = Z.of_nat (FixedVector.size (newNodes (staging (thread s'))))
            - Z.of_nat (FixedVector.size (newNodes (staging (thread s)))).
Proof.
  intros s.
  assert (Ha : aligned s) by (repeat split; reflexivity).
  split; [exact Ha|].
  destruct (create_mini_batch 10 10 s) as [[n' s']|] eqn:E;
    [|vm_compute in E; discriminate].
  exists n', s'. split; [reflexivity|].
  exact (create_mini_batch_keeps_parallel 10 10 s s' n' Ha E).
Defined.

Lemma histogram_covers_batch_run :
  let s := machine 2 fresh_tree 0 in
  aligned s /\ covered s
  /\ exists n' s',
       create_mini_batch 10 10 s = Some (n', s')
       /\ covered s'
       /\ (FixedVector.size (newNodes (staging (thread s'))) <> 0%nat ->
           exists k c,
             PhaseCount.max_element (phaseCountMap (staging (thread s'))) = Some (k, c)).
Proof.
  intros s.
  assert (Ha : aligned s) by (repeat split; reflexivity).
  assert (Hc : covered s) by (unfold covered; vm_compute; discriminate).
  split; [exact Ha|]. split; [exact Hc|].
  destruct (create_mini_batch 10 10 s) as [[n' s']|] eqn:E;
    [|vm_compute in E; discriminate].
  exists n', s'. split; [reflexivity|].
  exact (histogram_covers_batch 10 10 s s' n' Ha Hc E).
Defined.

Lemma thread_iteration_keeps_invariants_run :
  let s := machine 2 fresh_tree 0 in
  sized s /\ fits s /\ aligned s /\ covered s
  /\ exists s',
       thread_iteration 10 10 s = Some (tt, s')
       /\ sized s' /\ fits s' /\ aligned s' /\ covered s'.
Proof.
  intros s.
  assert (Hs : sized s) by (split; reflexivity).
  assert (Hf : fits s) by (unfold fits; vm_compute; lia).
  assert (Ha : aligned s) by (repeat split; reflexivity).
  assert (Hc : covered s) by (unfold covered; vm_compute; discriminate).
  split; [exact Hs|]. split; [exact Hf|]. split; [exact Ha|]. split; [exact Hc|].
  destruct (thread_iteration 10 10 s) as [[[] s']|] eqn:E;
    [|vm_compute in E; discriminate].
  exists s'. split; [reflexivity|].
  exact (thread_iteration_keeps_invariants 10 10 s s' tt Hs Hf Ha Hc E).
Defined.

(** The first selection on [fresh_tree]: one trajectory entry, no recorded
    action, depth 1. *)
Lemma selection_accounting_run :
  let s := machine 2 fresh_tree 0 in
  exists n desc s',
    get_new_child_to_evaluate 10 s = Some ((n, desc), s')
    /\ depth desc = S (length (actionsBuffer (scratch (thread s'))))
    /\ (1 <= length (trajectoryBuffer (scratch (thread s'))) <= depth desc)%nat
    /\ (depth desc <= length (trajectoryBuffer (scratch (thread s'))) + 6)%nat
    /\ (epsilonGreedyCounter (searchSettings (thread s)) = 0 ->
        epsilonChecksCounter (searchSettings (thread s)) = 0 ->
        length (trajectoryBuffer (scratch (thread s'))) = depth desc
        /\ exists idx rest,
             trajectoryBuffer (scratch (thread s')) = (idx.1, idx.2) :: rest
             /\ rootNode (thread s) = Some idx.1).
Proof.
  intros s. destruct (get_new_child_to_evaluate 10 s) as [[[n desc] s']|] eqn:E;
    [|vm_compute in E; discriminate].
  exists n, desc, s'. split; [reflexivity|].
  exact (selection_accounting 10 s s' n desc eq_refl eq_refl E).
Defined.

Lemma thread_iteration_keeps_setup_run :
  let s := limited 2 (machine 2 fresh_tree 0) in
  exists s',
    thread_iteration 10 10 s = Some (tt, s')
    /\ rootNode (thread s') = Some 0%nat
    /\ searchLimits (thread s') = Some (limits 2)
    /\ isRunning (thread s') = true
    /\ visitsPreSearch (stats (thread s')) = 0.
Proof.
  intros s. destruct (thread_iteration 10 10 s) as [[[] s']|] eqn:E;
    [|vm_compute in E; discriminate].
  exists s'. split; [reflexivity|].
  destruct (thread_iteration_keeps_setup 10 10 s s' tt E)
    as (H1 & _ & H3 & _ & H5 & _ & _ & _ & _ & _ & H11).
  rewrite H1, H3, H5, H11. repeat split; reflexivity.
Defined.

(** With two simulations allowed the search on [fresh_tree] stops after its
    first batch. *)
Lemma run_search_thread_exit_run :
  let s := limited 2 (machine 2 fresh_tree 0) in
  exists s',
    run_search_thread 10 10 10 s = Some (tt, s')
    /\ isRunning (thread s') = false
    /\ exists s1,
         s' = halted s1
         /\ isRunning (thread s1) = true
         /\ setup s1 = setup (started s)
         /\ (nodes_limits_ok s1 = Some (false, s1)
             \/ (nodes_limits_ok s1 = Some (true, s1)
                 /\ is_root_node_unsolved s1 = Some (false, s1))).
Proof.
  intros s. destruct (run_search_thread 10 10 10 s) as [[[] s']|] eqn:E;
    [|vm_compute in E; discriminate].
  exists s'. split; [reflexivity|].
  exact (run_search_thread_exit 10 10 10 s s' tt E).
Defined.

(** Five simulations allowed on a root that has seven visits. *)
Lemma run_search_thread_idle_run :
  let s := limited 5 measured in
  run_search_thread 0 0 0 s = Some (tt, halted (started s)).
Proof.
  intros s. apply (run_search_thread_idle 0 0 0 s). left. vm_compute. reflexivity.
Defined.

(** The worker of [machine] has no limits set. *)
Lemma run_search_thread_needs_setup_run :
  run_search_thread 10 10 10 (machine 2 fresh_tree 0) = None.
Proof.
  apply (run_search_thread_needs_setup 10 10 10 (machine 2 fresh_tree 0)).
  left. reflexivity.
Defined.

(** The random number 60 asks for one level; the first child of
    [grown_root] is evaluated and unsolved. *)
Lemma get_starting_node_spec_run :
  let s := machine 2 grown_tree 60 in
  exists levels acts,
    get_random_depth (rand_stream (rand_calls s)) = Some levels
    /\ push_actions [1%nat] (after_rand s) = push_actions acts (after_rand s)
    /\ 1%nat = (0 + length acts)%nat
    /\ (Z.of_nat (length acts) <= levels <= 6)
    /\ (acts = [] -> 1%nat = 0%nat)
    /\ (acts <> [] ->
        exists n, tree s !! 1%nat = Some n
                  /\ descendable (searchSettings (thread s)) n).
Proof.
  intros s.
  refine (get_starting_node_spec 0%nat 1%nat 0%nat 1%nat NO_CHILD 0 s
            (push_actions [1%nat] (after_rand s)) _).
  vm_compute. reflexivity.
Defined.

(** The root of [fresh_tree] has four moves and none visited. *)
Lemma random_playout_unexpanded_run :
  let s := machine 2 fresh_tree 0 in
  random_playout 0%nat s = Some (0, poke 0%nat (increment_no_visit_idx fresh_root) s).
Proof.
  intros s.
  destruct (random_playout_unexpanded s 0%nat fresh_root) as (res & Hrun & Hres & _).
  - reflexivity.
  - reflexivity.
  - vm_compute. reflexivity.
  - destruct Hres as (Hval & _); [vm_compute; split; reflexivity|].
    rewrite Hval in Hrun. exact Hrun.
Defined.

(** The two leaves of the batch receive the values 4 and 6. *)
Lemma set_nn_results_publishes_run :
  exists s',
    set_nn_results_to_child_nodes batched = Some (tt, s')
    /\ length (tree s') = 4%nat
    /\ (exists n, tree s' !! 2%nat = Some n /\ has_nn_results n = true)
    /\ tree s' !! 0%nat = tree batched !! 0%nat
    /\ (exists n, tree s' !! 3%nat = Some n
                  /\ valueOutputs (buffers (thread batched)) !! 1%nat = Some (value n)).
Proof.
  destruct (set_nn_results_to_child_nodes batched) as [[[] s']|] eqn:E;
    [|vm_compute in E; discriminate].
  exists s'. split; [reflexivity|].
  destruct (set_nn_results_publishes batched s' tt E) as (Hlen & Hin & Hout & Htb).
  split; [exact Hlen|]. split; [|split].
  - apply Hin. apply (bool_decide_unpack _). vm_compute. exact I.
  - apply Hout. apply (bool_decide_unpack _). vm_compute. exact I.
  - destruct (Htb eq_refl) as [_ Hvals]. apply (Hvals ltac:(apply (bool_decide_unpack _); vm_compute; exact I) 1%nat 3%nat).
    reflexivity.
Defined.

(** A batch on [deep_tree]: a new leaf and two collisions, each two plies
    deep. *)
Lemma create_mini_batch_statistics_run :
  let s := machine 2 deep_tree 0 in
  exists n s',
    create_mini_batch 10 10 s = Some (n, s')
    /\ run_steps 3 10 0 s = Some (n, s')
    /\ batch_depths 3 10 0 s = Some [2; 2; 2]%nat
    /\ depthSum (stats (thread s')) = 6
    /\ 2 <= depthMax (stats (thread s')).
Proof.
  intros s. destruct (create_mini_batch 10 10 s) as [[n s']|] eqn:E;
    [|vm_compute in E; discriminate].
  exists n, s'. split; [reflexivity|].
  destruct (create_mini_batch_statistics 10 10 n s s' E)
    as (k & depths & Hrun & Hds & Hlen & _ & Hk & _ & _ & Hsum & _ & Hmax).
  assert (Hfiled : (filed s' + n = 3)%nat).
  { vm_compute in E. injection E as <- <-. reflexivity. }
  assert (k = 3%nat) as -> by (change (filed s) with 0%nat in Hk; lia).
  assert (depths = [2; 2; 2]%nat) as ->.
  { assert (Hc : batch_depths 3 10 0 s = Some [2; 2; 2]%nat) by (vm_compute; reflexivity).
    congruence. }
  split; [exact Hrun|]. split; [exact Hds|]. split; [exact Hsum|].
  apply Forall_cons in Hmax. exact (proj1 Hmax).
Defined.

(** The backup of the small instance only counts visits. *)
Lemma demo_backup_keeps_arena (free : bool) (v : Z) (st : SearchSettings)
    (tr : Trajectory) (solve : bool) (t : Tree) :
  length (backup_value free v st tr solve t) = length t.
Proof.
  cbn. revert t. induction tr as [|e tr IH]; intros t; cbn [fold_left].
  - reflexivity.
  - rewrite IH. apply length_alter.
Qed.

(** After the batch on [fresh_tree] every staged leaf has its trajectory. *)
Lemma backup_value_outputs_defined_iff_run :
  aligned batched /\ is_Some (backup_value_outputs batched).
Proof.
  assert (Ha : aligned batched) by (repeat split; reflexivity).
  split; [exact Ha|].
  refine (proj2 (backup_value_outputs_defined_iff batched demo_backup_keeps_arena _) Ha).
  intros p Hp. change (p ∈ [2%nat; 3%nat]) in Hp.
  apply elem_of_cons in Hp. destruct Hp as [->|Hp]; [vm_compute; lia|].
  apply elem_of_cons in Hp. destruct Hp as [->|Hp]; [vm_compute; lia|].
  inversion Hp.
Defined.

Lemma run_search_thread_keeps_invariants_run :
  let s := limited 2 (machine 2 fresh_tree 0) in
  drained s
  /\ exists s',
       run_search_thread 10 10 10 s = Some (tt, s')
       /\ sized s' /\ fits s' /\ aligned s' /\ covered s' /\ drained s'.
Proof.
  intros s.
  assert (Hs : sized s) by (split; reflexivity).
  assert (Hf : fits s) by (unfold fits; vm_compute; lia).
  assert (Ha : aligned s) by (repeat split; reflexivity).
  assert (Hc : covered s) by (unfold covered; vm_compute; discriminate).
  assert (Hd : drained s) by (repeat split; reflexivity).
  split; [exact Hd|].
  destruct (run_search_thread 10 10 10 s) as [[[] s']|] eqn:E;
    [|vm_compute in E; discriminate].
  exists s'. split; [reflexivity|].
  destruct (run_search_thread_keeps_invariants 10 10 10 s s' tt Hs Hf Ha Hc E)
    as (I1 & I2 & I3 & I4 & I5).
  split; [exact I1|]. split; [exact I2|]. split; [exact I3|].
  split; [exact I4|exact (I5 Hd)].
Defined.

(** Bucket 76 of 100: [1 - U = 0.24], and [-log2(0.24) - 1] is about 1.06. *)
Lemma get_random_depth_formula_run :
  get_random_depth 75 = Some 2
  /\ (IZR 2 - 1 < - log2R (1 - IZR (75 mod 100 + 1) / 100) - 1 <= IZR 2)%R.
Proof.
  split; [reflexivity|].
  exact (proj1 (get_random_depth_formula 75 2 eq_refl)).
Defined.

Lemma stop_before_start_is_lost_run :
  let s := limited 2 (machine 2 fresh_tree 0) in
  isRunning (thread (halted s)) = false
  /\ run_search_thread 10 10 10 (halted s) = run_search_thread 10 10 10 s.
Proof.
  intros s. exact (stop_before_start_is_lost 10 10 10 s (halted s) tt eq_refl).
Defined.
